(** * pyNastran [bdf_methods]: area / volume / mass breakdowns and the
      mass-properties entry points.

    A shallow embedding of [pyNastran/bdf/bdf_methods.py] (class
    [BDFMethods]) and the properties of it that the specification states.

    Numbers.  The Python code computes with floats.  The embedding is
    parametric in the number type: [Number num] carries the operations the
    code uses and nothing more, so every theorem that does not name an
    arithmetic law holds for whatever arithmetic the operations implement.
    Where a statement needs a law (for instance distributivity) the law is
    an explicit hypothesis of that theorem.  The instance on [Z] is used to
    run the definitions on concrete models; the instance on the binary64
    floats, the numbers of the Python code, shows where a statement of the
    specification holds in exact arithmetic only.

    Exceptions.  A Python call that may raise returns a [result]; an
    attribute or a method that an object does not provide is [None] in the
    record that models the object and raises [AttributeError] when used. *)

From Stdlib Require Import ZArith QArith.
From Stdlib Require PrimFloat.
From stdpp Require Import gmap strings list fin_maps.

Local Open Scope string_scope.
Local Open Scope list_scope.

(** ** Numbers *)

Class Number (num : Type) : Type := {
  nzero : num;
  nunit : num;
  nadd : num → num → num;
  nsub : num → num → num;
  nmul : num → num → num;
  ndiv : num → num → num;
  nis_zero : num → bool;
}.

Declare Scope num_scope.
Delimit Scope num_scope with num.
Infix "+" := nadd : num_scope.
Infix "-" := nsub : num_scope.
Infix "*" := nmul : num_scope.
Infix "/" := ndiv : num_scope.

#[export] Instance Z_Number : Number Z := {|
  nzero := 0%Z;
  nunit := 1%Z;
  nadd := Z.add;
  nsub := Z.sub;
  nmul := Z.mul;
  ndiv := Z.div;
  nis_zero := Z.eqb 0%Z;
|}.

(** Python's builtin [sum]: starts from [0] and adds from the left. *)
Definition sum {num} `{Number num} (xs : list num) : num :=
  fold_left nadd xs nzero.

(** ** Results of calls that may raise *)

Inductive result (E A : Type) : Type :=
| Ok (a : A)
| Err (e : E).
Arguments Ok {E A} a.
Arguments Err {E A} e.

Definition bind {E A B} (r : result E A) (k : A → result E B) : result E B :=
  match r with
  | Ok a => k a
  | Err e => Err e
  end.

Notation "'let!' x := r 'in' k" := (bind r (fun x => k))
  (at level 10, x name, r at level 100, k at level 200).
Notation "'let!' ' p := r 'in' k" := (bind r (fun x => match x with p => k end))
  (at level 10, p pattern, r at level 100, k at level 200).

(** [for x in xs: body], where [s] stands for the local variables the body
    updates; an exception raised by the body leaves the loop. *)
Fixpoint for_loop {E A S} (body : S → A → result E S) (xs : list A) (s : S)
  : result E S :=
  match xs with
  | [] => Ok s
  | x :: xs' => let! s' := body s x in for_loop body xs' s'
  end.

(** ** Calls that also log

    [get_volume_breakdown] and [get_mass_breakdown] keep the set
    [skipped_eid_pid] and write to [self.log].  Both survive an exception,
    so the state is threaded next to the result rather than inside it. *)

Record SkipState : Type := {
  skipped_eid_pid : gset (string * string);
  log : list (string * (string * string));
}.

Definition no_skips : SkipState := {| skipped_eid_pid := ∅; log := [] |}.

Definition M (E A : Type) : Type := SkipState → result E A * SkipState.

Definition retM {E A} (a : A) : M E A := fun s => (Ok a, s).

Definition lift {E A} (r : result E A) : M E A := fun s => (r, s).

Definition bindM {E A B} (c : M E A) (k : A → M E B) : M E B :=
  fun s =>
    match c s with
    | (Ok a, s') => k a s'
    | (Err e, s') => (Err e, s')
    end.

Notation "'let*' x := c 'in' k" := (bindM c (fun x => k))
  (at level 10, x name, c at level 100, k at level 200).

Fixpoint for_loopM {E A S} (body : S → A → M E S) (xs : list A) (s : S)
  : M E S :=
  match xs with
  | [] => retM s
  | x :: xs' => let* s' := body s x in for_loopM body xs' s'
  end.

(** [[
    if key not in skipped_eid_pid:
        skipped_eid_pid.add(key)
        self.log.debug(msg % str(key))
    ]] *)
Definition note_skipped {E} (msg : string) (key : string * string) : M E unit :=
  fun s =>
    if decide (key ∈ skipped_eid_pid s) then (Ok (), s)
    else (Ok (), {| skipped_eid_pid := {[key]} ∪ skipped_eid_pid s;
                    log := log s ++ [(msg, key)] |}).

(** ** The model objects *)

Section Objects.
Context {num : Type}.

(** A property card.  [p_t] and [p_nsm] are the attributes [prop.t] and
    [prop.nsm]; the others are the methods [Rho()], [Area()] and
    [Thickness()]. *)
Record Property : Type := {
  p_type : string;
  p_t : option num;
  p_nsm : option num;
  p_Rho : option num;
  p_Area : option num;
  p_Thickness : option num;
}.

(** An element: its [type] tag and the methods the breakdowns call. *)
Record Element : Type := {
  e_type : string;
  e_Area : option num;
  e_Length : option num;
  e_Volume : option num;
  e_Mass : option num;
}.

(** A point mass of [self.masses]. *)
Record MassElement : Type := {
  ms_type : string;
  ms_Mass : option num;
}.

Inductive error : Type :=
| KeyError (key : Z)
| AttributeError (name : string)
| NotImplementedError (prop : Property)
| NoMassFound
| ElementIdsError.

(** The part of a [BDF] object the breakdowns read.  [masses] is a dict
    that is iterated, so its order is kept.  The method
    [get_element_ids_dict_with_pids] is defined outside this file: the
    field gives what it returns on this model for [property_ids] and for
    the [stop_if_no_eids] keyword ([None] when the caller leaves the
    keyword out), as the list of [(pid, eids)] items of the returned dict
    in iteration order, or [None] when it raises. *)
Record Model : Type := {
  properties : gmap Z Property;
  elements : gmap Z Element;
  masses : list (Z * MassElement);
  get_element_ids_dict_with_pids :
    option (list Z) → option bool → option (list (Z * list Z));
}.
End Objects.
Arguments Property : clear implicits.
Arguments Element : clear implicits.
Arguments MassElement : clear implicits.
Arguments error : clear implicits.
Arguments Model : clear implicits.

Abbreviation res num := (result (error num)).

(** ** Property type tables, as written in the source *)

Definition shell_props : list string := ["PSHELL"; "PCOMP"; "PSHEAR"; "PCOMPG"].
Definition comp_props : list string := ["PCOMP"; "PCOMPG"].
Definition line_props : list string :=
  ["PBAR"; "PBARL"; "PBEAM"; "PBEAML"; "PROD"; "PTUBE"].
Definition solid_props : list string := ["PSOLID"; "PCOMPS"; "PLSOLID"].
Definition solid_elems : list string := ["CTETRA"; "CPENTA"; "CHEXA"].

(** [skip_props] of [get_area_breakdown]. *)
Definition skip_props : list string :=
  ["PSOLID"; "PLPLANE"; "PPLANE"; "PELAS";
   "PDAMP"; "PBUSH"; "PBUSH1D"; "PBUSH2D";
   "PELAST"; "PDAMPT"; "PBUSHT"; "PDAMP5";
   "PFAST"; "PGAP"; "PRAC2D"; "PRAC3D"; "PCONEAX"; "PLSOLID";
   "PCOMPS"; "PVISC"; "PBCOMP"; "PBEND"].

(** [no_volume] of [get_volume_breakdown]; [properties_to_skip] of
    [get_mass_breakdown] is the same list. *)
Definition no_volume : list string :=
  ["PLPLANE"; "PPLANE"; "PELAS";
   "PDAMP"; "PBUSH"; "PBUSH1D"; "PBUSH2D";
   "PELAST"; "PDAMPT"; "PBUSHT"; "PDAMP5";
   "PFAST"; "PGAP"; "PRAC2D"; "PRAC3D"; "PCONEAX";
   "PVISC"; "PBCOMP"; "PBEND"].
Definition properties_to_skip : list string := no_volume.

Section Breakdown.
Context {num : Type} `{Number num}.
Local Open Scope num_scope.

Implicit Types (m : Model num) (prop : Property num) (elem : Element num).

(** [self.properties[pid]], [self.elements[eid]] *)
Definition get_property m (pid : Z) : res num (Property num) :=
  match properties m !! pid with
  | Some prop => Ok prop
  | None => Err (KeyError pid)
  end.

Definition get_element m (eid : Z) : res num (Element num) :=
  match elements m !! eid with
  | Some elem => Ok elem
  | None => Err (KeyError eid)
  end.

(** An attribute read or a method call on an object. *)
Definition attr {A} (name : string) (o : option A) : res num A :=
  match o with
  | Some a => Ok a
  | None => Err (AttributeError name)
  end.

Definition element_ids_dict m (property_ids : option (list Z))
    (stop_if_no_eids : option bool) : res num (list (Z * list Z)) :=
  match get_element_ids_dict_with_pids m property_ids stop_if_no_eids with
  | Some pid_eids => Ok pid_eids
  | None => Err ElementIdsError
  end.

(** [if xs: d[pid] = sum(xs)] *)
Definition store_sum (pid : Z) (xs : list num) (d : gmap Z num) : gmap Z num :=
  match xs with
  | [] => d
  | _ :: _ => <[pid := sum xs]> d
  end.

(** *** [get_area_breakdown] *)

(** The loop [for eid in eids: areas.append(self.elements[eid].Area())]. *)
Definition element_areas m (eids : list Z) : res num (list num) :=
  for_loop (fun areas eid =>
    let! elem := get_element m eid in
    let! a := attr "Area" (e_Area elem) in
    Ok (areas ++ [a])) eids [].

Definition bar_areas m (sum_bar_area : bool) (eids : list Z) : res num (list num) :=
  for_loop (fun areas eid =>
    let! elem := get_element m eid in
    let! a := attr "Area" (e_Area elem) in
    if sum_bar_area then Ok (areas ++ [a]) else Ok [a]) eids [].

(** The body of the loop over [pid_eids], up to the list [areas]. *)
Definition property_areas m (sum_bar_area : bool) prop (eids : list Z)
  : res num (list num) :=
  if decide (p_type prop ∈ shell_props) then element_areas m eids
  else if decide (p_type prop ∈ line_props) then bar_areas m sum_bar_area eids
  else if decide (p_type prop ∈ skip_props) then Ok []
  else Err (NotImplementedError prop).

Definition area_loop m (sum_bar_area : bool) (pid_eids : list (Z * list Z))
  : res num (gmap Z num) :=
  for_loop (fun pids_to_area '(pid, eids) =>
    let! prop := get_property m pid in
    let! areas := property_areas m sum_bar_area prop eids in
    Ok (store_sum pid areas pids_to_area)) pid_eids ∅.

Definition get_area_breakdown m (property_ids : option (list Z))
    (sum_bar_area : bool) : res num (gmap Z num) :=
  let! pid_eids := element_ids_dict m property_ids None in
  area_loop m sum_bar_area pid_eids.

(** *** [get_volume_breakdown] *)

Definition element_lengths m (eids : list Z) : res num (list num) :=
  for_loop (fun lengths eid =>
    let! elem := get_element m eid in
    let! length := attr "Length" (e_Length elem) in
    Ok (lengths ++ [length])) eids [].

(** The loop over the elements of a solid property; [msg] is the log
    message and [contribution] what is appended for a supported element
    ([elem.Volume()] or [rho * elem.Volume()]). *)
Definition solid_loop m (msg : string) (contribution : num → num) prop
    (eids : list Z) : M (error num) (list num) :=
  for_loopM (fun xs eid =>
    let* elem := lift (get_element m eid) in
    if decide (e_type elem ∈ solid_elems) then
      let* v := lift (attr "Volume" (e_Volume elem)) in
      retM (xs ++ [contribution v])
    else
      let* _ := note_skipped msg (e_type elem, p_type prop) in
      retM xs) eids [].

Definition property_volumes m prop (eids : list Z) : M (error num) (list num) :=
  if decide (p_type prop = "PSHELL") then
    lift (let! thickness := attr "t" (p_t prop) in
          let! areas := element_areas m eids in
          Ok (map (fun area => area * thickness) areas))
  else if decide (p_type prop ∈ comp_props) then
    lift (let! areas := element_areas m eids in
          let! thickness := attr "Thickness" (p_Thickness prop) in
          Ok (map (fun area => area * thickness) areas))
  else if decide (p_type prop ∈ line_props) then
    lift (let! lengths := element_lengths m eids in
          let! area := attr "Area" (p_Area prop) in
          Ok (map (fun length => area * length) lengths))
  else if decide (p_type prop ∈ solid_props) then
    solid_loop m "skipping volume" (fun v => v) prop eids
  else if decide (p_type prop = "PSHEAR") then
    lift (let! thickness := attr "t" (p_t prop) in
          let! areas := element_areas m eids in
          Ok (map (fun area => area * thickness) areas))
  else if decide (p_type prop ∈ no_volume) then retM []
  else lift (Err (NotImplementedError prop)).

Definition volume_loop m (pid_eids : list (Z * list Z))
  : M (error num) (gmap Z num) :=
  for_loopM (fun pids_to_volume '(pid, eids) =>
    let* prop := lift (get_property m pid) in
    let* volumes := property_volumes m prop eids in
    retM (store_sum pid volumes pids_to_volume)) pid_eids ∅.

(** The result and the lines written to [self.log] during the call. *)
Definition get_volume_breakdown m (property_ids : option (list Z))
  : res num (gmap Z num) * list (string * (string * string)) :=
  let '(r, s) :=
    (let* pid_eids := lift (element_ids_dict m property_ids None) in
     volume_loop m pid_eids) no_skips in
  (r, log s).

(** *** [get_mass_breakdown] *)

(** The loop over [self.masses]. *)
Definition mass_type_loop m : res num (gmap string num) :=
  for_loop (fun mass_type_to_mass '(eid, elem) =>
    let! mass := attr "Mass" (ms_Mass elem) in
    match mass_type_to_mass !! ms_type elem with
    | None => Ok (<[ms_type elem := mass]> mass_type_to_mass)
    | Some old => Ok (<[ms_type elem := old + mass]> mass_type_to_mass)
    end) (masses m) ∅.

Definition element_masses m (eids : list Z) : res num (list num) :=
  for_loop (fun masses eid =>
    let! elem := get_element m eid in
    let! mass := attr "Mass" (e_Mass elem) in
    Ok (masses ++ [mass])) eids [].

(** The loop of the [PSHELL] and [PSHEAR] branches. *)
Definition shell_masses m (thickness nsm rho : num) (eids : list Z)
  : res num (list num) :=
  for_loop (fun masses eid =>
    let! elem := get_element m eid in
    let! area := attr "Area" (e_Area elem) in
    Ok (masses ++ [area * (rho * thickness + nsm)])) eids [].

(** The loop of the line branch; [prop.Area()] is called per element. *)
Definition bar_masses m prop (nsm rho : num) (eids : list Z)
  : res num (list num) :=
  for_loop (fun masses eid =>
    let! elem := get_element m eid in
    let! area := attr "Area" (p_Area prop) in
    let! length := attr "Length" (e_Length elem) in
    Ok (masses ++ [area * (rho * length + nsm)])) eids [].

Definition property_masses m prop (eids : list Z) : M (error num) (list num) :=
  if decide (p_type prop = "PSHELL") then
    lift (let! thickness := attr "t" (p_t prop) in
          let! nsm := attr "nsm" (p_nsm prop) in
          let! rho := attr "Rho" (p_Rho prop) in
          shell_masses m thickness nsm rho eids)
  else if decide (p_type prop ∈ comp_props) then
    lift (element_masses m eids)
  else if decide (p_type prop ∈ line_props) then
    lift (let! nsm := attr "nsm" (p_nsm prop) in
          let! rho := attr "Rho" (p_Rho prop) in
          bar_masses m prop nsm rho eids)
  else if decide (p_type prop ∈ solid_props) then
    let* rho := lift (attr "Rho" (p_Rho prop)) in
    solid_loop m "skipping mass" (fun v => rho * v) prop eids
  else if decide (p_type prop ∈ properties_to_skip) then retM []
  else if decide (p_type prop = "PSHEAR") then
    lift (let! thickness := attr "t" (p_t prop) in
          let! nsm := attr "nsm" (p_nsm prop) in
          let! rho := attr "Rho" (p_Rho prop) in
          shell_masses m thickness nsm rho eids)
  else lift (Err (NotImplementedError prop)).

Definition mass_loop m (pid_eids : list (Z * list Z))
  : M (error num) (gmap Z num) :=
  for_loopM (fun pids_to_mass '(pid, eids) =>
    let* prop := lift (get_property m pid) in
    let* masses := property_masses m prop eids in
    retM (store_sum pid masses pids_to_mass)) pid_eids ∅.

Definition get_mass_breakdown m (property_ids : option (list Z))
    (stop_if_no_eids : bool)
  : res num (gmap Z num * gmap string num) * list (string * (string * string)) :=
  let '(r, s) :=
    (let* pid_eids := lift (element_ids_dict m property_ids (Some false)) in
     let* mass_type_to_mass := lift (mass_type_loop m) in
     let* pids_to_mass := mass_loop m pid_eids in
     if stop_if_no_eids && (size mass_type_to_mass =? 0)%nat
        && (size pids_to_mass =? 0)%nat
     then lift (Err NoMassFound)
     else retM (pids_to_mass, mass_type_to_mass)) no_skips in
  (r, log s).
End Breakdown.

(** ** [mass_properties] and [mass_properties_no_xref] *)

Module MassProps.

Section Objects.
Context {num : Type}.

Definition vec : Type := num * num * num.

(** [array([Ixx, Iyy, Izz, Ixy, Ixz, Iyz])] *)
Record Inertia : Type := {
  Ixx : num; Iyy : num; Izz : num; Ixy : num; Ixz : num; Iyz : num;
}.

Definition MassResult : Type := num * vec * Inertia.

(** The [reference_point] argument: an array, a string or a node id. *)
Inductive ReferencePoint : Type :=
| RefArray (p : vec)
| RefStr (s : string)
| RefInt (nid : Z).

(** Modelled from the spec: the class of the nodes, which is not in this
    file.  A node has a position in its defining coordinate system [n_cp]
    and, once the model is resolved, its precomputed position in the
    global frame. *)
Record Node : Type := {
  n_xyz : vec;
  n_cp : Z;
  n_resolved : option vec;
}.

(** Modelled from the spec: the class of the coordinate systems, which is
    not in this file.  A coordinate system defines the transform of a
    point from its local frame to the global frame. *)
Record CoordinateSystem : Type := {
  to_global : vec → vec;
}.

(** Modelled from the spec: the [Mass()] and [Centroid()] methods of the
    element classes, which are not in this file.  The mass and the
    centroid of an element are computed on demand from the current global
    positions of its nodes; a formula that is not defined for the element
    is [None]. *)
Record Element : Type := {
  e_nodes : list Z;
  e_mass_at : list vec → option num;
  e_centroid_at : list vec → option vec;
}.

(** Modelled from the spec: the class of the point masses, which is not
    in this file.  A point mass has an explicit mass, a position and
    optionally an inertia contribution. *)
Record PointMass : Type := {
  pm_mass : num;
  pm_position : vec;
  pm_inertia : option Inertia;
}.

Inductive error : Type :=
| KeyError (nid : Z)
| NotResolved
| UnknownId (id : Z)
| GeometryError
| ZeroMass
| BadReference
| BadSymAxis.

(** The part of a [BDF] object the mass properties read; [wtmass] is the
    weight-scaling parameter of the model. *)
Record BDF : Type := {
  nodes : gmap Z Node;
  coords : gmap Z CoordinateSystem;
  elements : list (Z * Element);
  masses : list (Z * PointMass);
  wtmass : option num;
}.
End Objects.
Arguments vec : clear implicits.
Arguments Inertia : clear implicits.
Arguments MassResult : clear implicits.
Arguments ReferencePoint : clear implicits.
Arguments Node : clear implicits.
Arguments CoordinateSystem : clear implicits.
Arguments Element : clear implicits.
Arguments PointMass : clear implicits.
Arguments BDF : clear implicits.

Abbreviation res := (result error).

Section EntryPoints.
Context {num : Type} `{Number num}.

(** Modelled from the spec: [node.get_position()], a method of the class
    of the nodes, which is not in this file.  It gives the position in
    the global frame of a node that has been resolved. *)
Definition get_position (node : Node num) : res (vec num) :=
  match n_resolved node with
  | Some p => Ok p
  | None => Err NotResolved
  end.

(** [self.nodes[nid]] *)
Definition get_node (self : BDF num) (nid : Z) : res (Node num) :=
  match nodes self !! nid with
  | Some node => Ok node
  | None => Err (KeyError nid)
  end.

(** The functions that the two entry points import from
    [pyNastran.bdf.mesh_utils.mass_properties], a module that is not in
    this file: whatever they do, the entry points call them as follows. *)
Variables
  (_mass_properties_elements_init :
     BDF num → option (list Z) → option (list Z) →
     res (list Z * list (Element num) * list Z * list (PointMass num)))
  (_mass_properties _mass_properties_no_xref :
     BDF num → list (Element num) → list (PointMass num) →
     ReferencePoint num → res (MassResult num))
  (_apply_mass_symmetry :
     BDF num → option string → option num →
     num → vec num → Inertia num → res (MassResult num)).

Definition mass_properties (self : BDF num)
    (element_ids mass_ids : option (list Z))
    (reference_point : option (ReferencePoint num))
    (sym_axis : option string) (scale : option num)
  : res (MassResult num) :=
  let! reference_point :=
    match reference_point with
    | None => Ok (RefArray (nzero, nzero, nzero))
    | Some (RefInt nid) =>
        let! node := get_node self nid in
        let! position := get_position node in
        Ok (RefArray position)
    | Some reference_point => Ok reference_point
    end in
  let! '(element_ids, elements, mass_ids, masses) :=
    _mass_properties_elements_init self element_ids mass_ids in
  let! '(mass, cg, inertia) :=
    _mass_properties self elements masses reference_point in
  let! '(mass, cg, inertia) :=
    _apply_mass_symmetry self sym_axis scale mass cg inertia in
  Ok (mass, cg, inertia).

Definition mass_properties_no_xref (self : BDF num)
    (element_ids mass_ids : option (list Z))
    (reference_point : option (ReferencePoint num))
    (sym_axis : option string) (scale : option num)
  : res (MassResult num) :=
  let! reference_point :=
    match reference_point with
    | None => Ok (RefArray (nzero, nzero, nzero))
    | Some (RefInt nid) =>
        let! node := get_node self nid in
        let! position := get_position node in
        Ok (RefArray position)
    | Some reference_point => Ok reference_point
    end in
  let! '(element_ids, elements, mass_ids, masses) :=
    _mass_properties_elements_init self element_ids mass_ids in
  let! '(mass, cg, inertia) :=
    _mass_properties_no_xref self elements masses reference_point in
  let! '(mass, cg, inertia) :=
    _apply_mass_symmetry self sym_axis scale mass cg inertia in
  Ok (mass, cg, inertia).
End EntryPoints.

(** *** The engine, from the specification

    The functions of [pyNastran.bdf.mesh_utils.mass_properties] are not in
    this file; they are modelled from the contract of the mass-properties
    engine in the specification. *)

Section Engine.
Context {num : Type} `{Number num}.
Local Open Scope num_scope.

Definition from_option {A} (e : error) (o : option A) : res A :=
  match o with
  | Some a => Ok a
  | None => Err e
  end.

(** Modelled from the spec: selection resolution.  The ids default to
    every object of the model when omitted; an unknown id is an error. *)
Definition select_by_id {A} (all : list (Z * A)) (ids : option (list Z))
  : res (list Z * list A) :=
  match ids with
  | None => Ok (all.*1, all.*2)
  | Some ids =>
      let! objects :=
        for_loop (λ objects id,
          let! object :=
            from_option (UnknownId id) ((list_to_map all : gmap Z A) !! id) in
          Ok (objects ++ [object])) ids [] in
      Ok (ids, objects)
  end.

(** Modelled from the spec: [_mass_properties_elements_init], which is
    not in this file. *)
Definition _mass_properties_elements_init (self : BDF num)
    (element_ids mass_ids : option (list Z))
  : res (list Z * list (Element num) * list Z * list (PointMass num)) :=
  let! '(element_ids, elements) := select_by_id (elements self) element_ids in
  let! '(mass_ids, masses) := select_by_id (masses self) mass_ids in
  Ok (element_ids, elements, mass_ids, masses).

(** Modelled from the spec: the global positions of the nodes of an
    element, for a given way to get the global position of one node. *)
Definition node_positions (position : Node num → res (vec num))
    (self : BDF num) (nids : list Z) : res (list (vec num)) :=
  for_loop (λ positions nid,
    let! node := get_node self nid in
    let! p := position node in
    Ok (positions ++ [p])) nids [].

(** Modelled from the spec: the contribution of an element is its mass
    and its centroid in the global frame. *)
Definition element_contribution (position : Node num → res (vec num))
    (self : BDF num) (elem : Element num) : res (num * vec num) :=
  let! positions := node_positions position self (e_nodes elem) in
  let! mass := from_option GeometryError (e_mass_at elem positions) in
  let! centroid := from_option GeometryError (e_centroid_at elem positions) in
  Ok (mass, centroid).

(** Modelled from the spec: the running sums, that is the total mass, first moments, raw second moments
    about the global origin, and the inertia the point masses supply. *)
Record Sums : Type := {
  s_m : num;
  s_x : num; s_y : num; s_z : num;
  s_xx : num; s_yy : num; s_zz : num;
  s_xy : num; s_xz : num; s_yz : num;
  s_own : Inertia num;
}.

Definition zero_inertia : Inertia num :=
  {| Ixx := nzero; Iyy := nzero; Izz := nzero;
     Ixy := nzero; Ixz := nzero; Iyz := nzero |}.

Definition add_inertia (a b : Inertia num) : Inertia num :=
  {| Ixx := Ixx a + Ixx b; Iyy := Iyy a + Iyy b; Izz := Izz a + Izz b;
     Ixy := Ixy a + Ixy b; Ixz := Ixz a + Ixz b; Iyz := Iyz a + Iyz b |}.

Definition zero_sums : Sums :=
  {| s_m := nzero; s_x := nzero; s_y := nzero; s_z := nzero;
     s_xx := nzero; s_yy := nzero; s_zz := nzero;
     s_xy := nzero; s_xz := nzero; s_yz := nzero;
     s_own := zero_inertia |}.

(** Modelled from the spec: a mass [m] at [c] is added to the sums. *)
Definition add_contribution (s : Sums) (m : num) (c : vec num) : Sums :=
  let '(x, y, z) := c in
  {| s_m := s_m s + m;
     s_x := s_x s + m * x; s_y := s_y s + m * y; s_z := s_z s + m * z;
     s_xx := s_xx s + m * x * x; s_yy := s_yy s + m * y * y;
     s_zz := s_zz s + m * z * z;
     s_xy := s_xy s + m * x * y; s_xz := s_xz s + m * x * z;
     s_yz := s_yz s + m * y * z;
     s_own := s_own s |}.

(** Modelled from the spec: the inertia that a point mass supplies. *)
Definition add_own (s : Sums) (own : option (Inertia num)) : Sums :=
  match own with
  | None => s
  | Some i =>
      {| s_m := s_m s; s_x := s_x s; s_y := s_y s; s_z := s_z s;
         s_xx := s_xx s; s_yy := s_yy s; s_zz := s_zz s;
         s_xy := s_xy s; s_xz := s_xz s; s_yz := s_yz s;
         s_own := add_inertia (s_own s) i |}
  end.

(** Modelled from the spec: accumulation over the elements, then over
    the point masses, about the global origin. *)
Definition accumulate (position : Node num → res (vec num))
    (self : BDF num) (elements : list (Element num))
    (masses : list (PointMass num)) : res Sums :=
  let! s :=
    for_loop (λ s elem,
      let! '(m, c) := element_contribution position self elem in
      Ok (add_contribution s m c)) elements zero_sums in
  for_loop (λ s pm,
    Ok (add_own (add_contribution s (pm_mass pm) (pm_position pm))
          (pm_inertia pm))) masses s.

(** Modelled from the spec: the inertia [m * r * r] of a mass [m] at
    offset [r], with [Ixx = m (dy^2 + dz^2)] and [Iyz = -m dy dz]. *)
Definition point_inertia (m : num) (r : vec num) : Inertia num :=
  let '(x, y, z) := r in
  {| Ixx := m * (y * y + z * z); Iyy := m * (x * x + z * z);
     Izz := m * (x * x + y * y);
     Ixy := nzero - m * x * y; Ixz := nzero - m * x * z;
     Iyz := nzero - m * y * z |}.

Definition sub_inertia (a b : Inertia num) : Inertia num :=
  {| Ixx := Ixx a - Ixx b; Iyy := Iyy a - Iyy b; Izz := Izz a - Izz b;
     Ixy := Ixy a - Ixy b; Ixz := Ixz a - Ixz b; Iyz := Iyz a - Iyz b |}.

(** Modelled from the spec: finalization.  An empty selection gives
    zeros; a zero total mass is a division by zero; the tensor about the
    origin is shifted to the reference point by the parallel-axis
    theorem with [cg - p0]; the reference ['cg'] is the computed centre
    of gravity. *)
Definition finalize (s : Sums) (empty : bool)
    (reference_point : ReferencePoint num) : res (MassResult num) :=
  if empty then Ok (nzero, (nzero, nzero, nzero), zero_inertia)
  else if nis_zero (s_m s) then Err ZeroMass
  else
    let cg := (s_x s / s_m s, s_y s / s_m s, s_z s / s_m s) in
    let! p0 :=
      match reference_point with
      | RefArray p => Ok p
      | RefStr tag => if decide (tag = "cg") then Ok cg else Err BadReference
      | RefInt _ => Err BadReference
      end in
    let origin :=
      add_inertia
        {| Ixx := s_yy s + s_zz s; Iyy := s_xx s + s_zz s;
           Izz := s_xx s + s_yy s;
           Ixy := nzero - s_xy s; Ixz := nzero - s_xz s;
           Iyz := nzero - s_yz s |}
        (s_own s) in
    let '(cx, cy, cz) := cg in
    let '(px, py, pz) := p0 in
    let d := (cx - px, cy - py, cz - pz) in
    Ok (s_m s, cg,
        add_inertia (sub_inertia origin (point_inertia (s_m s) cg))
          (point_inertia (s_m s) d)).

(** Modelled from the spec: the accumulation and the finalization, for
    a given way to get the global position of a node. *)
Definition engine (position : Node num → res (vec num)) (self : BDF num)
    (elements : list (Element num)) (masses : list (PointMass num))
    (reference_point : ReferencePoint num) : res (MassResult num) :=
  let! s := accumulate position self elements masses in
  finalize s
    (match elements, masses with [], [] => true | _, _ => false end)
    reference_point.

(** Modelled from the spec: [_mass_properties], the variant that
    requires the positions to have been resolved already. *)
Definition _mass_properties (self : BDF num) :=
  engine get_position self.

Inductive Axis : Type := AxisX | AxisY | AxisZ.

(** Modelled from the spec: the symmetry specifier, one of none, x, y, z,
    xy, yz, xz and xyz. *)
Definition sym_axes (sym_axis : option string) : res (list Axis) :=
  match sym_axis with
  | None => Ok []
  | Some s =>
      if decide (s = "no") then Ok []
      else if decide (s = "x") then Ok [AxisX]
      else if decide (s = "y") then Ok [AxisY]
      else if decide (s = "z") then Ok [AxisZ]
      else if decide (s = "xy") then Ok [AxisX; AxisY]
      else if decide (s = "yz") then Ok [AxisY; AxisZ]
      else if decide (s = "xz") then Ok [AxisX; AxisZ]
      else if decide (s = "xyz") then Ok [AxisX; AxisY; AxisZ]
      else Err BadSymAxis
  end.

Definition double (a : num) : num := a + a.

(** Modelled from the spec: one symmetry axis.  The mass and the diagonal terms double, the
    coordinate of the centre of gravity on the axis is zero, the cross
    terms that involve the axis vanish. *)
Definition mirror (r : MassResult num) (axis : Axis) : MassResult num :=
  let '(mass, (cx, cy, cz), i) := r in
  let diag ixy ixz iyz :=
    {| Ixx := double (Ixx i); Iyy := double (Iyy i); Izz := double (Izz i);
       Ixy := ixy; Ixz := ixz; Iyz := iyz |} in
  match axis with
  | AxisX => (double mass, (nzero, cy, cz), diag nzero nzero (Iyz i))
  | AxisY => (double mass, (cx, nzero, cz), diag nzero (Ixz i) nzero)
  | AxisZ => (double mass, (cx, cy, nzero), diag (Ixy i) nzero nzero)
  end.

(** Modelled from the spec: [_apply_mass_symmetry], which is not in this
    file: the axes one after the other, then the scale, which defaults
    to the weight-scaling parameter of the model, else to one. *)
Definition _apply_mass_symmetry (self : BDF num) (sym_axis : option string)
    (scale : option num) (mass : num) (cg : vec num) (inertia : Inertia num)
  : res (MassResult num) :=
  let! axes := sym_axes sym_axis in
  let '(mass, cg, i) := fold_left mirror axes (mass, cg, inertia) in
  let k :=
    match scale with
    | Some k => k
    | None => match wtmass self with Some k => k | None => nunit end
    end in
  Ok (mass * k, cg,
      {| Ixx := Ixx i * k; Iyy := Iyy i * k; Izz := Izz i * k;
         Ixy := Ixy i * k; Ixz := Ixz i * k; Iyz := Iyz i * k |}).

End Engine.

End MassProps.

(** ** Vocabulary of the statements *)

Section Vocabulary.
Context {num : Type} `{Number num}.
Local Open Scope num_scope.

(** Element [eid] is in the model and its method returns [v]. *)
Definition element_has (m : Model num) (method : Element num → option num)
    (eid : Z) (v : num) : Prop :=
  ∃ elem, elements m !! eid = Some elem ∧ method elem = Some v.

(** [self.elements[eid].method()] *)
Definition elem_call (m : Model num) (name : string)
    (method : Element num → option num) (eid : Z) : res num num :=
  let! elem := get_element m eid in attr name (method elem).

(** What a breakdown holds for a property whose summands are [xs]. *)
Definition reported (xs : list num) : option num :=
  match xs with
  | [] => None
  | _ :: _ => Some (sum xs)
  end.

(** The body shared by the three loops over [pid_eids], for a given
    computation [f] of the summands of one property. *)
Definition breakdown_body (m : Model num)
    (f : Property num → list Z → M (error num) (list num))
    (d : gmap Z num) (item : Z * list Z) : M (error num) (gmap Z num) :=
  let '(pid, eids) := item in
  let* prop := lift (get_property m pid) in
  let* xs := f prop eids in
  retM (store_sum pid xs d).
End Vocabulary.

(** Every type tag that some branch of the three breakdowns names. *)
Definition classified_props : list string :=
  shell_props ++ line_props ++ solid_props ++ skip_props ++ no_volume
  ++ properties_to_skip.

(** ** Statements of the specification that fail as they stand *)

Section StatedClaims.
Context (num : Type) `{Number num}.
Local Open Scope num_scope.

(** The thickness the shell-like formula of the specification uses:
    the ply-stack thickness for a composite, [t] otherwise. *)
Definition formula_thickness (prop : Property num) : option num :=
  if decide (p_type prop ∈ comp_props) then p_Thickness prop else p_t prop.

(** The shell-like mass formula for every shell-like property:
    [PSHELL], [PCOMP], [PCOMPG] and [PSHEAR] alike. *)
Definition shell_like_mass_formula : Prop :=
  ∀ (m : Model num) property_ids stop_if_no_eids pid_eids pid eids prop
    thickness nsm rho areas pm mt lg,
    get_element_ids_dict_with_pids m property_ids (Some false)
      = Some pid_eids →
    NoDup pid_eids.*1 → (pid, eids) ∈ pid_eids →
    properties m !! pid = Some prop →
    p_type prop ∈ shell_props →
    formula_thickness prop = Some thickness →
    p_nsm prop = Some nsm → p_Rho prop = Some rho →
    Forall2 (element_has m e_Area) eids areas →
    get_mass_breakdown m property_ids stop_if_no_eids = (Ok (pm, mt), lg) →
    pm !! pid = reported (map (λ area, area * (rho * thickness + nsm)) areas).

(** The volume of a line property is the area of the property times the
    sum of the lengths of its elements. *)
Definition line_volume_is_area_times_total_length : Prop :=
  ∀ (m : Model num) property_ids pid_eids pid eids prop area lengths pv lg,
    get_element_ids_dict_with_pids m property_ids None = Some pid_eids →
    NoDup pid_eids.*1 → (pid, eids) ∈ pid_eids →
    properties m !! pid = Some prop →
    p_type prop ∈ line_props →
    p_Area prop = Some area →
    Forall2 (element_has m e_Length) eids lengths →
    get_volume_breakdown m property_ids = (Ok pv, lg) →
    pv !! pid = match eids with
                | [] => None
                | _ :: _ => Some (area * sum lengths)
                end.

(** With [sum_bar_area=False] a line property reports the area of its
    last element, and that is not the sum of the areas as soon as there
    are several elements with distinct areas. *)
Definition last_bar_area_is_not_the_sum : Prop :=
  ∀ (m : Model num) property_ids pid_eids pid eids prop areas pa,
    get_element_ids_dict_with_pids m property_ids None = Some pid_eids →
    NoDup pid_eids.*1 → (pid, eids) ∈ pid_eids →
    properties m !! pid = Some prop →
    p_type prop ∈ line_props →
    Forall2 (element_has m e_Area) eids areas →
    get_area_breakdown m property_ids false = Ok pa →
    pa !! pid = last areas ∧
    (1 < length areas → NoDup areas → pa !! pid ≠ Some (sum areas)).
End StatedClaims.

Section MoreVocabulary.
Context {num : Type} `{Number num}.

(** An item of the selection whose property is in the model and yields
    no summand for [get_mass_breakdown]. *)
Definition contributes_no_mass (m : Model num) (item : Z * list Z) : Prop :=
  ∃ prop, properties m !! item.1 = Some prop ∧
          ∀ s, (property_masses m prop item.2 s).1 = Ok [].
End MoreVocabulary.

Section SkippedElements.
Context {num : Type} `{Number num}.

(** The elements a solid property does not skip: those of a supported
    type, and the ids that are not in the model (their lookup raises). *)
Definition supported_or_missing (m : Model num) (eid : Z) : bool :=
  match elements m !! eid with
  | Some elem => bool_decide (e_type elem ∈ solid_elems)
  | None => true
  end.

(** An item of the selection, less the elements its property skips. *)
Definition without_skipped (m : Model num) (item : Z * list Z)
  : Z * list Z :=
  let '(pid, eids) := item in
  match properties m !! pid with
  | Some prop =>
      if decide (p_type prop ∈ solid_props)
      then (pid, List.filter (supported_or_missing m) eids)
      else (pid, eids)
  | None => (pid, eids)
  end.

(** The same model with another [get_element_ids_dict_with_pids]. *)
Definition select (m : Model num)
    (sel : option (list Z) → option bool → option (list (Z * list Z)))
  : Model num :=
  {| properties := properties m; elements := elements m;
     masses := masses m; get_element_ids_dict_with_pids := sel |}.

Definition selection_without_skipped (m : Model num) : Model num :=
  select m (λ property_ids stop_if_no_eids,
    map (without_skipped m)
      <$> get_element_ids_dict_with_pids m property_ids stop_if_no_eids).

(** No key is logged twice, and every logged key is in the set. *)
Definition log_inv (s : SkipState) : Prop :=
  NoDup (log s).*2 ∧ ∀ key, key ∈ (log s).*2 → key ∈ skipped_eid_pid s.

Definition preserves_log {E A} (c : M E A) : Prop :=
  ∀ s, log_inv s → log_inv (c s).2.
End SkippedElements.

(** ** A concrete model for the breakdowns *)

Module Examples.
Local Open Scope Z_scope.

Definition property (type : string) (t nsm rho area thickness : option Z)
  : Property Z :=
  {| p_type := type; p_t := t; p_nsm := nsm; p_Rho := rho;
     p_Area := area; p_Thickness := thickness |}.

Definition element (type : string) (area length volume mass : option Z)
  : Element Z :=
  {| e_type := type; e_Area := area; e_Length := length;
     e_Volume := volume; e_Mass := mass |}.

(** 1: a shell, thickness 2, density 3, non-structural mass 1. *)
Definition pshell : Property Z :=
  property "PSHELL" (Some 2) (Some 1) (Some 3) None (Some 2).
(** 2: a two-ply composite: plies of thickness 1 and densities 1 and 3, so
    a mass per area of 4; [Rho()] is the density of the first ply. *)
Definition pcomp : Property Z :=
  property "PCOMP" None (Some 0) (Some 1) None (Some 2).
(** 3: a bar of area 3, density 2, non-structural mass 1. *)
Definition pbar : Property Z :=
  property "PBAR" None (Some 1) (Some 2) (Some 3) None.
(** 4: a property type that no table names. *)
Definition pbeam3 : Property Z :=
  property "PBEAM3" None (Some 0) (Some 1) (Some 1) None.
(** 5: a solid of density 2. *)
Definition psolid : Property Z :=
  property "PSOLID" None None (Some 2) None None.
(** 6: a spring. *)
Definition pelas : Property Z :=
  property "PELAS" None None None None None.
(** 7: a tapered beam, whose elements have their own areas. *)
Definition pbeam : Property Z :=
  property "PBEAM" None (Some 0) (Some 1) (Some 5) None.

Definition cquad4 (area mass : Z) : Element Z :=
  element "CQUAD4" (Some area) None None (Some mass).
Definition cbar (area length : Z) : Element Z :=
  element "CBAR" (Some area) (Some length) None (Some 0).
Definition cbeam (area length : Z) : Element Z :=
  element "CBEAM" (Some area) (Some length) None (Some 0).
Definition solid (type : string) (volume : Z) : Element Z :=
  element type None None (Some volume) (Some (2 * volume)).
Definition celas : Element Z := element "CELAS1" None None None (Some 0).

Definition all_items : list (Z * list Z) :=
  [(1, [10; 11]); (2, [20]); (3, [30; 31]); (4, [40]);
   (5, [50; 51; 52; 53]); (6, [60]); (7, [70; 71])].

(** The items of the requested properties, all of them by default. *)
Definition items_of (property_ids : option (list Z))
    (stop_if_no_eids : option bool) : option (list (Z * list Z)) :=
  match property_ids with
  | None => Some all_items
  | Some pids =>
      Some (List.filter (λ item : Z * list Z, bool_decide (item.1 ∈ pids))
              all_items)
  end.

Definition demo : Model Z :=
  {| properties :=
       {[ 1 := pshell; 2 := pcomp; 3 := pbar; 4 := pbeam3; 5 := psolid;
          6 := pelas; 7 := pbeam ]};
     elements :=
       {[ 10 := cquad4 5 35; 11 := cquad4 6 42;
          20 := cquad4 2 8;
          30 := cbar 3 4; 31 := cbar 3 5;
          40 := cbeam 1 1;
          50 := solid "CTETRA" 6; 51 := solid "CPYRAM" 7;
          52 := solid "CPYRAM" 8; 53 := solid "CHEXA" 9;
          60 := celas;
          70 := cbeam 0 2; 71 := cbeam 5 2 ]};
     masses := [];
     get_element_ids_dict_with_pids := items_of |}.

(** The same model with two point masses, one of them without mass. *)
Definition demo_with_masses : Model Z :=
  {| properties := properties demo; elements := elements demo;
     masses := [(100, {| ms_type := "CONM2"; ms_Mass := Some 0 |});
                (101, {| ms_type := "CONM2"; ms_Mass := Some 4 |})];
     get_element_ids_dict_with_pids := items_of |}.
End Examples.

(** ** Concrete models for the mass properties *)

Module MassPropsExamples.
Import MassProps.
Local Open Scope Z_scope.

(** A coordinate system that is the global frame moved by [(10, 0, 0)]. *)
Definition shifted_cs : CoordinateSystem Z :=
  {| to_global := λ '(x, y, z), (x + 10, y, z) |}.

(** A two-node rod-like element: constant mass, centroid at its first
    node. *)
Definition rod (n1 n2 : Z) (mass : Z) : Element Z :=
  {| e_nodes := [n1; n2];
     e_mass_at := λ _, Some mass;
     e_centroid_at := λ positions, head positions |}.

Definition point_mass (mass : Z) (p : vec Z) : PointMass Z :=
  {| pm_mass := mass; pm_position := p; pm_inertia := None |}.

(** Two nodes in a shifted frame, resolved, with a rod between them and
    a point mass. *)
Definition resolved_model : BDF Z :=
  {| nodes := {[ 1 := {| n_xyz := (1, 2, 3); n_cp := 5;
                         n_resolved := Some (11, 2, 3) |};
                 2 := {| n_xyz := (4, 2, 3); n_cp := 5;
                         n_resolved := Some (14, 2, 3) |} ]};
     coords := {[ 5 := shifted_cs ]};
     elements := [(10, rod 1 2 2)];
     masses := [(20, point_mass 2 (1, 2, 3))];
     wtmass := None |}.
End MassPropsExamples.

(** ** Further selections of the concrete model *)

Module MoreExamples.
Import Examples.
Local Open Scope Z_scope.

(** The model [demo] with a selection of its own. *)
Definition with_selection (items : list (Z * list Z)) : Model Z :=
  {| properties := properties demo; elements := elements demo;
     masses := masses demo;
     get_element_ids_dict_with_pids := λ _ _, Some items |}.

(** A shell and a bar with a single element. *)
Definition one_bar : Model Z := with_selection [(1, [10; 11]); (3, [30])].

(** A selection with the id of a property that the model lacks. *)
Definition stale : Model Z := with_selection [(1, [10; 11]); (9, [90])].

End MoreExamples.

(** ** Vocabulary of further statements *)

Section PointMasses.
Context {num : Type} `{Number num}.

(** The [Mass()] of the point masses of type [ty], in iteration order. *)
Definition masses_of_type (m : Model num) (ty : string) : list num :=
  omap (λ item : Z * MassElement num,
          if decide (ms_type item.2 = ty) then ms_Mass item.2 else None)
    (masses m).

(** [x1 + x2 + ... + xn] added from the left, as [d[k] = x1] followed by
    [d[k] += xi] computes it; nothing for no summand. *)
Definition added (xs : list num) : option num :=
  match xs with
  | [] => None
  | x :: xs => Some (fold_left nadd xs x)
  end.
End PointMasses.

Section SkipLog.
Context {num : Type} `{Number num}.

(** The body of the loop of [solid_loop]. *)
Definition solid_body (m : Model num) (msg : string)
    (contribution : num → num) (prop : Property num)
    (xs : list num) (eid : Z) : M (error num) (list num) :=
  let* elem := lift (get_element m eid) in
  if decide (e_type elem ∈ solid_elems) then
    let* v := lift (attr "Volume" (e_Volume elem)) in
    retM (xs ++ [contribution v])
  else
    let* _ := note_skipped msg (e_type elem, p_type prop) in
    retM xs.

(** A computation keeps a property of the set and the log. *)
Definition preserves_inv {E A} (I : SkipState → Prop) (c : M E A) : Prop :=
  ∀ s, I s → I (c s).2.

(** Every key of the set has been logged with [msg]. *)
Definition skipped_logged (msg : string) (s : SkipState) : Prop :=
  ∀ key, key ∈ skipped_eid_pid s → (msg, key) ∈ log s.

(** A log line for an element that a solid property of the selection
    skips: the message, and the types of the element and of the
    property. *)
Definition skipped_line (m : Model num) (pid_eids : list (Z * list Z))
    (msg : string) (line : string * (string * string)) : Prop :=
  ∃ pid eids prop eid elem,
    (pid, eids) ∈ pid_eids ∧ properties m !! pid = Some prop ∧
    p_type prop ∈ solid_props ∧
    eid ∈ eids ∧ elements m !! eid = Some elem ∧
    (e_type elem ∉ solid_elems) ∧
    line = (msg, (e_type elem, p_type prop)).
End SkipLog.

(** ** [get_element_faces] *)

Module Faces.

(** A face: the ids of its nodes, [None] for a blank one. *)
Abbreviation face := (list (option Z)).

(** An element: its [type] tag and its [faces] attribute, a dict from the
    face id to the face, kept in iteration order. *)
Record Element : Type := {
  e_type : string;
  e_faces : option (list (Z * face));
}.

Inductive error : Type :=
| KeyError (eid : Z)
| AttributeError (name : string)
| RuntimeError (face_id : Z) (f : face) (elem : Element).

(** The part of a [BDF] object that [get_element_faces] reads;
    [element_ids] is a property of the class that is defined outside this
    file. *)
Record BDF : Type := {
  elements : gmap Z Element;
  element_ids : list Z;
}.

(** The element types with faces. *)
Definition skinned_elems : list string :=
  ["CTETRA"; "CPENTA"; "CHEXA"; "CPYRAM"].

Definition get_element (self : BDF) (eid : Z) : result error Element :=
  match elements self !! eid with
  | Some elem => Ok elem
  | None => Err (KeyError eid)
  end.

Definition get_faces (elem : Element) : result error (list (Z * face)) :=
  match e_faces elem with
  | Some faces => Ok faces
  | None => Err (AttributeError "faces")
  end.

Definition get_element_faces (self : BDF) (element_ids : option (list Z))
    (allow_blank_nids : bool) : result error (list (Z * face)) :=
  let element_ids :=
    match element_ids with
    | None => Faces.element_ids self
    | Some element_ids => element_ids
    end in
  if allow_blank_nids then
    for_loop (λ eid_faces eid,
      let! elem := get_element self eid in
      if decide (e_type elem ∈ skinned_elems) then
        let! faces := get_faces elem in
        for_loop (λ eid_faces '(face_id, f),
          Ok (eid_faces ++ [(eid, f)])) faces eid_faces
      else Ok eid_faces) element_ids []
  else
    for_loop (λ eid_faces eid,
      let! elem := get_element self eid in
      if decide (e_type elem ∈ skinned_elems) then
        let! faces := get_faces elem in
        for_loop (λ eid_faces '(face_id, f),
          if decide (None ∈ f) then Err (RuntimeError face_id f elem)
          else Ok (eid_faces ++ [(eid, f)])) faces eid_faces
      else Ok eid_faces) element_ids [].

(** The bodies of the two loops over [element_ids]. *)
Definition lax_body (self : BDF) (eid_faces : list (Z * face)) (eid : Z)
  : result error (list (Z * face)) :=
  let! elem := get_element self eid in
  if decide (e_type elem ∈ skinned_elems) then
    let! faces := get_faces elem in
    for_loop (λ eid_faces '(face_id, f),
      Ok (eid_faces ++ [(eid, f)])) faces eid_faces
  else Ok eid_faces.

Definition strict_body (self : BDF) (eid_faces : list (Z * face)) (eid : Z)
  : result error (list (Z * face)) :=
  let! elem := get_element self eid in
  if decide (e_type elem ∈ skinned_elems) then
    let! faces := get_faces elem in
    for_loop (λ eid_faces '(face_id, f),
      if decide (None ∈ f) then Err (RuntimeError face_id f elem)
      else Ok (eid_faces ++ [(eid, f)])) faces eid_faces
  else Ok eid_faces.

(** No node id of the face is blank. *)
Definition no_blank (item : Z * face) : Prop := None ∉ item.2.

(** The faces that element [eid] adds to the list. *)
Definition element_faces (self : BDF) (eid : Z) (fs : list (Z * face))
  : Prop :=
  ∃ elem, elements self !! eid = Some elem ∧
    if decide (e_type elem ∈ skinned_elems) then
      ∃ faces, e_faces elem = Some faces ∧ fs = (λ item, (eid, item.2)) <$> faces
    else fs = [].

(** A model with a tetrahedron, a pyramid with a blank node id on one
    face, and a shell. *)
Definition skin_model : BDF :=
  {| elements :=
       {[ 1%Z := {| e_type := "CTETRA";
                    e_faces := Some [(1%Z, [Some 1%Z; Some 2%Z; Some 3%Z]);
                                     (2%Z, [Some 1%Z; Some 2%Z; Some 4%Z])] |};
          2%Z := {| e_type := "CPYRAM";
                    e_faces := Some [(1%Z, [Some 5%Z; None; Some 7%Z])] |};
          3%Z := {| e_type := "CQUAD4"; e_faces := None |} ]};
     element_ids := [1%Z; 2%Z; 3%Z] |}.

End Faces.

(** ** [update_model_by_desvars]: the values of the design variables *)

Module Desvars.

(** The comparison [a < b] of the numbers, which the builtins [min] and
    [max] use. *)
Class Less (num : Type) : Type := nlt : num → num → bool.

#[export] Instance Z_Less : Less Z := Z.ltb.

(** The comparison [a <= b], in which the bounds are stated. *)
Class LessEq (num : Type) : Type := nle : num → num → bool.

#[export] Instance Z_LessEq : LessEq Z := Z.leb.

Section Values.
Context {num : Type} `{Number num} `{Less num} `{LessEq num}.
Local Open Scope num_scope.

(** [max(a, b)]: the first argument, unless the second is greater. *)
Definition py_max (a b : num) : num := if nlt a b then b else a.

(** [min(a, b)]: the first argument, unless the second is less. *)
Definition py_min (a b : num) : num := if nlt b a then b else a.

(** A design variable and a link, with the attributes that are read. *)
Record Desvar : Type := {
  value : num;
  xlb : num;
  xub : num;
}.

Record Dlink : Type := {
  c0 : num;
  coeffs : list num;
  IDv : list Z;
}.

Inductive error : Type :=
| KeyError (key : Z).

(** The dicts [self.desvars] and [self.dlinks], in iteration order. *)
Record BDF : Type := {
  desvars : list (Z * Desvar);
  dlinks : list (Z * Dlink);
}.

(** [self.desvars[key]] *)
Definition get_desvar (self : BDF) (key : Z) : result error Desvar :=
  match (list_to_map (desvars self) : gmap Z Desvar) !! key with
  | Some desvar => Ok desvar
  | None => Err (KeyError key)
  end.

(** [d[key]] *)
Definition get_value (d : gmap Z num) (key : Z) : result error num :=
  match d !! key with
  | Some v => Ok v
  | None => Err (KeyError key)
  end.

(** The first part of [update_model_by_desvars], up to [desvar_delta]:
    the current values of the design variables, the linked ones computed
    from their links, and the difference of each to its nominal value.
    The rest of the function hands both dicts to methods that are defined
    outside this file.  [tenth] is the literal [0.1]. *)
Definition desvar_values_and_delta (tenth : num) (self : BDF)
    (desvar_values : option (gmap Z num))
  : result error (gmap Z num * gmap Z num) :=
  let desvar_init : gmap Z num :=
    list_to_map ((λ item, (item.1, value item.2)) <$> desvars self) in
  let desvar_values : gmap Z num :=
    match desvar_values with
    | None =>
        list_to_map
          ((λ item, (item.1,
                     py_min (py_max (value item.2 + tenth) (xlb item.2))
                       (xub item.2))) <$> desvars self)
    | Some desvar_values => desvar_values
    end in
  let! desvar_values :=
    for_loop (λ desvar_values '(desvar_id, dlink),
      let value := c0 dlink in
      let! desvar := get_desvar self desvar_id in
      let! value :=
        for_loop (λ value '(coeff, desvar_idi),
          let! valuei := get_value desvar_values desvar_idi in
          Ok (value + coeff * valuei))
          (zip (coeffs dlink) (IDv dlink)) value in
      let value2 := py_min (py_max value (xlb desvar)) (xub desvar) in
      Ok (<[desvar_id := value2]> desvar_values))
      (dlinks self) desvar_values in
  let! desvar_delta :=
    for_loop (λ desvar_delta '(key, _),
      let! init := get_value desvar_init key in
      let! current := get_value desvar_values key in
      Ok (<[key := init - current]> desvar_delta))
      (desvars self) ∅ in
  Ok (desvar_values, desvar_delta).

(** The dict of the nominal values, the default of [desvar_values], and
    the bodies of the two loops. *)
Definition nominal_values (self : BDF) : gmap Z num :=
  list_to_map ((λ item, (item.1, value item.2)) <$> desvars self).

Definition default_values (tenth : num) (self : BDF) : gmap Z num :=
  list_to_map
    ((λ item, (item.1,
               py_min (py_max (value item.2 + tenth) (xlb item.2))
                 (xub item.2))) <$> desvars self).

Definition dlink_body (self : BDF) (desvar_values : gmap Z num)
    (item : Z * Dlink) : result error (gmap Z num) :=
  let '(desvar_id, dlink) := item in
  let value := c0 dlink in
  let! desvar := get_desvar self desvar_id in
  let! value :=
    for_loop (λ value '(coeff, desvar_idi),
      let! valuei := get_value desvar_values desvar_idi in
      Ok (value + coeff * valuei))
      (zip (coeffs dlink) (IDv dlink)) value in
  let value2 := py_min (py_max value (xlb desvar)) (xub desvar) in
  Ok (<[desvar_id := value2]> desvar_values).

Definition delta_body (desvar_init desvar_values : gmap Z num)
    (desvar_delta : gmap Z num) (item : Z * Desvar)
  : result error (gmap Z num) :=
  let '(key, _) := item in
  let! init := get_value desvar_init key in
  let! current := get_value desvar_values key in
  Ok (<[key := init - current]> desvar_delta).

(** What [min(max(value, xlb), xub)] ensures whatever the numbers are:
    the value is not less than the lower bound and not greater than the
    upper one.  A NaN is neither, though it is not between the bounds. *)
Definition not_outside (desvar : Desvar) (v : num) : Prop :=
  nlt v (xlb desvar) = false ∧ nlt (xub desvar) v = false.

(** A value within the bounds of a design variable:
    [xlb <= v <= xub]. *)
Definition within_bounds (desvar : Desvar) (v : num) : Prop :=
  nle (xlb desvar) v = true ∧ nle v (xub desvar) = true.

(** [a] and [b] are comparable: [a < b] or [b <= a].  Two floats are,
    unless one of them is a NaN. *)
Definition comparable (a b : num) : Prop :=
  nlt a b = true ∨ nle b a = true.

(** A value as [min(max(value, xlb), xub)] leaves it: never outside
    the bounds, and within them, [xlb <= v <= xub], when it is
    comparable with both. *)
Definition clamped (desvar : Desvar) (v : num) : Prop :=
  not_outside desvar v ∧
  (comparable v (xlb desvar) → comparable (xub desvar) v →
   within_bounds desvar v).
End Values.
Arguments Desvar : clear implicits.
Arguments Dlink : clear implicits.
Arguments BDF : clear implicits.

(** The rationals, to run the definitions with the literal [0.1]. *)
#[export] Instance Q_Number : Number Q := {|
  nzero := 0%Q;
  nunit := 1%Q;
  nadd := Qplus;
  nsub := Qminus;
  nmul := Qmult;
  ndiv := Qdiv;
  nis_zero := Qeq_bool 0%Q;
|}.

#[export] Instance Q_Less : Less Q := λ a b, negb (Qle_bool b a).

#[export] Instance Q_LessEq : LessEq Q := Qle_bool.

(** Two design variables, the second linked to the first:
    [x2 = 1 + 3 * x1], within [0, 10]. *)
Definition linked_model : BDF Q :=
  {| desvars := [(1%Z, {| value := 2%Q; xlb := 0%Q; xub := 5%Q |});
                 (2%Z, {| value := 4%Q; xlb := 0%Q; xub := 10%Q |})];
     dlinks := [(2%Z, {| c0 := 1%Q; coeffs := [3%Q]; IDv := [1%Z] |})] |}.

(** A link under an id that is not a design variable. *)
Definition dangling_model : BDF Q :=
  {| desvars := [(1%Z, {| value := 2%Q; xlb := 0%Q; xub := 5%Q |})];
     dlinks := [(7%Z, {| c0 := 1%Q; coeffs := [3%Q]; IDv := [1%Z] |})] |}.

End Desvars.

(** ** Binary64 floats, the numbers of the Python code *)

Module Floats.
Import PrimFloat.
Local Open Scope Z_scope.

#[global] Instance float_Number : Number float := {|
  nzero := 0%float;
  nunit := 1%float;
  nadd := add;
  nsub := sub;
  nmul := mul;
  ndiv := div;
  nis_zero := eqb 0%float;
|}.

#[global] Instance float_Less : Desvars.Less float := ltb.

#[global] Instance float_LessEq : Desvars.LessEq float := leb.

(** The literals [0.1], [0.3] and [1e-17]: a division of two floats that
    are exact is rounded to the nearest float, as the literal is. *)
Definition tenth : float := (1 / 10)%float.
Definition three_tenths : float := (3 / 10)%float.
Definition tiny : float := (1 / 1e17)%float.

Definition line_property (type : string) (area : float) : Property float :=
  {| p_type := type; p_t := None; p_nsm := Some 0%float;
     p_Rho := Some 1%float; p_Area := Some area; p_Thickness := None |}.

Definition line_element (type : string) (area length : float)
  : Element float :=
  {| e_type := type; e_Area := Some area; e_Length := Some length;
     e_Volume := None; e_Mass := Some 0%float |}.

(** A bar of area [0.1] with two elements, of lengths [0.1] and [0.3]. *)
Definition pbar_tenth : Property float := line_property "PBAR" tenth.

Definition two_bars : Model float :=
  {| properties := {[ 1 := pbar_tenth ]};
     elements := {[ 10 := line_element "CBAR" tenth tenth;
                    11 := line_element "CBAR" tenth three_tenths ]};
     masses := [];
     get_element_ids_dict_with_pids := λ _ _, Some [(1, [10; 11])] |}.

(** What [get_volume_breakdown] reports for the bar,
    [sum([0.1 * 0.1, 0.1 * 0.3])], and the area times the sum of the
    lengths, [0.1 * sum([0.1, 0.3])]: they differ in the last bit. *)
Definition sum_of_volumes : float :=
  (0 + tenth * tenth + tenth * three_tenths)%float.
Definition area_times_length : float :=
  (tenth * (0 + tenth + three_tenths))%float.

(** A tapered beam with two elements, of areas [1e-17] and [1.0], both
    positive: their sum is [1.0]. *)
Definition pbeam_unit : Property float := line_property "PBEAM" 1%float.

Definition thin_and_thick : Model float :=
  {| properties := {[ 1 := pbeam_unit ]};
     elements := {[ 10 := line_element "CBEAM" tiny 1%float;
                    11 := line_element "CBEAM" 1%float 1%float ]};
     masses := [];
     get_element_ids_dict_with_pids := λ _ _, Some [(1, [10; 11])] |}.

(** [xlb = 0] and [xub = 1] around an undefined value, [0.0 / 0.0]. *)
Definition unit_bounds : Desvars.Desvar float :=
  {| Desvars.value := 0%float; Desvars.xlb := 0%float;
     Desvars.xub := 1%float |}.
Definition undefined : float := (0 / 0)%float.
End Floats.

(** ** Loops *)

Lemma bind_Ok {E A B} (r : result E A) (k : A → result E B) b :
  bind r k = Ok b → ∃ a, r = Ok a ∧ k a = Ok b.
Proof. destruct r as [a|e]; simpl; [eauto | discriminate]. Qed.

Lemma bindM_Ok {E A B} (c : M E A) (k : A → M E B) s b s' :
  bindM c k s = (Ok b, s') → ∃ a s1, c s = (Ok a, s1) ∧ k a s1 = (Ok b, s').
Proof.
  unfold bindM. destruct (c s) as [[a|e] s1]; [eauto | discriminate].
Qed.

Lemma for_loop_app {E A S} (body : S → A → result E S) xs ys s :
  for_loop body (xs ++ ys) s =
  (let! s' := for_loop body xs s in for_loop body ys s').
Proof.
  revert s. induction xs as [|x xs IH]; intros s; simpl; [done|].
  destruct (body s x); simpl; [apply IH | done].
Qed.

Lemma for_loopM_app {E A S} (body : S → A → M E S) xs ys s st :
  for_loopM body (xs ++ ys) s st =
  (let* s' := for_loopM body xs s in for_loopM body ys s') st.
Proof.
  revert s st. induction xs as [|x xs IH]; intros s st; simpl.
  - reflexivity.
  - unfold bindM in *. destruct (body s x st) as [[s1|e] st1];
      [apply IH | reflexivity].
Qed.

Lemma for_loopM_cons {E A S} (body : S → A → M E S) x xs s st :
  for_loopM body (x :: xs) s st =
  match body s x st with
  | (Ok s1, st1) => for_loopM body xs s1 st1
  | (Err e, st1) => (Err e, st1)
  end.
Proof. reflexivity. Qed.

(** ** The loops over the elements of one property *)

Section ElementLoops.
Context {num : Type} `{Number num}.
Local Open Scope num_scope.
Implicit Types (m : Model num) (prop : Property num) (elem : Element num).

Lemma for_loop_collect {A B C} (g : A → res num B) (h : B → C)
    (body : list C → A → res num (list C)) :
  (∀ acc x, body acc x = (let! v := g x in Ok (acc ++ [h v]))) →
  ∀ xs acc r,
    for_loop body xs acc = Ok r ↔
    ∃ vs, Forall2 (λ x v, g x = Ok v) xs vs ∧ r = acc ++ map h vs.
Proof.
  intros Hbody. induction xs as [|x xs IH]; intros acc r; simpl.
  - split.
    + intros [= <-]. exists []. split; [constructor | by rewrite app_nil_r].
    + intros (vs & Hvs & ->). inversion Hvs; subst. simpl. by rewrite app_nil_r.
  - rewrite Hbody. destruct (g x) as [v|e] eqn:Hg; simpl.
    + rewrite IH. split.
      * intros (vs & Hvs & ->). exists (v :: vs). split; [by constructor|].
        simpl. by rewrite <- app_assoc.
      * intros (vs & Hvs & ->). inversion Hvs as [|? v' ? vs' Hv' Hvs']; subst.
        rewrite Hg in Hv'. injection Hv' as <-. exists vs'. split; [done|].
        simpl. by rewrite <- app_assoc.
    + split; [discriminate|].
      intros (vs & Hvs & ->). inversion Hvs; subst. congruence.
Qed.

Lemma elem_call_Ok m name method eid v :
  elem_call m name method eid = Ok v ↔ element_has m method eid v.
Proof.
  unfold elem_call, element_has, get_element, attr.
  destruct (elements m !! eid) as [elem|]; simpl.
  - destruct (method elem) as [w|] eqn:Hw; split.
    + intros [= <-]. by exists elem.
    + intros (? & [= <-] & Hm). congruence.
    + discriminate.
    + intros (? & [= <-] & Hm). congruence.
  - split; [discriminate | intros (? & ? & ?); discriminate].
Qed.

Lemma Forall2_elem_call m name method eids vs :
  Forall2 (λ eid v, elem_call m name method eid = Ok v) eids vs ↔
  Forall2 (element_has m method) eids vs.
Proof.
  split; intros HF; (eapply Forall2_impl; [exact HF|]);
    intros eid v; apply elem_call_Ok.
Qed.

Lemma element_areas_Ok m eids r :
  element_areas m eids = Ok r ↔ Forall2 (element_has m e_Area) eids r.
Proof.
  unfold element_areas.
  rewrite (for_loop_collect (elem_call m "Area" e_Area) (λ a, a)).
  - rewrite <- Forall2_elem_call. simpl. split.
    + intros (vs & Hvs & ->). by rewrite map_id.
    + intros Hr. exists r. by rewrite map_id.
  - intros acc eid. unfold elem_call.
    destruct (get_element m eid) as [elem|]; simpl; [|done].
    by destruct (attr "Area" (e_Area elem)).
Qed.

Lemma element_lengths_Ok m eids r :
  element_lengths m eids = Ok r ↔ Forall2 (element_has m e_Length) eids r.
Proof.
  unfold element_lengths.
  rewrite (for_loop_collect (elem_call m "Length" e_Length) (λ a, a)).
  - rewrite <- Forall2_elem_call. simpl. split.
    + intros (vs & Hvs & ->). by rewrite map_id.
    + intros Hr. exists r. by rewrite map_id.
  - intros acc eid. unfold elem_call.
    destruct (get_element m eid) as [elem|]; simpl; [|done].
    by destruct (attr "Length" (e_Length elem)).
Qed.

Lemma element_masses_Ok m eids r :
  element_masses m eids = Ok r ↔ Forall2 (element_has m e_Mass) eids r.
Proof.
  unfold element_masses.
  rewrite (for_loop_collect (elem_call m "Mass" e_Mass) (λ a, a)).
  - rewrite <- Forall2_elem_call. simpl. split.
    + intros (vs & Hvs & ->). by rewrite map_id.
    + intros Hr. exists r. by rewrite map_id.
  - intros acc eid. unfold elem_call.
    destruct (get_element m eid) as [elem|]; simpl; [|done].
    by destruct (attr "Mass" (e_Mass elem)).
Qed.

Lemma shell_masses_Ok m thickness nsm rho eids r :
  shell_masses m thickness nsm rho eids = Ok r ↔
  ∃ areas, Forall2 (element_has m e_Area) eids areas ∧
           r = map (λ area, area * (rho * thickness + nsm)) areas.
Proof.
  unfold shell_masses.
  rewrite (for_loop_collect (elem_call m "Area" e_Area)
             (λ area, area * (rho * thickness + nsm))).
  - simpl. by setoid_rewrite Forall2_elem_call.
  - intros acc eid. unfold elem_call.
    destruct (get_element m eid) as [elem|]; simpl; [|done].
    by destruct (attr "Area" (e_Area elem)).
Qed.

Lemma bar_masses_Ok m prop nsm rho eids r :
  bar_masses m prop nsm rho eids = Ok r →
  ∃ lengths, Forall2 (element_has m e_Length) eids lengths ∧
    ((eids = [] ∧ r = []) ∨
     ∃ area, p_Area prop = Some area ∧
             r = map (λ length, area * (rho * length + nsm)) lengths).
Proof.
  unfold bar_masses. destruct (p_Area prop) as [area|] eqn:Harea.
  - rewrite (for_loop_collect (elem_call m "Length" e_Length)
               (λ length, area * (rho * length + nsm))).
    + simpl. intros (vs & Hvs%Forall2_elem_call & ->). eauto 10.
    + intros acc eid. unfold elem_call.
      destruct (get_element m eid) as [elem|]; simpl; [|done].
      by destruct (attr "Length" (e_Length elem)).
  - destruct eids as [|eid eids]; simpl.
    + intros [= <-]. exists []. split; [constructor | by left].
    + by destruct (get_element m eid).
Qed.

(** With [sum_bar_area=False] only the last area survives. *)
Lemma bar_areas_last_from m eids acc r :
  for_loop (λ areas eid,
    let! elem := get_element m eid in
    let! a := attr "Area" (e_Area elem) in
    Ok [a]) eids acc = Ok r ↔
  ∃ areas, Forall2 (element_has m e_Area) eids areas ∧
           r = match last areas with Some a => [a] | None => acc end.
Proof.
  revert acc r. induction eids as [|eid eids IH]; intros acc r; simpl.
  - split.
    + intros [= <-]. exists []. split; [constructor | done].
    + intros (vs & Hvs & ->). by inversion Hvs.
  - pose proof (elem_call_Ok m "Area" e_Area eid) as Hcall.
    unfold elem_call in Hcall.
    destruct (get_element m eid) as [elem|e]; simpl in *.
    + destruct (attr "Area" (e_Area elem)) as [a|e]; simpl in *.
      * rewrite IH. split.
        -- intros (vs & Hvs & ->). exists (a :: vs). split.
           ++ constructor; [by apply Hcall | done].
           ++ rewrite last_cons. by destruct (last vs).
        -- intros (vs & Hvs & ->).
           inversion Hvs as [|? a' ? vs' Ha' Hvs']; subst.
           apply Hcall in Ha'. injection Ha' as <-.
           exists vs'. split; [done|].
           rewrite last_cons. by destruct (last vs').
      * split; [discriminate|]. intros (vs & Hvs & ->).
        inversion Hvs as [|? a' ? vs' Ha' Hvs']; subst.
        by apply Hcall in Ha'.
    + split; [discriminate|]. intros (vs & Hvs & ->).
      inversion Hvs as [|? a' ? vs' Ha' Hvs']; subst.
      by apply Hcall in Ha'.
Qed.

Lemma bar_areas_Ok m sum_bar_area eids r :
  bar_areas m sum_bar_area eids = Ok r ↔
  ∃ areas, Forall2 (element_has m e_Area) eids areas ∧
    r = if sum_bar_area then areas
        else match last areas with Some a => [a] | None => [] end.
Proof.
  unfold bar_areas. destruct sum_bar_area.
  - change (for_loop _ eids []) with (element_areas m eids).
    rewrite element_areas_Ok. split; [eauto | by intros (? & ? & ->)].
  - apply bar_areas_last_from.
Qed.
End ElementLoops.

(** ** The loop over [pid_eids] *)

Section PropertyLoop.
Context {num : Type} `{Number num}.
Variables (m : Model num)
          (f : Property num → list Z → M (error num) (list num)).

Lemma lookup_store_sum pid xs (d : gmap Z num) k :
  store_sum pid xs d !! k =
  if decide (pid = k) then
    match xs with [] => d !! k | _ :: _ => Some (sum xs) end
  else d !! k.
Proof.
  destruct xs as [|x xs]; simpl.
  - by case_decide.
  - by rewrite lookup_insert.
Qed.

Lemma breakdown_body_Ok d pid eids st pm st' :
  breakdown_body m f d (pid, eids) st = (Ok pm, st') →
  ∃ prop xs, properties m !! pid = Some prop ∧
             f prop eids st = (Ok xs, st') ∧ pm = store_sum pid xs d.
Proof.
  unfold breakdown_body, bindM, lift, retM, get_property.
  destruct (properties m !! pid) as [prop|]; [|discriminate].
  destruct (f prop eids st) as [[xs|e] st1] eqn:Hf; [|discriminate].
  intros [= <- <-]. eauto.
Qed.

Lemma breakdown_loop_other l d st pm st' pid :
  for_loopM (breakdown_body m f) l d st = (Ok pm, st') →
  pid ∉ l.*1 → pm !! pid = d !! pid.
Proof.
  revert d st. induction l as [|[pid' eids'] l IH]; intros d st; simpl.
  - by intros [= <- <-].
  - intros (d1 & st1 & Hbody & Hrest)%bindM_Ok Hnotin.
    apply not_elem_of_cons in Hnotin as [Hne Hnotin].
    apply breakdown_body_Ok in Hbody as (prop & xs & _ & _ & ->).
    rewrite (IH _ _ Hrest Hnotin), lookup_store_sum.
    by rewrite decide_False by done.
Qed.

(** The entry of a property of the selection: its summands, when there
    are any. *)
Lemma breakdown_loop_entry l d st pm st' pid eids :
  for_loopM (breakdown_body m f) l d st = (Ok pm, st') →
  NoDup l.*1 → (pid, eids) ∈ l →
  ∃ prop xs s1 s2,
    properties m !! pid = Some prop ∧ f prop eids s1 = (Ok xs, s2) ∧
    pm !! pid = match xs with [] => d !! pid | _ :: _ => Some (sum xs) end.
Proof.
  revert d st. induction l as [|[pid' eids'] l IH]; intros d st; simpl.
  - intros _ _ Hin. by apply elem_of_nil in Hin.
  - intros (d1 & st1 & Hbody & Hrest)%bindM_Ok Hnodup Hin.
    apply NoDup_cons in Hnodup as [Hfresh Hnodup].
    apply elem_of_cons in Hin as [[= <- <-]|Hin].
    + apply breakdown_body_Ok in Hbody as (prop & xs & Hprop & Hf & ->).
      exists prop, xs, st, st1. split_and!; [done..|].
      rewrite (breakdown_loop_other _ _ _ _ _ _ Hrest Hfresh).
      rewrite lookup_store_sum, decide_True by done. done.
    + destruct (IH _ _ Hrest Hnodup Hin) as (prop & xs & s1 & s2 & ? & ? & Hpm).
      exists prop, xs, s1, s2. split_and!; [done..|].
      rewrite Hpm. destruct xs; [|done].
      apply breakdown_body_Ok in Hbody as (? & ? & _ & _ & ->).
      rewrite lookup_store_sum, decide_False; [done|].
      intros ->. apply Hfresh. apply list_elem_of_fmap.
      by exists (pid, eids).
Qed.

(** A key is present only for a property with summands. *)
Lemma breakdown_loop_lookup l d st pm st' pid v :
  for_loopM (breakdown_body m f) l d st = (Ok pm, st') →
  pm !! pid = Some v →
  d !! pid = Some v ∨
  ∃ eids prop xs s1 s2,
    (pid, eids) ∈ l ∧ properties m !! pid = Some prop ∧
    f prop eids s1 = (Ok xs, s2) ∧ xs ≠ [] ∧ v = sum xs.
Proof.
  revert d st. induction l as [|[pid' eids'] l IH]; intros d st; simpl.
  - intros [= <- <-]. by left.
  - intros (d1 & st1 & Hbody & Hrest)%bindM_Ok Hv.
    destruct (IH _ _ Hrest Hv) as [Hd1|(eids & prop & xs & s1 & s2 & Hin & ?)].
    + apply breakdown_body_Ok in Hbody as (prop & xs & Hprop & Hf & ->).
      rewrite lookup_store_sum in Hd1. case_decide as Hpid; [|by left].
      subst pid'. destruct xs as [|x xs]; [by left|].
      right. exists eids', prop, (x :: xs), st, st1.
      split_and!; [apply elem_of_cons; by left|done..|congruence].
    + right. exists eids, prop, xs, s1, s2.
      split; [apply elem_of_cons; by right | done].
Qed.

(** A property that raises makes the loop raise, unless an earlier one
    did. *)
Lemma breakdown_loop_raises pre pid eids post prop e d st :
  properties m !! pid = Some prop →
  (∀ s, f prop eids s = (Err e, s)) →
  ∃ e' st',
    for_loopM (breakdown_body m f) (pre ++ (pid, eids) :: post) d st
    = (Err e', st') ∧
    (e' = e ∨ for_loopM (breakdown_body m f) pre d st = (Err e', st')).
Proof.
  intros Hprop Hf. rewrite for_loopM_app. unfold bindM at 1.
  destruct (for_loopM (breakdown_body m f) pre d st) as [[d1|e1] st1].
  - exists e, st1. split; [|by left]. simpl.
    unfold bindM, breakdown_body, lift, get_property.
    by rewrite Hprop, Hf.
  - exists e1, st1. split; [done | by right].
Qed.
End PropertyLoop.

Section PureLoops.
Context {E A S : Type}.

Lemma for_loopM_lift (body : S → A → result E S) (bodyM : S → A → M E S) :
  (∀ s x st, bodyM s x st = (body s x, st)) →
  ∀ xs s st, for_loopM bodyM xs s st = (for_loop body xs s, st).
Proof.
  intros Hbody. induction xs as [|x xs IH]; intros s st; simpl; [done|].
  unfold bindM. rewrite Hbody. destruct (body s x); simpl; [apply IH | done].
Qed.
End PureLoops.

Section AreaLoop.
Context {num : Type} `{Number num}.

(** [area_loop] is the shared loop on summands that do not log. *)
Lemma area_loop_breakdown (m : Model num) sum_bar_area l st :
  for_loopM (breakdown_body m
               (λ prop eids, lift (property_areas m sum_bar_area prop eids)))
    l ∅ st = (area_loop m sum_bar_area l, st).
Proof.
  unfold area_loop. apply for_loopM_lift. intros d [pid eids] s.
  unfold breakdown_body, bindM, lift, retM.
  destruct (get_property m pid) as [prop|]; simpl; [|done].
  by destruct (property_areas m sum_bar_area prop eids).
Qed.
End AreaLoop.

(** ** The three calls, unfolded *)

Section TopLevel.
Context {num : Type} `{Number num}.
Implicit Types (m : Model num) (prop : Property num).

Lemma get_area_breakdown_unfold m property_ids sum_bar_area :
  get_area_breakdown m property_ids sum_bar_area =
  match get_element_ids_dict_with_pids m property_ids None with
  | Some pid_eids => area_loop m sum_bar_area pid_eids
  | None => Err ElementIdsError
  end.
Proof.
  unfold get_area_breakdown, element_ids_dict.
  by destruct (get_element_ids_dict_with_pids m property_ids None).
Qed.

Lemma get_volume_breakdown_unfold m property_ids :
  get_volume_breakdown m property_ids =
  match get_element_ids_dict_with_pids m property_ids None with
  | Some pid_eids =>
      let '(r, s) := volume_loop m pid_eids no_skips in (r, log s)
  | None => (Err ElementIdsError, [])
  end.
Proof.
  unfold get_volume_breakdown, element_ids_dict, bindM, lift.
  by destruct (get_element_ids_dict_with_pids m property_ids None).
Qed.

Lemma get_mass_breakdown_unfold m property_ids stop_if_no_eids :
  get_mass_breakdown m property_ids stop_if_no_eids =
  match get_element_ids_dict_with_pids m property_ids (Some false) with
  | None => (Err ElementIdsError, [])
  | Some pid_eids =>
      match mass_type_loop m with
      | Err e => (Err e, [])
      | Ok mass_type_to_mass =>
          match mass_loop m pid_eids no_skips with
          | (Err e, s) => (Err e, log s)
          | (Ok pids_to_mass, s) =>
              (if stop_if_no_eids && (size mass_type_to_mass =? 0)%nat
                  && (size pids_to_mass =? 0)%nat
               then Err NoMassFound
               else Ok (pids_to_mass, mass_type_to_mass), log s)
          end
      end
  end.
Proof.
  unfold get_mass_breakdown, element_ids_dict, bindM, lift, retM.
  destruct (get_element_ids_dict_with_pids m property_ids (Some false));
    [|done].
  destruct (mass_type_loop m) as [mt|]; [|done].
  destruct (mass_loop m l no_skips) as [[pm|] s]; [|done].
  by destruct (_ && _).
Qed.

Lemma get_mass_breakdown_Ok m property_ids stop_if_no_eids pm mt lg :
  get_mass_breakdown m property_ids stop_if_no_eids = (Ok (pm, mt), lg) →
  ∃ pid_eids s,
    get_element_ids_dict_with_pids m property_ids (Some false) = Some pid_eids ∧
    mass_type_loop m = Ok mt ∧
    mass_loop m pid_eids no_skips = (Ok pm, s) ∧ lg = log s.
Proof.
  rewrite get_mass_breakdown_unfold.
  destruct (get_element_ids_dict_with_pids m property_ids (Some false))
    as [pid_eids|]; [|discriminate].
  destruct (mass_type_loop m) as [mt'|]; [|discriminate].
  destruct (mass_loop m pid_eids no_skips) as [[pm'|] s] eqn:Hloop;
    [|discriminate].
  destruct (_ && _); [discriminate|].
  intros [= <- <- <-]. by exists pid_eids, s.
Qed.

Lemma get_volume_breakdown_Ok m property_ids pv lg :
  get_volume_breakdown m property_ids = (Ok pv, lg) →
  ∃ pid_eids s,
    get_element_ids_dict_with_pids m property_ids None = Some pid_eids ∧
    volume_loop m pid_eids no_skips = (Ok pv, s) ∧ lg = log s.
Proof.
  rewrite get_volume_breakdown_unfold.
  destruct (get_element_ids_dict_with_pids m property_ids None)
    as [pid_eids|]; [|discriminate].
  destruct (volume_loop m pid_eids no_skips) as [[pv'|] s] eqn:Hloop;
    [|discriminate].
  intros [= <- <-]. by exists pid_eids, s.
Qed.

Lemma get_area_breakdown_Ok m property_ids sum_bar_area pa :
  get_area_breakdown m property_ids sum_bar_area = Ok pa →
  ∃ pid_eids,
    get_element_ids_dict_with_pids m property_ids None = Some pid_eids ∧
    ∀ st, for_loopM (breakdown_body m
            (λ prop eids, lift (property_areas m sum_bar_area prop eids)))
          pid_eids ∅ st = (Ok pa, st).
Proof.
  rewrite get_area_breakdown_unfold.
  destruct (get_element_ids_dict_with_pids m property_ids None)
    as [pid_eids|]; [|discriminate].
  intros Hloop. exists pid_eids. split; [done|]. intros st.
  by rewrite area_loop_breakdown, Hloop.
Qed.
End TopLevel.

(** ** The dispatch on the property type *)

Lemma tags_disjoint (l1 l2 : list string) (x : string) :
  forallb (λ y, negb (bool_decide (y ∈ l2))) l1 = true →
  x ∈ l1 → x ∈ l2 → False.
Proof.
  intros Hall Hx1 Hx2. rewrite forallb_forall in Hall.
  apply list_elem_of_In, Hall, negb_true_iff, bool_decide_eq_false in Hx1.
  done.
Qed.

Lemma tags_subset (l1 l2 : list string) (x : string) :
  forallb (λ y, bool_decide (y ∈ l2)) l1 = true → x ∈ l1 → x ∈ l2.
Proof.
  intros Hall Hx1. rewrite forallb_forall in Hall.
  by apply list_elem_of_In, Hall, bool_decide_eq_true in Hx1.
Qed.

Lemma tag_not_in (l : list string) (x c : string) :
  bool_decide (c ∈ l) = false → x ∈ l → x = c → False.
Proof. intros Hc%bool_decide_eq_false Hx ->. done. Qed.

(** Two facts on the type tag that the tables make contradictory. *)
Ltac tag_clash :=
  exfalso;
  match goal with
  | H1 : ?x ∈ ?l1, H2 : ?x ∈ ?l2 |- _ =>
      apply (tags_disjoint l1 l2 x); [vm_compute; reflexivity | exact H1 | exact H2]
  | H1 : ?x ∈ ?l, H2 : ?x = ?c |- _ =>
      apply (tag_not_in l x c); [vm_compute; reflexivity | exact H1 | exact H2]
  | H1 : ?x = ?c1, H2 : ?x = ?c2 |- _ =>
      rewrite H1 in H2; discriminate H2
  | H : ?x ∈ _ |- _ =>
      revert H; rewrite !elem_of_cons, elem_of_nil; intuition congruence
  end.

(** A tag outside [classified_props] is in none of the tables. *)
Ltac tag_unclassified Hun :=
  exfalso; apply Hun;
  match goal with
  | H : ?x ∈ ?l |- _ =>
      apply (tags_subset l classified_props x); [vm_compute; reflexivity | exact H]
  | H : ?x = ?c |- _ =>
      rewrite H; apply (bool_decide_unpack _); vm_compute; exact I
  end.

Section Dispatch.
Context {num : Type} `{Number num}.
Implicit Types (m : Model num) (prop : Property num).

Lemma attr_Ok {A} name (o : option A) (a : A) :
  attr (num:=num) name o = Ok a → o = Some a.
Proof. destruct o; simpl; congruence. Qed.

Lemma property_areas_skip m sum_bar_area prop eids :
  p_type prop ∈ skip_props →
  property_areas m sum_bar_area prop eids = Ok [].
Proof.
  intros Hty. unfold property_areas.
  repeat case_decide; try done; tag_clash.
Qed.

Lemma property_volumes_skip m prop eids :
  p_type prop ∈ no_volume → property_volumes m prop eids = retM [].
Proof.
  intros Hty. unfold property_volumes.
  repeat case_decide; try done; tag_clash.
Qed.

Lemma property_masses_skip m prop eids :
  p_type prop ∈ properties_to_skip → property_masses m prop eids = retM [].
Proof.
  intros Hty. unfold property_masses.
  repeat case_decide; try done; tag_clash.
Qed.

Lemma property_areas_unclassified m sum_bar_area prop eids :
  p_type prop ∉ classified_props →
  property_areas m sum_bar_area prop eids = Err (NotImplementedError prop).
Proof.
  intros Hun. unfold property_areas.
  repeat case_decide; try done; tag_unclassified Hun.
Qed.

Lemma property_volumes_unclassified m prop eids :
  p_type prop ∉ classified_props →
  property_volumes m prop eids = lift (Err (NotImplementedError prop)).
Proof.
  intros Hun. unfold property_volumes.
  repeat case_decide; try done; tag_unclassified Hun.
Qed.

Lemma property_masses_unclassified m prop eids :
  p_type prop ∉ classified_props →
  property_masses m prop eids = lift (Err (NotImplementedError prop)).
Proof.
  intros Hun. unfold property_masses.
  repeat case_decide; try done; tag_unclassified Hun.
Qed.

(** The branches, by the type tag. *)
Lemma property_masses_shell m prop eids :
  p_type prop ∈ ["PSHELL"; "PSHEAR"] →
  property_masses m prop eids =
  lift (let! thickness := attr "t" (p_t prop) in
        let! nsm := attr "nsm" (p_nsm prop) in
        let! rho := attr "Rho" (p_Rho prop) in
        shell_masses m thickness nsm rho eids).
Proof.
  intros Hty. unfold property_masses.
  repeat case_decide; try done; tag_clash.
Qed.

Lemma property_masses_comp m prop eids :
  p_type prop ∈ comp_props →
  property_masses m prop eids = lift (element_masses m eids).
Proof.
  intros Hty. unfold property_masses.
  repeat case_decide; try done; tag_clash.
Qed.

Lemma property_masses_line m prop eids :
  p_type prop ∈ line_props →
  property_masses m prop eids =
  lift (let! nsm := attr "nsm" (p_nsm prop) in
        let! rho := attr "Rho" (p_Rho prop) in
        bar_masses m prop nsm rho eids).
Proof.
  intros Hty. unfold property_masses.
  repeat case_decide; try done; tag_clash.
Qed.

Lemma property_volumes_line m prop eids :
  p_type prop ∈ line_props →
  property_volumes m prop eids =
  lift (let! lengths := element_lengths m eids in
        let! area := attr "Area" (p_Area prop) in
        Ok (map (λ length, nmul area length) lengths)).
Proof.
  intros Hty. unfold property_volumes.
  repeat case_decide; try done; tag_clash.
Qed.

Lemma property_areas_line m sum_bar_area prop eids :
  p_type prop ∈ line_props →
  property_areas m sum_bar_area prop eids = bar_areas m sum_bar_area eids.
Proof.
  intros Hty. unfold property_areas.
  repeat case_decide; try done; tag_clash.
Qed.
End Dispatch.

(** ** The sums the breakdowns report *)

Section Sums.
Context {num : Type} `{Number num}.
Local Open Scope num_scope.
Implicit Types (m : Model num) (prop : Property num).

Lemma lift_Ok {A} (r : res num A) s a s' :
  lift r s = (Ok a, s') → r = Ok a ∧ s' = s.
Proof. unfold lift. by intros [= -> ->]. Qed.

(** The entry of a property of the selection in [pids_to_mass]. *)
Lemma mass_entry m property_ids stop_if_no_eids pid_eids pid eids prop pm mt lg :
  get_element_ids_dict_with_pids m property_ids (Some false) = Some pid_eids →
  NoDup pid_eids.*1 → (pid, eids) ∈ pid_eids →
  properties m !! pid = Some prop →
  get_mass_breakdown m property_ids stop_if_no_eids = (Ok (pm, mt), lg) →
  ∃ xs s1 s2, property_masses m prop eids s1 = (Ok xs, s2) ∧
              pm !! pid = reported xs.
Proof.
  intros Hsel Hnodup Hin Hprop
    (pid_eids' & s & Hsel' & _ & Hloop & _)%get_mass_breakdown_Ok.
  rewrite Hsel in Hsel'. injection Hsel' as <-.
  destruct (breakdown_loop_entry m (property_masses m) _ _ _ _ _ _ _
              Hloop Hnodup Hin) as (prop' & xs & s1 & s2 & Hprop' & Hf & Hpm).
  rewrite Hprop in Hprop'. injection Hprop' as <-.
  exists xs, s1, s2. split; [done|]. rewrite Hpm. by destruct xs.
Qed.

Lemma volume_entry m property_ids pid_eids pid eids prop pv lg :
  get_element_ids_dict_with_pids m property_ids None = Some pid_eids →
  NoDup pid_eids.*1 → (pid, eids) ∈ pid_eids →
  properties m !! pid = Some prop →
  get_volume_breakdown m property_ids = (Ok pv, lg) →
  ∃ xs s1 s2, property_volumes m prop eids s1 = (Ok xs, s2) ∧
              pv !! pid = reported xs.
Proof.
  intros Hsel Hnodup Hin Hprop
    (pid_eids' & s & Hsel' & Hloop & _)%get_volume_breakdown_Ok.
  rewrite Hsel in Hsel'. injection Hsel' as <-.
  destruct (breakdown_loop_entry m (property_volumes m) _ _ _ _ _ _ _
              Hloop Hnodup Hin) as (prop' & xs & s1 & s2 & Hprop' & Hf & Hpm).
  rewrite Hprop in Hprop'. injection Hprop' as <-.
  exists xs, s1, s2. split; [done|]. rewrite Hpm. by destruct xs.
Qed.

Lemma area_entry m property_ids sum_bar_area pid_eids pid eids prop pa :
  get_element_ids_dict_with_pids m property_ids None = Some pid_eids →
  NoDup pid_eids.*1 → (pid, eids) ∈ pid_eids →
  properties m !! pid = Some prop →
  get_area_breakdown m property_ids sum_bar_area = Ok pa →
  ∃ xs, property_areas m sum_bar_area prop eids = Ok xs ∧
        pa !! pid = reported xs.
Proof.
  intros Hsel Hnodup Hin Hprop (pid_eids' & Hsel' & Hloop)%get_area_breakdown_Ok.
  rewrite Hsel in Hsel'. injection Hsel' as <-.
  destruct (breakdown_loop_entry m _ _ _ _ _ _ _ _
              (Hloop no_skips) Hnodup Hin)
    as (prop' & xs & s1 & s2 & Hprop' & [Hf _]%lift_Ok & Hpm).
  rewrite Hprop in Hprop'. injection Hprop' as <-.
  exists xs. split; [done|]. rewrite Hpm. by destruct xs.
Qed.

(** C1, as amended.  For a [PSHELL] or [PSHEAR] property of the selection
    [get_mass_breakdown] reports the sum over its elements of
    [area * (rho * t + nsm)]; for a [PCOMP] or [PCOMPG] property it
    reports the sum of the elements' own [Mass()].  In both cases the
    property has no entry when it has no elements. *)
Theorem get_mass_breakdown_shell_like
    m property_ids stop_if_no_eids pid_eids pid eids prop pm mt lg :
  get_element_ids_dict_with_pids m property_ids (Some false) = Some pid_eids →
  NoDup pid_eids.*1 → (pid, eids) ∈ pid_eids →
  properties m !! pid = Some prop →
  get_mass_breakdown m property_ids stop_if_no_eids = (Ok (pm, mt), lg) →
  (p_type prop ∈ ["PSHELL"; "PSHEAR"] →
   ∃ thickness nsm rho areas,
     p_t prop = Some thickness ∧ p_nsm prop = Some nsm ∧
     p_Rho prop = Some rho ∧
     Forall2 (element_has m e_Area) eids areas ∧
     pm !! pid =
       reported (map (λ area, area * (rho * thickness + nsm)) areas)) ∧
  (p_type prop ∈ comp_props →
   ∃ masses,
     Forall2 (element_has m e_Mass) eids masses ∧
     pm !! pid = reported masses).
Proof.
  intros Hsel Hnodup Hin Hprop Hcall.
  destruct (mass_entry _ _ _ _ _ _ _ _ _ _ Hsel Hnodup Hin Hprop Hcall)
    as (xs & s1 & s2 & Hf & Hpm).
  split; intros Hty.
  - rewrite property_masses_shell in Hf by done.
    apply lift_Ok in Hf as [Hf _].
    apply bind_Ok in Hf as (thickness & Ht%attr_Ok & Hf).
    apply bind_Ok in Hf as (nsm & Hnsm%attr_Ok & Hf).
    apply bind_Ok in Hf as (rho & Hrho%attr_Ok & Hf).
    apply shell_masses_Ok in Hf as (areas & Hareas & ->).
    by exists thickness, nsm, rho, areas.
  - rewrite property_masses_comp in Hf by done.
    apply lift_Ok in Hf as [Hf%element_masses_Ok _].
    by exists xs.
Qed.

Lemma sum_from_app (xs : list num) (a : num) :
  sum (xs ++ [a]) = sum xs + a.
Proof. unfold sum. by rewrite fold_left_app. Qed.

Lemma sum_map_mul (a : num) (xs : list num) :
  (∀ x y z : num, x * (y + z) = x * y + x * z) →
  (∀ x : num, x * nzero = nzero) →
  sum (map (nmul a) xs) = a * sum xs.
Proof.
  intros Hdistr Hzero. induction xs as [|x xs IH] using rev_ind.
  - unfold sum. simpl. by rewrite Hzero.
  - rewrite map_app. change (map (nmul a) [x]) with [a * x].
    by rewrite !sum_from_app, IH, Hdistr.
Qed.

(** C2, as amended.  For a line property of the selection,
    [get_volume_breakdown] reports the sum over its elements of the
    property's area times the length of the element, which is the area
    times the sum of the lengths in an arithmetic where multiplication
    distributes over addition and [x * 0 = 0]; [get_mass_breakdown]
    reports the sum over its elements of
    [area * (rho * length + nsm)].  A property without elements has no
    entry. *)
Theorem line_volume_and_mass m property_ids pid eids prop :
  properties m !! pid = Some prop →
  p_type prop ∈ line_props →
  (∀ pid_eids pv lg,
     get_element_ids_dict_with_pids m property_ids None = Some pid_eids →
     NoDup pid_eids.*1 → (pid, eids) ∈ pid_eids →
     get_volume_breakdown m property_ids = (Ok pv, lg) →
     ∃ area lengths,
       p_Area prop = Some area ∧
       Forall2 (element_has m e_Length) eids lengths ∧
       pv !! pid = reported (map (λ length, area * length) lengths) ∧
       ((∀ x y z : num, x * (y + z) = x * y + x * z) →
        (∀ x : num, x * nzero = nzero) →
        pv !! pid = match eids with
                    | [] => None
                    | _ :: _ => Some (area * sum lengths)
                    end)) ∧
  (∀ stop_if_no_eids pid_eids pm mt lg,
     get_element_ids_dict_with_pids m property_ids (Some false)
       = Some pid_eids →
     NoDup pid_eids.*1 → (pid, eids) ∈ pid_eids →
     get_mass_breakdown m property_ids stop_if_no_eids = (Ok (pm, mt), lg) →
     ∃ nsm rho lengths,
       p_nsm prop = Some nsm ∧ p_Rho prop = Some rho ∧
       Forall2 (element_has m e_Length) eids lengths ∧
       match eids with
       | [] => pm !! pid = None
       | _ :: _ =>
           ∃ area, p_Area prop = Some area ∧
             pm !! pid =
               Some (sum (map (λ length, area * (rho * length + nsm))
                            lengths))
       end).
Proof.
  intros Hprop Hty. split.
  - intros pid_eids pv lg Hsel Hnodup Hin Hcall.
    destruct (volume_entry _ _ _ _ _ _ _ _ Hsel Hnodup Hin Hprop Hcall)
      as (xs & s1 & s2 & Hf & Hpv).
    rewrite property_volumes_line in Hf by done.
    apply lift_Ok in Hf as [Hf _].
    apply bind_Ok in Hf as (lengths & Hlengths%element_lengths_Ok & Hf).
    apply bind_Ok in Hf as (area & Harea%attr_Ok & [= <-]).
    exists area, lengths. split_and!; [done..|].
    intros Hdistr Hzero.
    rewrite Hpv. destruct Hlengths as [|eid l eids' ls ? ?]; [done|].
    simpl. f_equal.
    change (l :: ls) with ([l] ++ ls).
    rewrite <- (sum_map_mul area ([l] ++ ls)) by done. done.
  - intros stop pid_eids pm mt lg Hsel Hnodup Hin Hcall.
    destruct (mass_entry _ _ _ _ _ _ _ _ _ _ Hsel Hnodup Hin Hprop Hcall)
      as (xs & s1 & s2 & Hf & Hpm).
    rewrite property_masses_line in Hf by done.
    apply lift_Ok in Hf as [Hf _].
    apply bind_Ok in Hf as (nsm & Hnsm%attr_Ok & Hf).
    apply bind_Ok in Hf as (rho & Hrho%attr_Ok & Hf).
    apply bar_masses_Ok in Hf as (lengths & Hlengths & Hxs).
    exists nsm, rho, lengths. split_and!; [done..|].
    destruct Hxs as [[-> ->]|(area & Harea & ->)]; [done|].
    destruct Hlengths as [|eid l eids' ls ? ?]; [done|].
    exists area. by rewrite Hpm.
Qed.
End Sums.

(** ** Which keys the breakdowns hold *)

Section Keys.
Context {num : Type} `{Number num}.
Local Open Scope num_scope.
Implicit Types (m : Model num) (prop : Property num).

(** C10, as amended.  With [sum_bar_area=False] a line property of the
    selection reports the area of exactly one of its elements, the last
    one iterated: [sum([a]) = 0 + a] for the [Area()] [a] of that
    element, whatever the areas of the elements before it.  That value
    is the sum of the areas of all its elements exactly when adding [a]
    to the sum of the earlier areas gives the same as adding [a] to
    [0]. *)
Theorem area_of_last_bar m property_ids pid_eids pid eids prop pa :
  get_element_ids_dict_with_pids m property_ids None = Some pid_eids →
  NoDup pid_eids.*1 → (pid, eids) ∈ pid_eids →
  properties m !! pid = Some prop →
  p_type prop ∈ line_props →
  get_area_breakdown m property_ids false = Ok pa →
  ∃ areas,
    Forall2 (element_has m e_Area) eids areas ∧
    pa !! pid = (λ a, nzero + a) <$> last areas ∧
    ∀ earlier a, areas = earlier ++ [a] →
      (pa !! pid = Some (sum areas) ↔ sum earlier + a = nzero + a).
Proof.
  intros Hsel Hnodup Hin Hprop Hty Hcall.
  destruct (area_entry _ _ _ _ _ _ _ _ Hsel Hnodup Hin Hprop Hcall)
    as (xs & Hf & Hpa).
  rewrite property_areas_line in Hf by done.
  apply bar_areas_Ok in Hf as (areas & Hareas & ->).
  assert (pa !! pid = (λ a, nzero + a) <$> last areas) as Hlast.
  { rewrite Hpa. by destruct (last areas). }
  exists areas. split_and!; [done..|].
  intros earlier a ->. rewrite Hlast, last_snoc, sum_from_app. simpl.
  split; [by intros [= ->] | by intros ->].
Qed.

(** C7.  A breakdown holds a key only for a property of the selection
    whose list of summands is not empty, and then the value is their
    sum; a property of a skip list ([skip_props] for areas, [no_volume]
    for volumes, [properties_to_skip] for masses) has no key. *)
Theorem breakdown_keys m property_ids sum_bar_area stop_if_no_eids :
  (∀ pa, get_area_breakdown m property_ids sum_bar_area = Ok pa →
     (∀ pid v, pa !! pid = Some v →
        ∃ pid_eids eids prop areas,
          get_element_ids_dict_with_pids m property_ids None
            = Some pid_eids ∧
          (pid, eids) ∈ pid_eids ∧ properties m !! pid = Some prop ∧
          property_areas m sum_bar_area prop eids = Ok areas ∧
          areas ≠ [] ∧ v = sum areas) ∧
     (∀ pid prop, properties m !! pid = Some prop →
        p_type prop ∈ skip_props → pa !! pid = None)) ∧
  (∀ pv lg, get_volume_breakdown m property_ids = (Ok pv, lg) →
     (∀ pid v, pv !! pid = Some v →
        ∃ pid_eids eids prop volumes s1 s2,
          get_element_ids_dict_with_pids m property_ids None
            = Some pid_eids ∧
          (pid, eids) ∈ pid_eids ∧ properties m !! pid = Some prop ∧
          property_volumes m prop eids s1 = (Ok volumes, s2) ∧
          volumes ≠ [] ∧ v = sum volumes) ∧
     (∀ pid prop, properties m !! pid = Some prop →
        p_type prop ∈ no_volume → pv !! pid = None)) ∧
  (∀ pm mt lg,
     get_mass_breakdown m property_ids stop_if_no_eids = (Ok (pm, mt), lg) →
     (∀ pid v, pm !! pid = Some v →
        ∃ pid_eids eids prop masses s1 s2,
          get_element_ids_dict_with_pids m property_ids (Some false)
            = Some pid_eids ∧
          (pid, eids) ∈ pid_eids ∧ properties m !! pid = Some prop ∧
          property_masses m prop eids s1 = (Ok masses, s2) ∧
          masses ≠ [] ∧ v = sum masses) ∧
     (∀ pid prop, properties m !! pid = Some prop →
        p_type prop ∈ properties_to_skip → pm !! pid = None)).
Proof.
  split_and!.
  - intros pa (pid_eids & Hsel & Hloop)%get_area_breakdown_Ok.
    assert (∀ pid v, pa !! pid = Some v →
        ∃ pid_eids eids prop areas,
          get_element_ids_dict_with_pids m property_ids None
            = Some pid_eids ∧
          (pid, eids) ∈ pid_eids ∧ properties m !! pid = Some prop ∧
          property_areas m sum_bar_area prop eids = Ok areas ∧
          areas ≠ [] ∧ v = sum areas) as Hkeys.
    { intros pid v Hv.
      destruct (breakdown_loop_lookup m _ _ _ _ _ _ _ _ (Hloop no_skips) Hv)
        as [Hempty|(eids & prop & xs & s1 & s2 & ? & ? & [? _]%lift_Ok & ? & ?)].
      - by rewrite lookup_empty in Hempty.
      - by exists pid_eids, eids, prop, xs. }
    split; [done|]. intros pid prop Hprop Hty.
    destruct (pa !! pid) as [v|] eqn:Hv; [|done].
    destruct (Hkeys _ _ Hv) as (? & eids & prop' & xs & _ & _ & Hprop' & Hf & Hne & _).
    rewrite Hprop in Hprop'. injection Hprop' as <-.
    rewrite property_areas_skip in Hf by done. congruence.
  - intros pv lg (pid_eids & s & Hsel & Hloop & _)%get_volume_breakdown_Ok.
    assert (∀ pid v, pv !! pid = Some v →
        ∃ pid_eids eids prop volumes s1 s2,
          get_element_ids_dict_with_pids m property_ids None
            = Some pid_eids ∧
          (pid, eids) ∈ pid_eids ∧ properties m !! pid = Some prop ∧
          property_volumes m prop eids s1 = (Ok volumes, s2) ∧
          volumes ≠ [] ∧ v = sum volumes) as Hkeys.
    { intros pid v Hv.
      destruct (breakdown_loop_lookup m (property_volumes m)
                  _ _ _ _ _ _ _ Hloop Hv)
        as [Hempty|(eids & prop & xs & s1 & s2 & ? & ? & ? & ? & ?)].
      - by rewrite lookup_empty in Hempty.
      - by exists pid_eids, eids, prop, xs, s1, s2. }
    split; [done|]. intros pid prop Hprop Hty.
    destruct (pv !! pid) as [v|] eqn:Hv; [|done].
    destruct (Hkeys _ _ Hv)
      as (? & eids & prop' & xs & s1 & s2 & _ & _ & Hprop' & Hf & Hne & _).
    rewrite Hprop in Hprop'. injection Hprop' as <-.
    rewrite property_volumes_skip in Hf by done.
    unfold retM in Hf. congruence.
  - intros pm mt lg (pid_eids & s & Hsel & _ & Hloop & _)%get_mass_breakdown_Ok.
    assert (∀ pid v, pm !! pid = Some v →
        ∃ pid_eids eids prop masses s1 s2,
          get_element_ids_dict_with_pids m property_ids (Some false)
            = Some pid_eids ∧
          (pid, eids) ∈ pid_eids ∧ properties m !! pid = Some prop ∧
          property_masses m prop eids s1 = (Ok masses, s2) ∧
          masses ≠ [] ∧ v = sum masses) as Hkeys.
    { intros pid v Hv.
      destruct (breakdown_loop_lookup m (property_masses m)
                  _ _ _ _ _ _ _ Hloop Hv)
        as [Hempty|(eids & prop & xs & s1 & s2 & ? & ? & ? & ? & ?)].
      - by rewrite lookup_empty in Hempty.
      - by exists pid_eids, eids, prop, xs, s1, s2. }
    split; [done|]. intros pid prop Hprop Hty.
    destruct (pm !! pid) as [v|] eqn:Hv; [|done].
    destruct (Hkeys _ _ Hv)
      as (? & eids & prop' & xs & s1 & s2 & _ & _ & Hprop' & Hf & Hne & _).
    rewrite Hprop in Hprop'. injection Hprop' as <-.
    rewrite property_masses_skip in Hf by done.
    unfold retM in Hf. congruence.
Qed.
End Keys.

(** ** Errors *)

Section LoopErrors.
Context {E A S : Type} (P : E → Prop).

Lemma for_loop_Err_ind (body : S → A → result E S) :
  (∀ s x e, body s x = Err e → P e) →
  ∀ xs s e, for_loop body xs s = Err e → P e.
Proof.
  intros Hbody. induction xs as [|x xs IH]; intros s e; simpl; [done|].
  destruct (body s x) as [s1|e1] eqn:Hb; simpl.
  - apply IH.
  - intros [= <-]. by eapply Hbody.
Qed.

Lemma for_loopM_Err_ind (body : S → A → M E S) :
  (∀ s x st e st', body s x st = (Err e, st') → P e) →
  ∀ xs s st e st', for_loopM body xs s st = (Err e, st') → P e.
Proof.
  intros Hbody. induction xs as [|x xs IH]; intros s st e st'; simpl.
  - discriminate.
  - unfold bindM. destruct (body s x st) as [[s1|e1] st1] eqn:Hb.
    + apply IH.
    + intros [= <- <-]. by eapply Hbody.
Qed.
End LoopErrors.

Section Errors.
Context {num : Type} `{Number num}.
Local Open Scope num_scope.
Implicit Types (m : Model num) (prop : Property num).

(** C3.  A property of the selection whose type tag is in none of the
    tables makes each of the three breakdowns raise: the call never
    returns a mapping, and the exception is [NotImplementedError(prop)]
    for that property unless an exception was raised before the loop
    reached it (by an item iterated earlier or, for the masses, by the
    loop over the point masses). *)
Theorem unclassified_property_raises
    m property_ids sum_bar_area stop_if_no_eids pre pid eids post prop :
  properties m !! pid = Some prop →
  p_type prop ∉ classified_props →
  (get_element_ids_dict_with_pids m property_ids None
     = Some (pre ++ (pid, eids) :: post) →
   (∃ e, get_area_breakdown m property_ids sum_bar_area = Err e ∧
         (e = NotImplementedError prop ∨
          area_loop m sum_bar_area pre = Err e)) ∧
   (∃ e lg, get_volume_breakdown m property_ids = (Err e, lg) ∧
            (e = NotImplementedError prop ∨
             (volume_loop m pre no_skips).1 = Err e))) ∧
  (get_element_ids_dict_with_pids m property_ids (Some false)
     = Some (pre ++ (pid, eids) :: post) →
   ∃ e lg, get_mass_breakdown m property_ids stop_if_no_eids = (Err e, lg) ∧
           (e = NotImplementedError prop ∨ mass_type_loop m = Err e ∨
            (mass_loop m pre no_skips).1 = Err e)).
Proof.
  intros Hprop Hun. split.
  - intros Hsel. split.
    + rewrite get_area_breakdown_unfold, Hsel. unfold area_loop.
      rewrite for_loop_app.
      destruct (for_loop _ pre ∅) as [d1|e1]; simpl.
      * exists (NotImplementedError prop). split; [|by left].
        unfold get_property. rewrite Hprop. simpl.
        by rewrite property_areas_unclassified.
      * exists e1. split; [done | by right].
    + rewrite get_volume_breakdown_unfold, Hsel.
      destruct (breakdown_loop_raises m (property_volumes m) pre pid eids
                  post prop (NotImplementedError prop) ∅ no_skips Hprop)
        as (e & st & Hloop & Hwhy).
      { intros s. by rewrite property_volumes_unclassified. }
      change (volume_loop m (pre ++ (pid, eids) :: post) no_skips)
        with (for_loopM (breakdown_body m (property_volumes m))
                (pre ++ (pid, eids) :: post) ∅ no_skips).
      rewrite Hloop. exists e, (log st). split; [done|].
      destruct Hwhy as [->|Hpre]; [by left | right].
      change (volume_loop m pre no_skips)
        with (for_loopM (breakdown_body m (property_volumes m))
                pre ∅ no_skips).
      by rewrite Hpre.
  - intros Hsel. rewrite get_mass_breakdown_unfold, Hsel.
    destruct (mass_type_loop m) as [mt|e0]; [|by eauto 10].
    destruct (breakdown_loop_raises m (property_masses m) pre pid eids
                post prop (NotImplementedError prop) ∅ no_skips Hprop)
      as (e & st & Hloop & Hwhy).
    { intros s. by rewrite property_masses_unclassified. }
    change (mass_loop m (pre ++ (pid, eids) :: post) no_skips)
      with (for_loopM (breakdown_body m (property_masses m))
              (pre ++ (pid, eids) :: post) ∅ no_skips).
    rewrite Hloop. exists e, (log st). split; [done|].
    destruct Hwhy as [->|Hpre]; [by left | right; right].
    change (mass_loop m pre no_skips)
      with (for_loopM (breakdown_body m (property_masses m))
              pre ∅ no_skips).
    by rewrite Hpre.
Qed.

Lemma mass_loop_nothing m l d s :
  Forall (contributes_no_mass m) l →
  ∃ s', for_loopM (breakdown_body m (property_masses m)) l d s = (Ok d, s').
Proof.
  intros Hall. revert s.
  induction Hall as [|[pid eids] l (prop & Hprop & Hf) _ IH]; intros s; simpl.
  - by exists s.
  - unfold bindM at 1. unfold breakdown_body, bindM, lift, retM, get_property.
    simpl in Hprop, Hf. rewrite Hprop. specialize (Hf s).
    destruct (property_masses m prop eids s) as [r s1]. simpl in Hf.
    subst r. simpl. apply IH.
Qed.

(** C5.  When the model has no point mass and every item of the
    selection yields no summand, [get_mass_breakdown] raises the
    no-mass error with [stop_if_no_eids=True] and returns two empty
    mappings with [stop_if_no_eids=False]. *)
Theorem no_mass_found m property_ids pid_eids :
  masses m = [] →
  get_element_ids_dict_with_pids m property_ids (Some false)
    = Some pid_eids →
  Forall (contributes_no_mass m) pid_eids →
  (get_mass_breakdown m property_ids true).1 = Err NoMassFound ∧
  (get_mass_breakdown m property_ids false).1 = Ok (∅, ∅).
Proof.
  intros Hmasses Hsel Hall.
  rewrite !get_mass_breakdown_unfold, Hsel.
  unfold mass_type_loop. rewrite Hmasses. simpl.
  destruct (mass_loop_nothing m pid_eids ∅ no_skips Hall) as (s' & Hloop).
  change (mass_loop m pid_eids no_skips)
    with (for_loopM (breakdown_body m (property_masses m))
            pid_eids ∅ no_skips).
  rewrite Hloop. simpl. by rewrite !map_size_empty.
Qed.
End Errors.

(** ** Where the no-mass error comes from *)

Section NoMass.
Context {num : Type} `{Number num}.
Local Open Scope num_scope.
Implicit Types (m : Model num) (prop : Property num).

Lemma element_loops_no_mass_error m eids e :
  (element_masses m eids = Err e → e ≠ NoMassFound) ∧
  (∀ thickness nsm rho,
     shell_masses m thickness nsm rho eids = Err e → e ≠ NoMassFound) ∧
  (∀ prop nsm rho,
     bar_masses m prop nsm rho eids = Err e → e ≠ NoMassFound).
Proof.
  split_and!; intros *;
    apply (for_loop_Err_ind (λ e, e ≠ NoMassFound));
    intros acc eid e0; unfold get_element, attr;
    destruct (elements m !! eid) as [elem|]; simpl; try congruence.
  - destruct (e_Mass elem); simpl; congruence.
  - destruct (e_Area elem); simpl; congruence.
  - destruct (p_Area prop); simpl; [|congruence].
    destruct (e_Length elem); simpl; congruence.
Qed.

Lemma solid_loop_no_mass_error m msg contribution prop eids s e s' :
  solid_loop m msg contribution prop eids s = (Err e, s') → e ≠ NoMassFound.
Proof.
  apply (for_loopM_Err_ind (λ e, e ≠ NoMassFound)).
  intros xs eid st e0 st'. unfold bindM, lift, retM, note_skipped.
  unfold get_element. destruct (elements m !! eid) as [elem|]; [|congruence].
  case_decide.
  - unfold attr. destruct (e_Volume elem); congruence.
  - case_decide; congruence.
Qed.

Lemma property_masses_no_mass_error m prop eids s e s' :
  property_masses m prop eids s = (Err e, s') → e ≠ NoMassFound.
Proof.
  destruct (element_loops_no_mass_error m eids e) as (Hm & Hs & Hb).
  unfold property_masses. repeat case_decide; unfold lift, retM, bindM;
    try (intros [= Hr _]; revert Hr;
         unfold attr;
         repeat match goal with
         | |- context [match ?o with Some _ => _ | None => _ end] =>
             destruct o; simpl; try congruence
         end; eauto; fail).
  - unfold attr. destruct (p_Rho prop); [|congruence].
    apply solid_loop_no_mass_error.
  - congruence.
Qed.

Lemma mass_loop_no_mass_error m pid_eids s e s' :
  mass_loop m pid_eids s = (Err e, s') → e ≠ NoMassFound.
Proof.
  apply (for_loopM_Err_ind (λ e, e ≠ NoMassFound)).
  intros d [pid eids] st e0 st'. unfold bindM, lift, retM, get_property.
  destruct (properties m !! pid) as [prop|]; [|congruence].
  destruct (property_masses m prop eids st) as [[xs|e1] st1] eqn:Hf;
    [congruence|].
  intros [= <- <-]. by eapply property_masses_no_mass_error.
Qed.

Lemma mass_type_loop_no_mass_error m e :
  mass_type_loop m = Err e → e ≠ NoMassFound.
Proof.
  apply (for_loop_Err_ind (λ e, e ≠ NoMassFound)).
  intros mt [eid elem] e0. unfold attr.
  destruct (ms_Mass elem); simpl; [|congruence].
  destruct (mt !! ms_type elem); congruence.
Qed.

Lemma mass_type_loop_nonempty m mt :
  mass_type_loop m = Ok mt → masses m ≠ [] → mt ≠ ∅.
Proof.
  unfold mass_type_loop. intros Hloop Hne.
  set (d := ∅) in Hloop.
  assert (masses m ≠ [] ∨ d ≠ ∅) as Hor by (by left).
  clearbody d. clear Hne. revert d Hloop Hor.
  induction (masses m) as [|[eid elem] l IH]; intros d; simpl.
  - intros [= <-] [?|?]; done.
  - intros (d1 & Hbody & Hrest)%bind_Ok _. apply (IH _ Hrest). right.
    apply bind_Ok in Hbody as (mass & _ & Hd1).
    destruct (d !! ms_type elem); injection Hd1 as <-;
      apply insert_non_empty.
Qed.

(** C9.  [get_mass_breakdown] raises the no-mass error only when
    [stop_if_no_eids] is set, the model has no point mass and the loop
    over the selection ends with an empty mapping.  With at least one
    point mass in the model (whatever its [Mass()]) the call never
    raises that error, whatever [stop_if_no_eids] and [property_ids]
    are, and the mapping by mass type it returns is not empty and is the
    one built from all of [self.masses]. *)
Theorem point_masses_prevent_no_mass_error m property_ids stop_if_no_eids :
  ((get_mass_breakdown m property_ids stop_if_no_eids).1 = Err NoMassFound →
   stop_if_no_eids = true ∧ masses m = [] ∧
   ∃ pid_eids s,
     get_element_ids_dict_with_pids m property_ids (Some false)
       = Some pid_eids ∧
     mass_loop m pid_eids no_skips = (Ok ∅, s)) ∧
  (masses m ≠ [] →
   (get_mass_breakdown m property_ids stop_if_no_eids).1 ≠ Err NoMassFound ∧
   ∀ pm mt,
     (get_mass_breakdown m property_ids stop_if_no_eids).1 = Ok (pm, mt) →
     mt ≠ ∅ ∧ mass_type_loop m = Ok mt).
Proof.
  assert ((get_mass_breakdown m property_ids stop_if_no_eids).1
            = Err NoMassFound →
          stop_if_no_eids = true ∧ masses m = [] ∧
          ∃ pid_eids s,
            get_element_ids_dict_with_pids m property_ids (Some false)
              = Some pid_eids ∧
            mass_loop m pid_eids no_skips = (Ok ∅, s)) as Honly.
  { rewrite get_mass_breakdown_unfold.
    destruct (get_element_ids_dict_with_pids m property_ids (Some false))
      as [pid_eids|]; [|discriminate].
    destruct (mass_type_loop m) as [mt|e] eqn:Hmt.
    2:{ simpl. intros [= ->]. by apply mass_type_loop_no_mass_error in Hmt. }
    destruct (mass_loop m pid_eids no_skips) as [[pm|e] s] eqn:Hloop.
    2:{ simpl. intros [= ->]. by apply mass_loop_no_mass_error in Hloop. }
    simpl. destruct stop_if_no_eids; simpl; [|discriminate].
    destruct (size mt =? 0)%nat eqn:Hsmt; simpl; [|discriminate].
    destruct (size pm =? 0)%nat eqn:Hspm; simpl; [|discriminate].
    intros _. apply Nat.eqb_eq, map_size_empty_iff in Hsmt, Hspm. subst.
    split_and!; [done| |by eauto].
    destruct (masses m) as [|x l] eqn:Hm; [done|].
    exfalso. eapply (mass_type_loop_nonempty m ∅); [done | by rewrite Hm | done]. }
  split; [done|]. intros Hmasses. split.
  - intros Herr. by destruct (Honly Herr) as (_ & ? & _).
  - intros pm mt Hcall.
    destruct (get_mass_breakdown m property_ids stop_if_no_eids)
      as [r lg] eqn:Hcall'.
    simpl in Hcall. subst r.
    apply get_mass_breakdown_Ok in Hcall' as (? & ? & _ & Hmt & _).
    split; [|done]. by eapply mass_type_loop_nonempty.
Qed.
End NoMass.

(** ** Elements that a solid property skips *)

Section LogInvariant.
Context {E : Type}.

Lemma preserves_lift {A} (r : result E A) : preserves_log (lift r).
Proof. by intros s. Qed.

Lemma preserves_retM {A} (a : A) : preserves_log (retM (E:=E) a).
Proof. by intros s. Qed.

Lemma preserves_bindM {A B} (c : M E A) (k : A → M E B) :
  preserves_log c → (∀ a, preserves_log (k a)) → preserves_log (bindM c k).
Proof.
  intros Hc Hk s Hs. unfold bindM. specialize (Hc s Hs).
  destruct (c s) as [[a|e] s1]; simpl in *; [by apply Hk | done].
Qed.

Lemma preserves_for_loopM {A S} (body : S → A → M E S) xs s :
  (∀ s x, preserves_log (body s x)) → preserves_log (for_loopM body xs s).
Proof.
  intros Hbody. revert s. induction xs as [|x xs IH]; intros s; simpl.
  - apply preserves_retM.
  - apply preserves_bindM; [apply Hbody | apply IH].
Qed.

Lemma preserves_note_skipped msg key :
  preserves_log (note_skipped (E:=E) msg key).
Proof.
  intros s [Hnodup Hsub]. unfold note_skipped. case_decide as Hkey; [done|].
  split; simpl.
  - rewrite fmap_app. apply NoDup_app. split_and!; [done| |apply NoDup_singleton].
    intros k Hk ->%list_elem_of_singleton. by apply Hkey, Hsub.
  - intros k. rewrite fmap_app, elem_of_app. simpl.
    rewrite list_elem_of_singleton, elem_of_union, elem_of_singleton.
    intros [Hk| ->]; [right; by apply Hsub | by left].
Qed.
End LogInvariant.

Section Skip.
Context {num : Type} `{Number num}.
Local Open Scope num_scope.
Implicit Types (m : Model num) (prop : Property num).

Lemma preserves_solid_loop m msg contribution prop eids :
  preserves_log (solid_loop m msg contribution prop eids).
Proof.
  apply preserves_for_loopM. intros xs eid.
  apply preserves_bindM; [apply preserves_lift|]. intros elem.
  case_decide.
  - apply preserves_bindM; [apply preserves_lift|]. intros v.
    apply preserves_retM.
  - apply preserves_bindM; [apply preserves_note_skipped|]. intros _.
    apply preserves_retM.
Qed.

Lemma preserves_property_volumes m prop eids :
  preserves_log (property_volumes m prop eids).
Proof.
  unfold property_volumes.
  repeat case_decide;
    first [apply preserves_lift | apply preserves_retM
          | apply preserves_solid_loop].
Qed.

Lemma preserves_property_masses m prop eids :
  preserves_log (property_masses m prop eids).
Proof.
  unfold property_masses.
  repeat case_decide;
    try first [apply preserves_lift | apply preserves_retM].
  apply preserves_bindM; [apply preserves_lift|]. intros rho.
  apply preserves_solid_loop.
Qed.

Lemma preserves_breakdown_loop m f l d :
  (∀ prop eids, preserves_log (f prop eids)) →
  preserves_log (for_loopM (breakdown_body m f) l d).
Proof.
  intros Hf. apply preserves_for_loopM. intros d' [pid eids].
  apply preserves_bindM; [apply preserves_lift|]. intros prop.
  apply preserves_bindM; [apply Hf|]. intros xs. apply preserves_retM.
Qed.

Lemma log_inv_no_skips : log_inv no_skips.
Proof. split; simpl; [apply NoDup_nil_2 | by intros k ?%elem_of_nil]. Qed.

(** The summands of a solid property do not depend on the skipped
    elements, nor on what was logged before. *)
Lemma solid_loop_filter m msg contribution prop eids s s' :
  (solid_loop m msg contribution prop eids s).1 =
  (solid_loop m msg contribution prop
     (List.filter (supported_or_missing m) eids) s').1.
Proof.
  unfold solid_loop.
  match goal with |- context [for_loopM ?b _ _] => set (body := b) end.
  assert (∀ xs eid st,
    body xs eid st =
    match elements m !! eid with
    | None => (Err (KeyError eid), st)
    | Some elem =>
        if decide (e_type elem ∈ solid_elems) then
          match attr "Volume" (e_Volume elem) with
          | Ok v => (Ok (xs ++ [contribution v]), st)
          | Err e => (Err e, st)
          end
        else (Ok xs, (note_skipped (E:=error num) msg
                        (e_type elem, p_type prop) st).2)
    end) as Hstep.
  { intros xs eid st. unfold body, bindM, lift, retM, get_element.
    destruct (elements m !! eid) as [elem|]; [|done].
    case_decide; [done|]. unfold note_skipped. by case_decide. }
  clearbody body. generalize (@nil num) as xs. revert s s'.
  induction eids as [|eid eids IH]; intros s s' xs; simpl; [done|].
  unfold supported_or_missing at 1. unfold bindM at 1. rewrite Hstep.
  destruct (elements m !! eid) as [elem|] eqn:Helem.
  - case_decide as Hty.
    + rewrite bool_decide_eq_true_2 by done. simpl.
      unfold bindM at 1. rewrite Hstep, Helem, decide_True by done.
      destruct (attr "Volume" (e_Volume elem)) as [v|e]; [|done].
      apply IH.
    + rewrite bool_decide_eq_false_2 by done. apply IH.
  - simpl. unfold bindM at 1. by rewrite Hstep, Helem.
Qed.

Lemma property_volumes_filter m prop eids s s' :
  (property_volumes m prop eids s).1 =
  (property_volumes m prop
     (if decide (p_type prop ∈ solid_props)
      then List.filter (supported_or_missing m) eids else eids) s').1.
Proof.
  case_decide as Hsolid; unfold property_volumes;
    repeat case_decide; try done; try tag_clash.
  apply solid_loop_filter.
Qed.

Lemma property_masses_filter m prop eids s s' :
  (property_masses m prop eids s).1 =
  (property_masses m prop
     (if decide (p_type prop ∈ solid_props)
      then List.filter (supported_or_missing m) eids else eids) s').1.
Proof.
  case_decide as Hsolid; unfold property_masses;
    repeat case_decide; try done; try tag_clash.
  unfold bindM, lift. destruct (attr "Rho" (p_Rho prop)); [|done].
  apply solid_loop_filter.
Qed.

Lemma breakdown_body_eq m f d pid eids s :
  breakdown_body m f d (pid, eids) s =
  match properties m !! pid with
  | None => (Err (KeyError pid), s)
  | Some prop =>
      match f prop eids s with
      | (Ok xs, s1) => (Ok (store_sum pid xs d), s1)
      | (Err e, s1) => (Err e, s1)
      end
  end.
Proof.
  unfold breakdown_body, bindM, lift, retM, get_property.
  by destruct (properties m !! pid).
Qed.

Lemma breakdown_loop_filter m f l d s s' :
  (∀ prop eids s s',
     (f prop eids s).1 =
     (f prop (if decide (p_type prop ∈ solid_props)
              then List.filter (supported_or_missing m) eids else eids)
        s').1) →
  (for_loopM (breakdown_body m f) l d s).1 =
  (for_loopM (breakdown_body m f) (map (without_skipped m) l) d s').1.
Proof.
  intros Hf. revert d s s'.
  induction l as [|[pid eids] l IH]; intros d s s'; [done|].
  rewrite map_cons. unfold without_skipped at 1.
  destruct (properties m !! pid) as [prop|] eqn:Hprop.
  - specialize (Hf prop eids s s').
    destruct (decide (p_type prop ∈ solid_props));
      rewrite !for_loopM_cons, !breakdown_body_eq, Hprop;
      destruct (f prop eids s) as [r s1]; simpl in Hf; subst r;
      match goal with
      | |- context [f prop ?l s'] => destruct (f prop l s') as [[xs|err] s1']
      end; simpl; try done; apply IH.
  - by rewrite !for_loopM_cons, !breakdown_body_eq, Hprop.
Qed.

(** C4.  An element of a solid property ([PSOLID], [PCOMPS], [PLSOLID])
    whose type is not [CTETRA], [CPENTA] or [CHEXA] is skipped by
    [get_volume_breakdown] and [get_mass_breakdown]: the outcome of the
    call, mapping or exception, is the one of the call on the selection
    without these elements.  No [(element type, property type)] key is
    logged twice during a call. *)
Theorem solid_elements_skipped m property_ids stop_if_no_eids :
  (get_volume_breakdown m property_ids).1 =
    (get_volume_breakdown (selection_without_skipped m) property_ids).1 ∧
  (get_mass_breakdown m property_ids stop_if_no_eids).1 =
    (get_mass_breakdown (selection_without_skipped m) property_ids
       stop_if_no_eids).1 ∧
  NoDup (get_volume_breakdown m property_ids).2.*2 ∧
  NoDup (get_mass_breakdown m property_ids stop_if_no_eids).2.*2.
Proof.
  split_and!.
  - rewrite !get_volume_breakdown_unfold. simpl.
    destruct (get_element_ids_dict_with_pids m property_ids None)
      as [pid_eids|]; simpl; [|done].
    change (volume_loop (selection_without_skipped m)
              (map (without_skipped m) pid_eids) no_skips)
      with (for_loopM (breakdown_body m (property_volumes m))
              (map (without_skipped m) pid_eids) ∅ no_skips).
    change (volume_loop m pid_eids no_skips)
      with (for_loopM (breakdown_body m (property_volumes m))
              pid_eids ∅ no_skips).
    pose proof (breakdown_loop_filter m (property_volumes m) pid_eids ∅
                  no_skips no_skips (property_volumes_filter m)) as Heq.
    destruct (for_loopM _ pid_eids ∅ no_skips) as [r s].
    destruct (for_loopM _ (map _ pid_eids) ∅ no_skips) as [r' s'].
    done.
  - rewrite !get_mass_breakdown_unfold. simpl.
    destruct (get_element_ids_dict_with_pids m property_ids (Some false))
      as [pid_eids|]; simpl; [|done].
    change (mass_type_loop (selection_without_skipped m))
      with (mass_type_loop m).
    destruct (mass_type_loop m) as [mt|]; [|done].
    change (mass_loop (selection_without_skipped m)
              (map (without_skipped m) pid_eids) no_skips)
      with (for_loopM (breakdown_body m (property_masses m))
              (map (without_skipped m) pid_eids) ∅ no_skips).
    change (mass_loop m pid_eids no_skips)
      with (for_loopM (breakdown_body m (property_masses m))
              pid_eids ∅ no_skips).
    pose proof (breakdown_loop_filter m (property_masses m) pid_eids ∅
                  no_skips no_skips (property_masses_filter m)) as Heq.
    destruct (for_loopM _ pid_eids ∅ no_skips) as [r s].
    destruct (for_loopM _ (map _ pid_eids) ∅ no_skips) as [r' s'].
    simpl in Heq. subst r'. by destruct r.
  - rewrite get_volume_breakdown_unfold.
    destruct (get_element_ids_dict_with_pids m property_ids None)
      as [pid_eids|]; simpl; [|apply NoDup_nil_2].
    pose proof (preserves_breakdown_loop m (property_volumes m) pid_eids ∅
                  (preserves_property_volumes m) no_skips log_inv_no_skips)
      as [Hnodup _].
    change (volume_loop m pid_eids no_skips)
      with (for_loopM (breakdown_body m (property_volumes m))
              pid_eids ∅ no_skips).
    by destruct (for_loopM _ pid_eids ∅ no_skips) as [r s].
  - rewrite get_mass_breakdown_unfold.
    destruct (get_element_ids_dict_with_pids m property_ids (Some false))
      as [pid_eids|]; simpl; [|apply NoDup_nil_2].
    destruct (mass_type_loop m) as [mt|]; [|apply NoDup_nil_2].
    pose proof (preserves_breakdown_loop m (property_masses m) pid_eids ∅
                  (preserves_property_masses m) no_skips log_inv_no_skips)
      as [Hnodup _].
    change (mass_loop m pid_eids no_skips)
      with (for_loopM (breakdown_body m (property_masses m))
              pid_eids ∅ no_skips).
    destruct (for_loopM _ pid_eids ∅ no_skips) as [[pm|e] s]; [|done].
    by destruct (_ && _).
Qed.
End Skip.

(** ** The two mass-properties entry points *)

Module MassPropsFacts.
Import MassProps.

Section Facts.
Context {num : Type} `{Number num}.

(** C8.  With the id of a node of the model as [reference_point],
    [mass_properties] returns what it returns with that node's resolved
    global position as [reference_point]; without a [reference_point] it
    returns what it returns with the zero vector. *)
Theorem reference_point_node_or_default
    init mp sym (self : BDF num) element_ids mass_ids sym_axis scale
    nid node position :
  nodes self !! nid = Some node →
  get_position node = Ok position →
  mass_properties init mp sym self element_ids mass_ids
    (Some (RefInt nid)) sym_axis scale =
  mass_properties init mp sym self element_ids mass_ids
    (Some (RefArray position)) sym_axis scale ∧
  mass_properties init mp sym self element_ids mass_ids None sym_axis scale =
  mass_properties init mp sym self element_ids mass_ids
    (Some (RefArray (nzero, nzero, nzero))) sym_axis scale.
Proof.
  intros Hnode Hpos. split; [|done].
  unfold mass_properties, get_node. rewrite Hnode. simpl.
  by rewrite Hpos.
Qed.
End Facts.
End MassPropsFacts.

(** ** More on the sums the breakdowns report *)

Section MoreSums.
Context {num : Type} `{Number num}.
Local Open Scope num_scope.
Implicit Types (m : Model num) (prop : Property num).

Lemma property_areas_shell m sum_bar_area prop eids :
  p_type prop ∈ shell_props →
  property_areas m sum_bar_area prop eids = element_areas m eids.
Proof.
  intros Hty. unfold property_areas.
  repeat case_decide; try done; tag_clash.
Qed.

(** X1.  Areas.  For a shell-like property of the selection, and for a line
    property when [sum_bar_area] is set, [get_area_breakdown] reports the
    sum of the [Area()] of its elements; a property without elements has
    no entry. *)
Theorem area_breakdown_sums
    m property_ids sum_bar_area pid_eids pid eids prop pa :
  get_element_ids_dict_with_pids m property_ids None = Some pid_eids →
  NoDup pid_eids.*1 → (pid, eids) ∈ pid_eids →
  properties m !! pid = Some prop →
  p_type prop ∈ shell_props ∨
    (p_type prop ∈ line_props ∧ sum_bar_area = true) →
  get_area_breakdown m property_ids sum_bar_area = Ok pa →
  ∃ areas,
    Forall2 (element_has m e_Area) eids areas ∧ pa !! pid = reported areas.
Proof.
  intros Hsel Hnodup Hin Hprop Hty Hcall.
  destruct (area_entry _ _ _ _ _ _ _ _ Hsel Hnodup Hin Hprop Hcall)
    as (xs & Hf & Hpa).
  destruct Hty as [Hty|[Hty ->]].
  - rewrite property_areas_shell in Hf by done.
    apply element_areas_Ok in Hf. by exists xs.
  - rewrite property_areas_line in Hf by done.
    apply bar_areas_Ok in Hf as (areas & Hareas & ->). by exists areas.
Qed.

Lemma property_volumes_shell m prop eids :
  p_type prop ∈ ["PSHELL"; "PSHEAR"] →
  property_volumes m prop eids =
  lift (let! thickness := attr "t" (p_t prop) in
        let! areas := element_areas m eids in
        Ok (map (λ area, area * thickness) areas)).
Proof.
  intros Hty. unfold property_volumes.
  repeat case_decide; try done; tag_clash.
Qed.

Lemma property_volumes_comp m prop eids :
  p_type prop ∈ comp_props →
  property_volumes m prop eids =
  lift (let! areas := element_areas m eids in
        let! thickness := attr "Thickness" (p_Thickness prop) in
        Ok (map (λ area, area * thickness) areas)).
Proof.
  intros Hty. unfold property_volumes.
  repeat case_decide; try done; tag_clash.
Qed.

(** X2.  Shell volumes.  For a [PSHELL] or [PSHEAR] property of the selection
    [get_volume_breakdown] reports the sum over its elements of
    [area * t]; for a [PCOMP] or [PCOMPG] property, of
    [area * Thickness()]. *)
Theorem shell_volumes m property_ids pid_eids pid eids prop pv lg :
  get_element_ids_dict_with_pids m property_ids None = Some pid_eids →
  NoDup pid_eids.*1 → (pid, eids) ∈ pid_eids →
  properties m !! pid = Some prop →
  get_volume_breakdown m property_ids = (Ok pv, lg) →
  (p_type prop ∈ ["PSHELL"; "PSHEAR"] →
   ∃ thickness areas,
     p_t prop = Some thickness ∧
     Forall2 (element_has m e_Area) eids areas ∧
     pv !! pid = reported (map (λ area, area * thickness) areas)) ∧
  (p_type prop ∈ comp_props →
   ∃ thickness areas,
     p_Thickness prop = Some thickness ∧
     Forall2 (element_has m e_Area) eids areas ∧
     pv !! pid = reported (map (λ area, area * thickness) areas)).
Proof.
  intros Hsel Hnodup Hin Hprop Hcall.
  destruct (volume_entry _ _ _ _ _ _ _ _ Hsel Hnodup Hin Hprop Hcall)
    as (xs & s1 & s2 & Hf & Hpv).
  split; intros Hty.
  - rewrite property_volumes_shell in Hf by done.
    apply lift_Ok in Hf as [Hf _].
    apply bind_Ok in Hf as (thickness & Ht%attr_Ok & Hf).
    apply bind_Ok in Hf as (areas & Hareas%element_areas_Ok & [= <-]).
    by exists thickness, areas.
  - rewrite property_volumes_comp in Hf by done.
    apply lift_Ok in Hf as [Hf _].
    apply bind_Ok in Hf as (areas & Hareas%element_areas_Ok & Hf).
    apply bind_Ok in Hf as (thickness & Ht%attr_Ok & [= <-]).
    by exists thickness, areas.
Qed.
End MoreSums.

(** ** Solid properties *)

Section Solids.
Context {num : Type} `{Number num}.
Local Open Scope num_scope.
Implicit Types (m : Model num) (prop : Property num).

(** What the loop over the elements of a solid property returns: the
    contributions of the elements of a supported type, all the elements
    being in the model. *)
Lemma solid_loop_Ok m msg contribution prop eids s xs s' :
  solid_loop m msg contribution prop eids s = (Ok xs, s') →
  ∃ volumes,
    Forall2 (element_has m e_Volume)
      (List.filter (supported_or_missing m) eids) volumes ∧
    xs = map contribution volumes ∧
    Forall (λ eid, is_Some (elements m !! eid)) eids.
Proof.
  unfold solid_loop.
  match goal with |- context [for_loopM ?b _ _] => set (body := b) end.
  assert (∀ xs eid st,
    body xs eid st =
    match elements m !! eid with
    | None => (Err (KeyError eid), st)
    | Some elem =>
        if decide (e_type elem ∈ solid_elems) then
          match attr "Volume" (e_Volume elem) with
          | Ok v => (Ok (xs ++ [contribution v]), st)
          | Err e => (Err e, st)
          end
        else (Ok xs, (note_skipped (E:=error num) msg
                        (e_type elem, p_type prop) st).2)
    end) as Hstep.
  { intros ys eid st. unfold body, bindM, lift, retM, get_element.
    destruct (elements m !! eid) as [elem|]; [|done].
    case_decide; [done|]. unfold note_skipped. by case_decide. }
  clearbody body.
  assert (∀ acc,
    for_loopM body eids acc s = (Ok xs, s') →
    ∃ volumes,
      Forall2 (element_has m e_Volume)
        (List.filter (supported_or_missing m) eids) volumes ∧
      xs = acc ++ map contribution volumes ∧
      Forall (λ eid, is_Some (elements m !! eid)) eids) as Hgen.
  { revert s. induction eids as [|eid eids IH]; intros s acc.
    - simpl. intros [= <- <-]. exists []. split_and!; [constructor| |constructor].
      by rewrite app_nil_r.
    - rewrite for_loopM_cons, Hstep. simpl.
      unfold supported_or_missing at 1.
      destruct (elements m !! eid) as [elem|] eqn:Helem; [|discriminate].
      case_decide as Hty.
      + rewrite bool_decide_eq_true_2 by done.
        destruct (e_Volume elem) as [v|] eqn:Hv; simpl; [|discriminate].
        intros (vs & Hvs & -> & Hall)%IH.
        exists (v :: vs). split_and!.
        * constructor; [by exists elem | done].
        * simpl. by rewrite <- app_assoc.
        * constructor; [by rewrite Helem | done].
      + rewrite bool_decide_eq_false_2 by done.
        intros (vs & Hvs & -> & Hall)%IH.
        exists vs. split_and!; [done..|].
        constructor; [by rewrite Helem | done]. }
  intros Hloop. destruct (Hgen [] Hloop) as (vs & ? & -> & ?). by exists vs.
Qed.

Lemma property_volumes_solid m prop eids :
  p_type prop ∈ solid_props →
  property_volumes m prop eids =
  solid_loop m "skipping volume" (λ v, v) prop eids.
Proof.
  intros Hty. unfold property_volumes.
  repeat case_decide; try done; tag_clash.
Qed.

Lemma property_masses_solid m prop eids :
  p_type prop ∈ solid_props →
  property_masses m prop eids =
  (let* rho := lift (attr "Rho" (p_Rho prop)) in
   solid_loop m "skipping mass" (λ v, rho * v) prop eids).
Proof.
  intros Hty. unfold property_masses.
  repeat case_decide; try done; tag_clash.
Qed.

(** X3.  Solids.  For a solid property of the selection
    [get_volume_breakdown] reports the sum of the [Volume()] of its
    [CTETRA], [CPENTA] and [CHEXA] elements, and [get_mass_breakdown] the
    sum of [rho * Volume()] over the same elements; its other elements
    are only required to be in the model. *)
Theorem solid_volume_and_mass m property_ids pid eids prop :
  properties m !! pid = Some prop →
  p_type prop ∈ solid_props →
  (∀ pid_eids pv lg,
     get_element_ids_dict_with_pids m property_ids None = Some pid_eids →
     NoDup pid_eids.*1 → (pid, eids) ∈ pid_eids →
     get_volume_breakdown m property_ids = (Ok pv, lg) →
     ∃ volumes,
       Forall2 (element_has m e_Volume)
         (List.filter (supported_or_missing m) eids) volumes ∧
       Forall (λ eid, is_Some (elements m !! eid)) eids ∧
       pv !! pid = reported volumes) ∧
  (∀ stop_if_no_eids pid_eids pm mt lg,
     get_element_ids_dict_with_pids m property_ids (Some false)
       = Some pid_eids →
     NoDup pid_eids.*1 → (pid, eids) ∈ pid_eids →
     get_mass_breakdown m property_ids stop_if_no_eids = (Ok (pm, mt), lg) →
     ∃ rho volumes,
       p_Rho prop = Some rho ∧
       Forall2 (element_has m e_Volume)
         (List.filter (supported_or_missing m) eids) volumes ∧
       Forall (λ eid, is_Some (elements m !! eid)) eids ∧
       pm !! pid = reported (map (λ volume, rho * volume) volumes)).
Proof.
  intros Hprop Hty. split.
  - intros pid_eids pv lg Hsel Hnodup Hin Hcall.
    destruct (volume_entry _ _ _ _ _ _ _ _ Hsel Hnodup Hin Hprop Hcall)
      as (xs & s1 & s2 & Hf & Hpv).
    rewrite property_volumes_solid in Hf by done.
    apply solid_loop_Ok in Hf as (vs & Hvs & -> & Hall).
    exists vs. rewrite map_id in Hpv. done.
  - intros stop pid_eids pm mt lg Hsel Hnodup Hin Hcall.
    destruct (mass_entry _ _ _ _ _ _ _ _ _ _ Hsel Hnodup Hin Hprop Hcall)
      as (xs & s1 & s2 & Hf & Hpm).
    rewrite property_masses_solid in Hf by done.
    apply bindM_Ok in Hf as (rho & s3 & [Hrho%attr_Ok _]%lift_Ok & Hf).
    apply solid_loop_Ok in Hf as (vs & Hvs & -> & Hall).
    by exists rho, vs.
Qed.
End Solids.

(** ** More on [get_mass_breakdown] *)

Section PointMassSums.
Context {num : Type} `{Number num}.
Local Open Scope num_scope.
Implicit Types (m : Model num) (prop : Property num).

Lemma mass_type_loop_lookup m mt ty :
  mass_type_loop m = Ok mt → mt !! ty = added (masses_of_type m ty).
Proof.
  unfold mass_type_loop, masses_of_type. intros Hloop.
  set (d := ∅) in Hloop.
  assert (mt !! ty =
          match d !! ty with
          | Some v =>
              Some (fold_left nadd
                      (omap (λ item : Z * MassElement num,
                               if decide (ms_type item.2 = ty)
                               then ms_Mass item.2 else None) (masses m)) v)
          | None =>
              added (omap (λ item : Z * MassElement num,
                             if decide (ms_type item.2 = ty)
                             then ms_Mass item.2 else None) (masses m))
          end) as Hgen.
  2:{ rewrite Hgen. unfold d. by rewrite lookup_empty. }
  clearbody d. revert d Hloop.
  induction (masses m) as [|[eid elem] l IH]; intros d; simpl.
  - intros [= <-]. by destruct (d !! ty).
  - intros (d1 & Hbody & Hrest)%bind_Ok.
    apply bind_Ok in Hbody as (mass & Hmass%attr_Ok & Hd1).
    rewrite (IH _ Hrest). case_decide as Hty.
    + subst ty. rewrite Hmass. simpl.
      destruct (d !! ms_type elem); injection Hd1 as <-;
        by rewrite lookup_insert_eq.
    + assert (d1 !! ty = d !! ty) as ->; [|done].
      destruct (d !! ms_type elem); injection Hd1 as <-;
        by rewrite lookup_insert_ne.
Qed.

(** X4.  Point masses.  The second mapping that [get_mass_breakdown] returns
    holds, for each type of point mass of the model, the [Mass()] of the
    point masses of that type added in iteration order, and no other
    key. *)
Theorem mass_type_sums m property_ids stop_if_no_eids pm mt lg ty :
  get_mass_breakdown m property_ids stop_if_no_eids = (Ok (pm, mt), lg) →
  mt !! ty = added (masses_of_type m ty).
Proof.
  intros (? & ? & _ & Hmt & _)%get_mass_breakdown_Ok.
  by apply mass_type_loop_lookup.
Qed.

(** X5.  The flag.  [stop_if_no_eids] changes the outcome of
    [get_mass_breakdown] only when the call without it returns two empty
    mappings: then the call with it raises the no-mass error, after the
    same log lines; otherwise both calls have the same outcome. *)
Theorem stop_if_no_eids_only_when_empty m property_ids :
  ((get_mass_breakdown m property_ids false).1 ≠ Ok (∅, ∅) →
   get_mass_breakdown m property_ids true
   = get_mass_breakdown m property_ids false) ∧
  ((get_mass_breakdown m property_ids false).1 = Ok (∅, ∅) →
   get_mass_breakdown m property_ids true
   = (Err NoMassFound, (get_mass_breakdown m property_ids false).2)).
Proof.
  rewrite !get_mass_breakdown_unfold.
  destruct (get_element_ids_dict_with_pids m property_ids (Some false))
    as [pid_eids|]; [|by split].
  destruct (mass_type_loop m) as [mt|]; [|by split].
  destruct (mass_loop m pid_eids no_skips) as [[pm|] s]; [|by split].
  simpl.
  destruct (size mt =? 0)%nat eqn:Hmt; simpl.
  - destruct (size pm =? 0)%nat eqn:Hpm; simpl.
    + apply Nat.eqb_eq, map_size_empty_iff in Hmt, Hpm. subst. by split.
    + split; [done|]. intros [= -> ->].
      by rewrite map_size_empty in Hpm.
  - split; [done|]. intros [= -> ->]. by rewrite map_size_empty in Hmt.
Qed.
End PointMassSums.

Section ExtIn.
Context {E A S : Type}.

Lemma for_loop_ext_in (body1 body2 : S → A → result E S) xs :
  (∀ s x, x ∈ xs → body1 s x = body2 s x) →
  ∀ s, for_loop body1 xs s = for_loop body2 xs s.
Proof.
  induction xs as [|x xs IH]; intros Hbody s; simpl; [done|].
  rewrite Hbody by apply list_elem_of_here.
  destruct (body2 s x); simpl; [|done].
  apply IH. intros s' y Hy. apply Hbody. by apply list_elem_of_further.
Qed.
End ExtIn.

Section BarFlag.
Context {num : Type} `{Number num}.
Implicit Types (m : Model num) (prop : Property num).

(** X6.  The flag of the areas.  [sum_bar_area] changes nothing for a
    selection whose line properties have at most one element each. *)
Theorem sum_bar_area_only_for_lines m property_ids pid_eids :
  get_element_ids_dict_with_pids m property_ids None = Some pid_eids →
  (∀ pid (eids : list Z) prop,
     (pid, eids) ∈ pid_eids → properties m !! pid = Some prop →
     p_type prop ∈ line_props → (List.length eids ≤ 1)%nat) →
  get_area_breakdown m property_ids true
  = get_area_breakdown m property_ids false.
Proof.
  intros Hsel Hlines. rewrite !get_area_breakdown_unfold, Hsel.
  unfold area_loop. apply for_loop_ext_in.
  intros d [pid eids] Hin. unfold get_property.
  destruct (properties m !! pid) as [prop|] eqn:Hprop; simpl; [|done].
  assert (property_areas m true prop eids = property_areas m false prop eids)
    as ->; [|done].
  unfold property_areas. repeat case_decide; try done.
  specialize (Hlines _ _ _ Hin Hprop ltac:(done)).
  destruct eids as [|eid [|eid' eids]]; simpl in *; [done| |lia].
  unfold bar_areas. simpl.
  destruct (get_element m eid) as [elem|]; simpl; [|done].
  by destruct (attr "Area" (e_Area elem)).
Qed.
End BarFlag.

(** ** Unknown property ids *)

Section UnknownProperty.
Context {num : Type} `{Number num}.
Local Open Scope num_scope.
Implicit Types (m : Model num) (prop : Property num).

Lemma breakdown_loop_unknown m f pre pid eids post d st :
  properties m !! pid = None →
  ∃ e' st',
    for_loopM (breakdown_body m f) (pre ++ (pid, eids) :: post) d st
    = (Err e', st') ∧
    (e' = KeyError pid ∨
     for_loopM (breakdown_body m f) pre d st = (Err e', st')).
Proof.
  intros Hprop. rewrite for_loopM_app. unfold bindM at 1.
  destruct (for_loopM (breakdown_body m f) pre d st) as [[d1|e1] st1].
  - exists (KeyError pid), st1. split; [|by left].
    by rewrite for_loopM_cons, breakdown_body_eq, Hprop.
  - exists e1, st1. split; [done | by right].
Qed.

(** X7.  A property id of the selection that is not in [self.properties]
    makes each of the three breakdowns raise: the call never returns a
    mapping, and the exception is [KeyError(pid)] unless an exception was
    raised before the loop reached that id. *)
Theorem unknown_property_raises
    m property_ids sum_bar_area stop_if_no_eids pre pid eids post :
  properties m !! pid = None →
  (get_element_ids_dict_with_pids m property_ids None
     = Some (pre ++ (pid, eids) :: post) →
   (∃ e, get_area_breakdown m property_ids sum_bar_area = Err e ∧
         (e = KeyError pid ∨ area_loop m sum_bar_area pre = Err e)) ∧
   (∃ e lg, get_volume_breakdown m property_ids = (Err e, lg) ∧
            (e = KeyError pid ∨ (volume_loop m pre no_skips).1 = Err e))) ∧
  (get_element_ids_dict_with_pids m property_ids (Some false)
     = Some (pre ++ (pid, eids) :: post) →
   ∃ e lg, get_mass_breakdown m property_ids stop_if_no_eids = (Err e, lg) ∧
           (e = KeyError pid ∨ mass_type_loop m = Err e ∨
            (mass_loop m pre no_skips).1 = Err e)).
Proof.
  intros Hprop. split.
  - intros Hsel. split.
    + rewrite get_area_breakdown_unfold, Hsel. unfold area_loop.
      rewrite for_loop_app.
      destruct (for_loop _ pre ∅) as [d1|e1]; simpl.
      * exists (KeyError pid). split; [|by left].
        unfold get_property. by rewrite Hprop.
      * exists e1. split; [done | by right].
    + rewrite get_volume_breakdown_unfold, Hsel.
      destruct (breakdown_loop_unknown m (property_volumes m) pre pid eids
                  post ∅ no_skips Hprop) as (e & st & Hloop & Hwhy).
      change (volume_loop m (pre ++ (pid, eids) :: post) no_skips)
        with (for_loopM (breakdown_body m (property_volumes m))
                (pre ++ (pid, eids) :: post) ∅ no_skips).
      rewrite Hloop. exists e, (log st). split; [done|].
      destruct Hwhy as [->|Hpre]; [by left | right].
      change (volume_loop m pre no_skips)
        with (for_loopM (breakdown_body m (property_volumes m))
                pre ∅ no_skips).
      by rewrite Hpre.
  - intros Hsel. rewrite get_mass_breakdown_unfold, Hsel.
    destruct (mass_type_loop m) as [mt|e0]; [|by eauto 10].
    destruct (breakdown_loop_unknown m (property_masses m) pre pid eids
                post ∅ no_skips Hprop) as (e & st & Hloop & Hwhy).
    change (mass_loop m (pre ++ (pid, eids) :: post) no_skips)
      with (for_loopM (breakdown_body m (property_masses m))
              (pre ++ (pid, eids) :: post) ∅ no_skips).
    rewrite Hloop. exists e, (log st). split; [done|].
    destruct Hwhy as [->|Hpre]; [by left | right; right].
    change (mass_loop m pre no_skips)
      with (for_loopM (breakdown_body m (property_masses m))
              pre ∅ no_skips).
    by rewrite Hpre.
Qed.

Lemma element_has_functional m method eids (xs ys : list num) :
  Forall2 (element_has m method) eids xs →
  Forall2 (element_has m method) eids ys → xs = ys.
Proof.
  intros Hxs. revert ys.
  induction Hxs as [|eid x eids xs (elem & Helem & Hx) _ IH];
    intros ys Hys; inversion Hys as [|? y ? ys' (elem' & Helem' & Hy) Hys'];
    subst; [done|].
  f_equal; [congruence | by apply IH].
Qed.

Lemma sum_map_mul_r (t : num) (xs : list num) :
  (∀ x y z : num, (x + y) * z = x * z + y * z) →
  (∀ z : num, nzero * z = nzero) →
  sum (map (λ x, x * t) xs) = sum xs * t.
Proof.
  intros Hdistr Hzero. induction xs as [|x xs IH] using rev_ind.
  - unfold sum. simpl. by rewrite Hzero.
  - rewrite map_app. change (map (λ x, x * t) [x]) with [x * t].
    by rewrite !sum_from_app, IH, Hdistr.
Qed.

(** X8.  Area and volume.  For a [PSHELL] or [PSHEAR] property of the
    selection, the volume that [get_volume_breakdown] reports is the area
    that [get_area_breakdown] reports times the thickness [t] of the
    property (multiplication distributing over addition); the property is
    in both mappings or in neither. *)
Theorem shell_volume_is_area_times_thickness
    m property_ids sum_bar_area pid_eids pid eids prop pa pv lg :
  (∀ x y z : num, (x + y) * z = x * z + y * z) →
  (∀ z : num, nzero * z = nzero) →
  get_element_ids_dict_with_pids m property_ids None = Some pid_eids →
  NoDup pid_eids.*1 → (pid, eids) ∈ pid_eids →
  properties m !! pid = Some prop →
  p_type prop ∈ ["PSHELL"; "PSHEAR"] →
  get_area_breakdown m property_ids sum_bar_area = Ok pa →
  get_volume_breakdown m property_ids = (Ok pv, lg) →
  ∃ thickness,
    p_t prop = Some thickness ∧
    pv !! pid = (λ area, area * thickness) <$> pa !! pid.
Proof.
  intros Hdistr Hzero Hsel Hnodup Hin Hprop Hty Harea Hvolume.
  destruct (area_entry _ _ _ _ _ _ _ _ Hsel Hnodup Hin Hprop Harea)
    as (areas & Hareas & Hpa).
  rewrite property_areas_shell in Hareas
    by (revert Hty; apply tags_subset; vm_compute; reflexivity).
  apply element_areas_Ok in Hareas.
  destruct (volume_entry _ _ _ _ _ _ _ _ Hsel Hnodup Hin Hprop Hvolume)
    as (volumes & s1 & s2 & Hvolumes & Hpv).
  rewrite property_volumes_shell in Hvolumes by done.
  apply lift_Ok in Hvolumes as [Hvolumes _].
  apply bind_Ok in Hvolumes as (thickness & Ht%attr_Ok & Hvolumes).
  apply bind_Ok in Hvolumes
    as (areas' & Hareas'%element_areas_Ok & [= <-]).
  rewrite (element_has_functional _ _ _ _ _ Hareas' Hareas) in Hpv.
  exists thickness. split; [done|]. rewrite Hpv, Hpa.
  destruct areas as [|a areas]; [done|]. simpl. f_equal.
  change (a * thickness :: map (λ area, area * thickness) areas)
    with (map (λ area, area * thickness) (a :: areas)).
  by apply sum_map_mul_r.
Qed.
End UnknownProperty.

(** ** What is logged *)

Section Invariants.
Context {E : Type} (I : SkipState → Prop).

Lemma preserves_inv_lift {A} (r : result E A) : preserves_inv I (lift r).
Proof. by intros s. Qed.

Lemma preserves_inv_retM {A} (a : A) : preserves_inv I (retM (E:=E) a).
Proof. by intros s. Qed.

Lemma preserves_inv_bindM {A B} (c : M E A) (k : A → M E B) :
  preserves_inv I c → (∀ a, preserves_inv I (k a)) →
  preserves_inv I (bindM c k).
Proof.
  intros Hc Hk s Hs. unfold bindM. specialize (Hc s Hs).
  destruct (c s) as [[a|e] s1]; simpl in *; [by apply Hk | done].
Qed.

Lemma preserves_inv_for_loopM {A S} (body : S → A → M E S) xs :
  (∀ s x, x ∈ xs → preserves_inv I (body s x)) →
  ∀ s, preserves_inv I (for_loopM body xs s).
Proof.
  induction xs as [|x xs IH]; intros Hbody s; simpl.
  - apply preserves_inv_retM.
  - apply preserves_inv_bindM.
    + apply Hbody, list_elem_of_here.
    + intros s'. apply IH. intros s'' y Hy.
      by apply Hbody, list_elem_of_further.
Qed.
End Invariants.

Section Log.
Context {num : Type} `{Number num}.
Local Open Scope num_scope.
Implicit Types (m : Model num) (prop : Property num).

Lemma solid_loop_body m msg contribution prop eids :
  solid_loop m msg contribution prop eids =
  for_loopM (solid_body m msg contribution prop) eids [].
Proof. reflexivity. Qed.

Lemma solid_body_eq m msg contribution prop xs eid st :
  solid_body m msg contribution prop xs eid st =
  match elements m !! eid with
  | None => (Err (KeyError eid), st)
  | Some elem =>
      if decide (e_type elem ∈ solid_elems) then
        match attr "Volume" (e_Volume elem) with
        | Ok v => (Ok (xs ++ [contribution v]), st)
        | Err e => (Err e, st)
        end
      else (Ok xs, (note_skipped (E:=error num) msg
                      (e_type elem, p_type prop) st).2)
  end.
Proof.
  unfold solid_body, bindM, lift, retM, get_element.
  destruct (elements m !! eid) as [elem|]; [|done].
  case_decide; [done|]. unfold note_skipped. by case_decide.
Qed.

(** Only [note_skipped] touches the set and the log. *)
Lemma preserves_inv_solid_from I m msg contribution prop eids acc :
  (∀ eid elem,
     eid ∈ eids → elements m !! eid = Some elem →
     e_type elem ∉ solid_elems →
     preserves_inv I (note_skipped (E:=error num) msg
                        (e_type elem, p_type prop))) →
  preserves_inv I (for_loopM (solid_body m msg contribution prop) eids acc).
Proof.
  intros Hnote. apply preserves_inv_for_loopM.
  intros xs eid Heid s Hs. rewrite solid_body_eq.
  destruct (elements m !! eid) as [elem|] eqn:Helem; [|done].
  case_decide; [by destruct (attr _ _)|]. simpl. by eapply Hnote.
Qed.

Lemma preserves_inv_solid_loop I m msg contribution prop eids :
  (∀ eid elem,
     eid ∈ eids → elements m !! eid = Some elem →
     e_type elem ∉ solid_elems →
     preserves_inv I (note_skipped (E:=error num) msg
                        (e_type elem, p_type prop))) →
  preserves_inv I (solid_loop m msg contribution prop eids).
Proof. rewrite solid_loop_body. apply preserves_inv_solid_from. Qed.

Lemma preserves_inv_property_volumes I m prop eids :
  (p_type prop ∈ solid_props →
   ∀ eid elem,
     eid ∈ eids → elements m !! eid = Some elem →
     e_type elem ∉ solid_elems →
     preserves_inv I (note_skipped (E:=error num) "skipping volume"
                        (e_type elem, p_type prop))) →
  preserves_inv I (property_volumes m prop eids).
Proof.
  intros Hnote. unfold property_volumes.
  repeat case_decide;
    try first [apply preserves_inv_lift | apply preserves_inv_retM].
  by apply preserves_inv_solid_loop, Hnote.
Qed.

Lemma preserves_inv_property_masses I m prop eids :
  (p_type prop ∈ solid_props →
   ∀ eid elem,
     eid ∈ eids → elements m !! eid = Some elem →
     e_type elem ∉ solid_elems →
     preserves_inv I (note_skipped (E:=error num) "skipping mass"
                        (e_type elem, p_type prop))) →
  preserves_inv I (property_masses m prop eids).
Proof.
  intros Hnote. unfold property_masses.
  repeat case_decide;
    try first [apply preserves_inv_lift | apply preserves_inv_retM].
  apply preserves_inv_bindM; [apply preserves_inv_lift|]. intros rho.
  by apply preserves_inv_solid_loop, Hnote.
Qed.

Lemma preserves_inv_breakdown_loop I m f l d :
  (∀ pid eids prop,
     (pid, eids) ∈ l → properties m !! pid = Some prop →
     preserves_inv I (f prop eids)) →
  preserves_inv I (for_loopM (breakdown_body m f) l d).
Proof.
  intros Hf. apply preserves_inv_for_loopM.
  intros d' [pid eids] Hin s Hs. rewrite breakdown_body_eq.
  destruct (properties m !! pid) as [prop|] eqn:Hprop; [|done].
  specialize (Hf _ _ _ Hin Hprop s Hs).
  by destruct (f prop eids s) as [[xs|e] s1].
Qed.

(** [note_skipped] and the three invariants. *)
Lemma note_skipped_grows msg key line :
  preserves_inv (λ s, line ∈ log s) (note_skipped (E:=error num) msg key).
Proof.
  intros s Hline. unfold note_skipped. case_decide; [done|]. simpl.
  apply elem_of_app. by left.
Qed.

Lemma note_skipped_keeps_logged msg key :
  preserves_inv (skipped_logged msg) (note_skipped (E:=error num) msg key).
Proof.
  intros s Hs. unfold note_skipped. case_decide; [done|].
  intros k. simpl. rewrite elem_of_union, elem_of_singleton, elem_of_app.
  intros [->|Hk]; [right; by apply list_elem_of_singleton | left; by apply Hs].
Qed.

Lemma note_skipped_logs msg key s :
  skipped_logged msg s →
  (msg, key) ∈ log (note_skipped (E:=error num) msg key s).2.
Proof.
  intros Hs. unfold note_skipped. case_decide; [by apply Hs|]. simpl.
  apply elem_of_app. right. by apply list_elem_of_singleton.
Qed.

Lemma note_skipped_sound m pid_eids msg pid eids prop eid elem :
  (pid, eids) ∈ pid_eids → properties m !! pid = Some prop →
  p_type prop ∈ solid_props →
  eid ∈ eids → elements m !! eid = Some elem →
  e_type elem ∉ solid_elems →
  preserves_inv (λ s, ∀ line, line ∈ log s → skipped_line m pid_eids msg line)
    (note_skipped (E:=error num) msg (e_type elem, p_type prop)).
Proof.
  intros ?????? s Hs. unfold note_skipped. case_decide; [done|]. simpl.
  intros line [Hline| ->%list_elem_of_singleton]%elem_of_app; [by apply Hs|].
  by exists pid, eids, prop, eid, elem.
Qed.

(** A skipped element is logged once the loop has gone past it. *)
Lemma solid_loop_logs m msg contribution prop eids s xs s' eid elem :
  solid_loop m msg contribution prop eids s = (Ok xs, s') →
  skipped_logged msg s →
  eid ∈ eids → elements m !! eid = Some elem →
  e_type elem ∉ solid_elems →
  (msg, (e_type elem, p_type prop)) ∈ log s'.
Proof.
  rewrite solid_loop_body. generalize (@nil num) as acc. revert s.
  induction eids as [|x eids IH]; intros s acc Hloop Hs Heid Helem Hty.
  - by apply elem_of_nil in Heid.
  - rewrite for_loopM_cons, solid_body_eq in Hloop.
    destruct (elements m !! x) as [elem0|] eqn:Hx; [|discriminate].
    apply elem_of_cons in Heid as [->|Heid].
    + rewrite Helem in Hx. injection Hx as <-.
      rewrite decide_False in Hloop by done.
      pose proof (preserves_inv_solid_from
        (λ s, (msg, (e_type elem, p_type prop)) ∈ log s)
        m msg contribution prop eids acc
        (λ _ _ _ _ _, note_skipped_grows _ _ _) _
        (note_skipped_logs msg (e_type elem, p_type prop) s Hs)) as Hgrow.
      by rewrite Hloop in Hgrow.
    + case_decide.
      * destruct (attr "Volume" (e_Volume elem0)); [|discriminate].
        by eapply IH.
      * eapply IH; [done| |done..].
        by apply note_skipped_keeps_logged.
Qed.

Lemma breakdown_loop_logs m f msg line l d s pm s' pid eids prop :
  (∀ prop eids, preserves_inv (skipped_logged msg) (f prop eids)) →
  (∀ prop eids, preserves_inv (λ s, line ∈ log s) (f prop eids)) →
  (∀ s xs s',
     f prop eids s = (Ok xs, s') → skipped_logged msg s → line ∈ log s') →
  for_loopM (breakdown_body m f) l d s = (Ok pm, s') →
  skipped_logged msg s →
  (pid, eids) ∈ l → properties m !! pid = Some prop →
  line ∈ log s'.
Proof.
  intros Hkeep Hgrow Htarget. revert d s.
  induction l as [|[pid' eids'] l IH]; intros d s Hloop Hs Hin Hprop.
  - by apply elem_of_nil in Hin.
  - rewrite for_loopM_cons, breakdown_body_eq in Hloop.
    destruct (properties m !! pid') as [prop'|] eqn:Hprop'; [|discriminate].
    destruct (f prop' eids' s) as [[xs|e] s1] eqn:Hf; [|discriminate].
    apply elem_of_cons in Hin as [[= <- <-]|Hin].
    + rewrite Hprop in Hprop'. injection Hprop' as <-.
      pose proof (preserves_inv_breakdown_loop (λ s, line ∈ log s) m f l
                    (store_sum pid xs d) (λ _ _ _ _ _, Hgrow _ _) s1
                    (Htarget _ _ _ Hf Hs)) as Hline.
      by rewrite Hloop in Hline.
    + eapply IH; [done| |done..].
      specialize (Hkeep prop' eids' s Hs). by rewrite Hf in Hkeep.
Qed.

Lemma skipped_logged_no_skips msg : skipped_logged msg no_skips.
Proof. intros key Hkey. simpl in Hkey. by apply not_elem_of_empty in Hkey. Qed.

(** X9.  The log.  When [get_volume_breakdown] returns, the lines it has
    logged are the lines ["skipping volume"] for the pairs (element type,
    property type) of the elements that the solid properties of the
    selection skip; when it raises, every logged line is still such a
    line.  The same holds for [get_mass_breakdown] with ["skipping
    mass"]. *)
Theorem skipped_elements_log m property_ids stop_if_no_eids :
  (∀ pid_eids,
     get_element_ids_dict_with_pids m property_ids None = Some pid_eids →
     (∀ line, line ∈ (get_volume_breakdown m property_ids).2 →
        skipped_line m pid_eids "skipping volume" line) ∧
     (∀ pv line,
        (get_volume_breakdown m property_ids).1 = Ok pv →
        skipped_line m pid_eids "skipping volume" line →
        line ∈ (get_volume_breakdown m property_ids).2)) ∧
  (∀ pid_eids,
     get_element_ids_dict_with_pids m property_ids (Some false)
       = Some pid_eids →
     (∀ line,
        line ∈ (get_mass_breakdown m property_ids stop_if_no_eids).2 →
        skipped_line m pid_eids "skipping mass" line) ∧
     (∀ r line,
        (get_mass_breakdown m property_ids stop_if_no_eids).1 = Ok r →
        skipped_line m pid_eids "skipping mass" line →
        line ∈ (get_mass_breakdown m property_ids stop_if_no_eids).2)).
Proof.
  split; intros pid_eids Hsel.
  - rewrite get_volume_breakdown_unfold, Hsel.
    change (volume_loop m pid_eids no_skips)
      with (for_loopM (breakdown_body m (property_volumes m))
              pid_eids ∅ no_skips).
    split.
    + pose proof (preserves_inv_breakdown_loop
        (λ s, ∀ line, line ∈ log s →
                skipped_line m pid_eids "skipping volume" line)
        m (property_volumes m) pid_eids ∅) as Hsound.
      assert (∀ line,
        line ∈ log (for_loopM (breakdown_body m (property_volumes m))
                      pid_eids ∅ no_skips).2 →
        skipped_line m pid_eids "skipping volume" line) as Hlog.
      { apply Hsound.
        - intros pid eids prop Hin Hprop.
          apply preserves_inv_property_volumes. intros Hty eid elem ???.
          by eapply note_skipped_sound.
        - simpl. by intros line ?%elem_of_nil. }
      by destruct (for_loopM _ pid_eids ∅ no_skips) as [r s].
    + intros pv line Hok (pid & eids & prop & eid & elem & Hin & Hprop &
                          Hty & Heid & Helem & Hskip & ->).
      destruct (for_loopM _ pid_eids ∅ no_skips) as [r s] eqn:Hloop.
      simpl in *. subst r.
      eapply (breakdown_loop_logs m (property_volumes m) "skipping volume");
        [| | |exact Hloop|apply skipped_logged_no_skips|exact Hin|exact Hprop].
      * intros prop' eids'. apply preserves_inv_property_volumes.
        intros. apply note_skipped_keeps_logged.
      * intros prop' eids'. apply preserves_inv_property_volumes.
        intros. apply note_skipped_grows.
      * intros s1 xs s2 Hf Hs1.
        rewrite property_volumes_solid in Hf by done.
        by eapply solid_loop_logs.
  - rewrite get_mass_breakdown_unfold, Hsel.
    destruct (mass_type_loop m) as [mt|e].
    2:{ simpl. split; [by intros line ?%elem_of_nil | discriminate]. }
    change (mass_loop m pid_eids no_skips)
      with (for_loopM (breakdown_body m (property_masses m))
              pid_eids ∅ no_skips).
    split.
    + pose proof (preserves_inv_breakdown_loop
        (λ s, ∀ line, line ∈ log s →
                skipped_line m pid_eids "skipping mass" line)
        m (property_masses m) pid_eids ∅) as Hsound.
      assert (∀ line,
        line ∈ log (for_loopM (breakdown_body m (property_masses m))
                      pid_eids ∅ no_skips).2 →
        skipped_line m pid_eids "skipping mass" line) as Hlog.
      { apply Hsound.
        - intros pid eids prop Hin Hprop.
          apply preserves_inv_property_masses. intros Hty eid elem ???.
          by eapply note_skipped_sound.
        - simpl. by intros line ?%elem_of_nil. }
      destruct (for_loopM _ pid_eids ∅ no_skips) as [[pm|e] s]; [|done].
      by destruct (_ && _).
    + intros r line Hok (pid & eids & prop & eid & elem & Hin & Hprop &
                         Hty & Heid & Helem & Hskip & ->).
      destruct (for_loopM _ pid_eids ∅ no_skips) as [[pm|e] s] eqn:Hloop;
        [|discriminate].
      assert (("skipping mass", (e_type elem, p_type prop)) ∈ log s) as Hline.
      { eapply (breakdown_loop_logs m (property_masses m) "skipping mass");
          [| | |exact Hloop|apply skipped_logged_no_skips|exact Hin
           |exact Hprop].
        - intros prop' eids'. apply preserves_inv_property_masses.
          intros. apply note_skipped_keeps_logged.
        - intros prop' eids'. apply preserves_inv_property_masses.
          intros. apply note_skipped_grows.
        - intros s1 xs s2 Hf Hs1.
          rewrite property_masses_solid in Hf by done.
          apply bindM_Ok in Hf as (rho & s3 & [_ ->]%lift_Ok & Hf).
          by eapply solid_loop_logs. }
      by destruct (_ && _).
Qed.
End Log.

(** ** The faces of the solid elements *)

Section Appending.
Context {E A B : Type}.

(** A loop whose body only appends to the list it is given. *)
Lemma for_loop_appends (body : list B → A → result E (list B)) :
  (∀ acc x, body acc x = (let! r := body [] x in Ok (acc ++ r))) →
  ∀ xs acc,
    for_loop body xs acc = (let! r := for_loop body xs [] in Ok (acc ++ r)).
Proof.
  intros Hbody. induction xs as [|x xs IH]; intros acc; simpl.
  - by rewrite app_nil_r.
  - rewrite (Hbody acc x). destruct (body [] x) as [r|e]; simpl; [|done].
    rewrite (IH (acc ++ r)), (IH r).
    destruct (for_loop body xs []) as [r'|e]; simpl; [|done].
    by rewrite app_assoc.
Qed.
End Appending.

Module FacesFacts.
Import Faces.

Lemma get_element_faces_loops self element_ids allow_blank_nids :
  get_element_faces self element_ids allow_blank_nids =
  for_loop (if allow_blank_nids then lax_body self else strict_body self)
    (default (Faces.element_ids self) element_ids) [].
Proof. by destruct element_ids, allow_blank_nids. Qed.

(** The loops over the faces of one element. *)
Lemma lax_faces_loop (eid : Z) (faces : list (Z * face)) acc :
  for_loop (λ eid_faces '(face_id, f), Ok (eid_faces ++ [(eid, f)]))
    faces acc
  = Ok (E:=error) (acc ++ ((λ item, (eid, item.2)) <$> faces)).
Proof.
  revert acc. induction faces as [|[fid f] faces IH]; intros acc; simpl.
  - by rewrite app_nil_r.
  - rewrite IH. by rewrite <- app_assoc.
Qed.

Lemma strict_faces_loop_ok (eid : Z) elem (faces : list (Z * face)) acc :
  Forall no_blank faces →
  for_loop (λ eid_faces '(face_id, f),
    if decide (None ∈ f) then Err (RuntimeError face_id f elem)
    else Ok (eid_faces ++ [(eid, f)])) faces acc
  = Ok (acc ++ ((λ item, (eid, item.2)) <$> faces)).
Proof.
  intros Hall. revert acc.
  induction Hall as [|[fid f] faces Hf _ IH]; intros acc; simpl.
  - by rewrite app_nil_r.
  - unfold no_blank in Hf. simpl in Hf. rewrite decide_False by done.
    simpl. rewrite IH. by rewrite <- app_assoc.
Qed.

Lemma strict_faces_loop_blank (eid : Z) elem (faces : list (Z * face)) acc :
  ¬ Forall no_blank faces →
  ∃ fid f,
    (fid, f) ∈ faces ∧ None ∈ f ∧
    for_loop (λ eid_faces '(face_id, f),
      if decide (None ∈ f) then Err (RuntimeError face_id f elem)
      else Ok (eid_faces ++ [(eid, f)])) faces acc
    = Err (RuntimeError fid f elem).
Proof.
  revert acc. induction faces as [|[fid f] faces IH]; intros acc Hnot.
  - destruct Hnot. constructor.
  - simpl. case_decide as Hblank.
    + exists fid, f. split_and!; [apply list_elem_of_here | done | done].
    + simpl. destruct (IH (acc ++ [(eid, f)])) as (fid' & f' & Hin & ? & ?).
      { intros Hall. apply Hnot. by constructor. }
      exists fid', f'. split_and!; [by apply list_elem_of_further | done..].
Qed.

Lemma lax_body_appends self acc eid :
  lax_body self acc eid = (let! r := lax_body self [] eid in Ok (acc ++ r)).
Proof.
  unfold lax_body. destruct (get_element self eid) as [elem|]; simpl; [|done].
  case_decide; [|simpl; by rewrite app_nil_r].
  destruct (get_faces elem) as [faces|]; simpl; [|done].
  by rewrite !lax_faces_loop.
Qed.

Lemma strict_body_appends self acc eid :
  strict_body self acc eid
  = (let! r := strict_body self [] eid in Ok (acc ++ r)).
Proof.
  unfold strict_body.
  destruct (get_element self eid) as [elem|]; simpl; [|done].
  case_decide; [|simpl; by rewrite app_nil_r].
  destruct (get_faces elem) as [faces|]; simpl; [|done].
  apply for_loop_appends. intros acc0 [fid f]. by case_decide.
Qed.

(** X10.  Splitting the selection.  For both values of [allow_blank_nids], the
    call on a list of element ids followed by another is the call on the
    first list, then the call on the second, the two lists of faces
    joined: an exception of the first call comes first. *)
Theorem faces_of_joined_selections self ids1 ids2 allow_blank_nids :
  get_element_faces self (Some (ids1 ++ ids2)) allow_blank_nids =
  (let! faces1 := get_element_faces self (Some ids1) allow_blank_nids in
   let! faces2 := get_element_faces self (Some ids2) allow_blank_nids in
   Ok (faces1 ++ faces2)).
Proof.
  rewrite !get_element_faces_loops. simpl. rewrite for_loop_app.
  destruct (for_loop _ ids1 []) as [faces1|]; simpl; [|done].
  apply for_loop_appends.
  destruct allow_blank_nids;
    [apply lax_body_appends | apply strict_body_appends].
Qed.

(** What the loop adds for one element. *)
Lemma lax_body_Ok self eid fs :
  lax_body self [] eid = Ok fs ↔ element_faces self eid fs.
Proof.
  unfold lax_body, element_faces, get_element.
  destruct (elements self !! eid) as [elem|]; simpl.
  2:{ split; [discriminate | by intros (? & ? & _)]. }
  split.
  - intros Hfs. exists elem. split; [done|]. case_decide.
    + unfold get_faces in Hfs. destruct (e_faces elem) as [faces|];
        [|discriminate].
      simpl in Hfs. rewrite lax_faces_loop in Hfs. injection Hfs as <-.
      by exists faces.
    + by injection Hfs as <-.
  - intros (elem0 & [= <-] & Hfs). case_decide.
    + destruct Hfs as (faces & Hfaces & ->). unfold get_faces.
      rewrite Hfaces. simpl. by rewrite lax_faces_loop.
    + by subst.
Qed.

Lemma lax_loop_Ok self ids r :
  for_loop (lax_body self) ids [] = Ok r ↔
  ∃ fss, Forall2 (element_faces self) ids fss ∧ r = concat fss.
Proof.
  revert r. induction ids as [|eid ids IH]; intros r; simpl.
  - split.
    + intros [= <-]. exists []. by split; [constructor|].
    + intros (fss & Hfss & ->). by inversion Hfss.
  - destruct (lax_body self [] eid) as [fs|e] eqn:Hbody; simpl.
    + rewrite (for_loop_appends _ (lax_body_appends self)).
      split.
      * intros (r0 & (fss & Hfss & ->)%IH & [= <-])%bind_Ok.
        exists (fs :: fss). split; [|done].
        constructor; [by apply lax_body_Ok | done].
      * intros (fss & Hfss & ->).
        inversion Hfss as [|? fs0 ? fss0 Hfs0 Hfss0]; subst.
        apply lax_body_Ok in Hfs0. rewrite Hbody in Hfs0.
        injection Hfs0 as <-.
        assert (for_loop (lax_body self) ids [] = Ok (concat fss0)) as ->
          by (apply IH; eauto).
        done.
    + split; [discriminate|]. intros (fss & Hfss & ->).
      inversion Hfss as [|? fs0 ? fss0 Hfs0 Hfss0]; subst.
      apply lax_body_Ok in Hfs0. congruence.
Qed.

(** X11.  With blank node ids allowed.  [get_element_faces] returns a list
    exactly when every selected element is in the model (and has faces
    when its type is [CTETRA], [CPENTA], [CHEXA] or [CPYRAM]); the list is
    the faces of these elements, each with the id of its element, in the
    order of the selection; the elements of another type add nothing. *)
Theorem faces_with_blank_nids self element_ids r :
  get_element_faces self element_ids true = Ok r ↔
  ∃ fss,
    Forall2 (element_faces self)
      (default (Faces.element_ids self) element_ids) fss ∧
    r = concat fss.
Proof. rewrite get_element_faces_loops. apply lax_loop_Ok. Qed.

Lemma loop_cons_appends
    (body : list (Z * face) → Z → result error (list (Z * face))) eid ids :
  (∀ acc x, body acc x = (let! r := body [] x in Ok (acc ++ r))) →
  for_loop body (eid :: ids) [] =
  (let! fs := body [] eid in
   let! r := for_loop body ids [] in Ok (fs ++ r)).
Proof.
  intros Hbody. simpl. destruct (body [] eid) as [fs|]; simpl; [|done].
  by apply for_loop_appends.
Qed.

Lemma strict_body_cases self eid fs :
  lax_body self [] eid = Ok fs →
  (Forall no_blank fs ∧ strict_body self [] eid = Ok fs) ∨
  (∃ fid f elem,
     strict_body self [] eid = Err (RuntimeError fid f elem) ∧
     None ∈ f ∧ (eid, f) ∈ fs ∧ elements self !! eid = Some elem).
Proof.
  unfold lax_body, strict_body, get_element.
  destruct (elements self !! eid) as [elem|] eqn:Helem; simpl; [|discriminate].
  case_decide.
  2:{ intros [= <-]. left. by split; [constructor|]. }
  destruct (get_faces elem) as [faces|]; simpl; [|discriminate].
  rewrite lax_faces_loop. intros [= <-].
  destruct (decide (Forall no_blank faces)) as [Hall|Hnot].
  - left. split; [|by apply strict_faces_loop_ok].
    simpl. apply Forall_fmap. by eapply Forall_impl.
  - right.
    destruct (strict_faces_loop_blank eid elem faces [] Hnot)
      as (fid & f & Hin & Hblank & Hloop).
    exists fid, f, elem. split_and!; [done..| |done].
    simpl. apply list_elem_of_fmap. by exists (fid, f).
Qed.

Lemma strict_body_Ok_lax self eid fs :
  strict_body self [] eid = Ok fs → lax_body self [] eid = Ok fs.
Proof.
  destruct (lax_body self [] eid) as [fs0|e] eqn:Hlax.
  - destruct (strict_body_cases self eid fs0 Hlax)
      as [[_ ->]|(? & ? & ? & -> & _)]; [done | discriminate].
  - revert Hlax. unfold lax_body, strict_body.
    destruct (get_element self eid) as [elem|]; simpl; [|done].
    case_decide; [|done].
    destruct (get_faces elem) as [faces|]; simpl; [|done].
    by rewrite lax_faces_loop.
Qed.

Lemma strict_loop_cases self ids r :
  for_loop (lax_body self) ids [] = Ok r →
  (Forall no_blank r ∧ for_loop (strict_body self) ids [] = Ok r) ∨
  (∃ fid f elem eid,
     for_loop (strict_body self) ids [] = Err (RuntimeError fid f elem) ∧
     None ∈ f ∧ (eid, f) ∈ r ∧ elements self !! eid = Some elem).
Proof.
  revert r. induction ids as [|eid ids IH]; intros r.
  - simpl. intros [= <-]. left. by split; [constructor|].
  - rewrite (loop_cons_appends _ _ _ (lax_body_appends self)),
      (loop_cons_appends _ _ _ (strict_body_appends self)).
    intros (fs & Hfs & (r0 & Hr0 & [= <-])%bind_Ok)%bind_Ok.
    destruct (strict_body_cases self eid fs Hfs)
      as [[Hall ->]|(fid & f & elem & -> & Hblank & Hin & Helem)]; simpl.
    + destruct (IH r0 Hr0)
        as [[Hall0 ->]|(fid & f & elem & eid0 & -> & Hblank & Hin & Helem)];
        simpl.
      * left. split; [by apply Forall_app | done].
      * right. exists fid, f, elem, eid0. split_and!; [done..| |done].
        apply elem_of_app. by right.
    + right. exists fid, f, elem, eid. split_and!; [done..| |done].
      apply elem_of_app. by left.
Qed.

Lemma strict_loop_Ok_lax self ids r :
  for_loop (strict_body self) ids [] = Ok r →
  for_loop (lax_body self) ids [] = Ok r.
Proof.
  revert r. induction ids as [|eid ids IH]; intros r; [done|].
  rewrite (loop_cons_appends _ _ _ (lax_body_appends self)),
    (loop_cons_appends _ _ _ (strict_body_appends self)).
  intros (fs & Hfs%strict_body_Ok_lax & (r0 & Hr0%IH & [= <-])%bind_Ok)%bind_Ok.
  by rewrite Hfs, Hr0.
Qed.

(** X12.  Without blank node ids.  [get_element_faces] with
    [allow_blank_nids=False] returns a list exactly when the call with
    [allow_blank_nids=True] returns it and no face of the list has a blank
    node id.  When the latter call returns a list with such a face, the
    former raises the [RuntimeError] of one of these faces. *)
Theorem faces_without_blank_nids self element_ids r :
  (get_element_faces self element_ids false = Ok r ↔
   get_element_faces self element_ids true = Ok r ∧ Forall no_blank r) ∧
  (get_element_faces self element_ids true = Ok r →
   ¬ Forall no_blank r →
   ∃ fid f elem eid,
     get_element_faces self element_ids false
       = Err (RuntimeError fid f elem) ∧
     None ∈ f ∧ (eid, f) ∈ r ∧ elements self !! eid = Some elem).
Proof.
  rewrite !get_element_faces_loops. split; [split|].
  - intros Hstrict. pose proof (strict_loop_Ok_lax _ _ _ Hstrict) as Hlax.
    split; [done|].
    destruct (strict_loop_cases _ _ _ Hlax)
      as [[Hall _]|(? & ? & ? & ? & Herr & _)]; [done|].
    rewrite Hstrict in Herr. discriminate.
  - intros [Hlax Hall].
    destruct (strict_loop_cases _ _ _ Hlax)
      as [[_ Hstrict]|(fid & f & elem & eid & _ & Hblank & Hin & _)]; [done|].
    rewrite Forall_forall in Hall. by destruct (Hall _ Hin).
  - intros Hlax Hnot.
    destruct (strict_loop_cases _ _ _ Hlax) as [[Hall _]|Herr]; [done|].
    exact Herr.
Qed.
End FacesFacts.

(** ** The two entry points, whatever the engine *)

Module MassPropsEntry.
Import MassProps.

Section Entry.
Context {num : Type} `{Number num}.

(** X13.  The two entry points differ in the engine they call and in nothing
    else: when [_mass_properties] and [_mass_properties_no_xref] return
    the same on this model for every selection and reference point, so do
    [mass_properties] and [mass_properties_no_xref], whatever the
    functions of [mesh_utils.mass_properties] do. *)
Theorem entry_points_differ_in_the_engine_only
    init mp mp_no_xref sym (self : BDF num) element_ids mass_ids
    reference_point sym_axis scale :
  (∀ elements masses point,
     mp self elements masses point = mp_no_xref self elements masses point) →
  mass_properties init mp sym self element_ids mass_ids reference_point
    sym_axis scale =
  mass_properties_no_xref init mp_no_xref sym self element_ids mass_ids
    reference_point sym_axis scale.
Proof.
  intros Hengine. unfold mass_properties, mass_properties_no_xref.
  destruct (match reference_point with
            | Some (RefInt nid) => _ | Some _ => _ | None => _ end)
    as [point|]; simpl; [|done].
  destruct (init self element_ids mass_ids)
    as [[[[eids elems] mids] pms]|]; simpl; [|done].
  by rewrite Hengine.
Qed.

End Entry.
End MassPropsEntry.

(** ** The values of the design variables *)

Section LoopInvariant.
Context {E A S : Type} (I : S → Prop).

Lemma for_loop_invariant (body : S → A → result E S) xs :
  (∀ s x s', x ∈ xs → I s → body s x = Ok s' → I s') →
  ∀ s s', I s → for_loop body xs s = Ok s' → I s'.
Proof.
  induction xs as [|x xs IH]; intros Hbody s s' Hs; simpl.
  - by intros [= <-].
  - intros (s1 & Hs1 & Hrest)%bind_Ok.
    eapply IH; [| |exact Hrest].
    + intros s2 y s3 Hy. apply Hbody. by apply list_elem_of_further.
    + eapply Hbody; [apply list_elem_of_here|done..].
Qed.
End LoopInvariant.

Module DesvarsFacts.
Import Desvars.

Section Facts.
Context {num : Type} `{Number num} `{Less num} `{LessEq num}.
Local Open Scope num_scope.

Lemma clamp_not_outside (desvar : Desvar num) (v : num) :
  (∀ a : num, nlt a a = false) →
  nlt (xub desvar) (xlb desvar) = false →
  not_outside desvar (py_min (py_max v (xlb desvar)) (xub desvar)).
Proof.
  intros Hirr Hbounds. unfold not_outside, py_min, py_max.
  destruct (nlt v (xlb desvar)) eqn:Hv.
  - rewrite Hbounds. by rewrite Hirr.
  - destruct (nlt (xub desvar) v) eqn:Hub; [by rewrite Hirr | done].
Qed.

Lemma not_outside_within (desvar : Desvar num) (v : num) :
  not_outside desvar v →
  comparable v (xlb desvar) → comparable (xub desvar) v →
  within_bounds desvar v.
Proof.
  intros [Hlow Hup] [Hlt|Hle] [Hlt'|Hle']; try congruence. by split.
Qed.

Lemma clamp_clamped (desvar : Desvar num) (v : num) :
  (∀ a : num, nlt a a = false) →
  nlt (xub desvar) (xlb desvar) = false →
  clamped desvar (py_min (py_max v (xlb desvar)) (xub desvar)).
Proof.
  intros Hirr Hbounds. split; [by apply clamp_not_outside|].
  apply not_outside_within. by apply clamp_not_outside.
Qed.

Lemma desvar_values_and_delta_Ok tenth (self : BDF num) desvar_values
    values delta :
  desvar_values_and_delta tenth self desvar_values = Ok (values, delta) →
  for_loop (dlink_body self) (dlinks self)
    (default (default_values tenth self) desvar_values) = Ok values ∧
  for_loop (delta_body (nominal_values self) values) (desvars self) ∅
    = Ok delta.
Proof.
  unfold desvar_values_and_delta.
  intros (values0 & Hvalues & (delta0 & Hdelta & [= <- <-])%bind_Ok)%bind_Ok.
  split; [|exact Hdelta]. destruct desvar_values; exact Hvalues.
Qed.

Lemma dlink_body_Ok (self : BDF num) vals desvar_id dlink vals1 :
  dlink_body self vals (desvar_id, dlink) = Ok vals1 →
  ∃ desvar v,
    get_desvar self desvar_id = Ok desvar ∧
    vals1 = <[desvar_id := py_min (py_max v (xlb desvar)) (xub desvar)]> vals.
Proof.
  unfold dlink_body.
  intros (desvar & Hdesvar & (v & _ & [= <-])%bind_Ok)%bind_Ok.
  by exists desvar, v.
Qed.

Lemma dlink_loop_Ok (self : BDF num) l vals vals1 :
  (∀ a : num, nlt a a = false) →
  for_loop (dlink_body self) l vals = Ok vals1 →
  (∀ key, key ∉ l.*1 → vals1 !! key = vals !! key) ∧
  (∀ key desvar,
     key ∈ l.*1 → get_desvar self key = Ok desvar →
     nlt (xub desvar) (xlb desvar) = false →
     ∃ v, vals1 !! key = Some v ∧ clamped desvar v).
Proof.
  intros Hirr. revert vals.
  induction l as [|[desvar_id dlink] l IH]; intros vals; simpl.
  - intros [= <-]. split; [done|]. by intros key desvar ?%elem_of_nil.
  - intros (vals0 & Hbody & Hrest)%bind_Ok.
    apply dlink_body_Ok in Hbody as (desvar0 & v0 & Hdesvar0 & ->).
    destruct (IH _ Hrest) as [Hother Hlinked]. split.
    + intros key [Hne Hnotin]%not_elem_of_cons.
      by rewrite (Hother _ Hnotin), lookup_insert_ne.
    + intros key desvar Hkey Hdesvar Hbounds.
      destruct (decide (key ∈ l.*1)) as [Hin|Hnotin]; [by eapply Hlinked|].
      apply elem_of_cons in Hkey as [->|?]; [|done].
      rewrite Hdesvar0 in Hdesvar. injection Hdesvar as <-.
      rewrite (Hother _ Hnotin), lookup_insert_eq.
      eexists. split; [done|]. by apply clamp_clamped.
Qed.

(** X14.  Linked design variables.  After the loop over [self.dlinks]
    a design variable that has a link holds a value [v] that is neither
    less than its [xlb] nor greater than its [xub] (when [xub] is not
    less than [xlb]), so that [xlb <= v <= xub] whenever [v] is
    comparable with both bounds: with floats, unless one of the three is
    a NaN, which [min] and [max] pass through.  A design variable
    without a link keeps the value it had in [desvar_values]. *)
Theorem linked_values_are_clamped
    tenth (self : BDF num) desvar_values values delta :
  (∀ a : num, nlt a a = false) →
  desvar_values_and_delta tenth self (Some desvar_values)
    = Ok (values, delta) →
  (∀ key, key ∉ (dlinks self).*1 → values !! key = desvar_values !! key) ∧
  (∀ key desvar,
     key ∈ (dlinks self).*1 → get_desvar self key = Ok desvar →
     nlt (xub desvar) (xlb desvar) = false →
     ∃ v, values !! key = Some v ∧ clamped desvar v).
Proof.
  intros Hirr [Hloop _]%desvar_values_and_delta_Ok.
  by apply (dlink_loop_Ok self _ _ _ Hirr Hloop).
Qed.

Lemma default_values_lookup tenth (self : BDF num) key :
  default_values tenth self !! key =
  match get_desvar self key with
  | Ok desvar =>
      Some (py_min (py_max (value desvar + tenth) (xlb desvar)) (xub desvar))
  | Err _ => None
  end.
Proof.
  unfold default_values, get_desvar.
  induction (desvars self) as [|[k d] l IH]; simpl; [done|].
  destruct (decide (k = key)) as [->|Hne].
  - by rewrite !lookup_insert_eq.
  - by rewrite !lookup_insert_ne.
Qed.

(** X15.  Default values.  When [desvar_values] is left out, every
    design variable of the model, linked or not, ends with a value [v]
    that is neither less than its [xlb] nor greater than its [xub]
    (when [xub] is not less than [xlb]), so that [xlb <= v <= xub]
    whenever [v] is comparable with both bounds: with floats, unless one
    of the three is a NaN. *)
Theorem default_values_within_bounds
    tenth (self : BDF num) values delta key desvar :
  (∀ a : num, nlt a a = false) →
  desvar_values_and_delta tenth self None = Ok (values, delta) →
  get_desvar self key = Ok desvar →
  nlt (xub desvar) (xlb desvar) = false →
  ∃ v, values !! key = Some v ∧ clamped desvar v.
Proof.
  intros Hirr [Hloop _]%desvar_values_and_delta_Ok Hdesvar Hbounds.
  destruct (dlink_loop_Ok self _ _ _ Hirr Hloop) as [Hother Hlinked].
  destruct (decide (key ∈ (dlinks self).*1)) as [Hin|Hnotin];
    [by eapply Hlinked|].
  rewrite (Hother _ Hnotin). simpl.
  rewrite default_values_lookup, Hdesvar.
  eexists. split; [done|]. by apply clamp_clamped.
Qed.

Lemma nominal_values_lookup (self : BDF num) key :
  nominal_values self !! key =
  match get_desvar self key with
  | Ok desvar => Some (value desvar)
  | Err _ => None
  end.
Proof.
  unfold nominal_values, get_desvar.
  induction (desvars self) as [|[k d] l IH]; simpl; [done|].
  destruct (decide (k = key)) as [->|Hne].
  - by rewrite !lookup_insert_eq.
  - by rewrite !lookup_insert_ne.
Qed.

Lemma delta_loop_Ok (init values : gmap Z num) (l : list (Z * Desvar num))
    d0 delta key :
  for_loop (delta_body init values) l d0 = Ok delta →
  delta !! key =
  if decide (key ∈ l.*1)
  then match init !! key, values !! key with
       | Some i, Some v => Some (i - v)
       | _, _ => None
       end
  else d0 !! key.
Proof.
  revert d0. induction l as [|[k d] l IH]; intros d0; simpl.
  - by intros [= <-].
  - intros (d1 & Hbody & Hrest)%bind_Ok. unfold delta_body in Hbody.
    apply bind_Ok in Hbody as (i & Hi & Hbody).
    apply bind_Ok in Hbody as (v & Hv & [= <-]).
    unfold get_value in Hi, Hv.
    destruct (init !! k) as [i0|] eqn:Hik; [|discriminate].
    destruct (values !! k) as [v0|] eqn:Hvk; [|discriminate].
    injection Hi as ->. injection Hv as ->.
    rewrite (IH _ Hrest).
    destruct (decide (key ∈ l.*1)) as [Hin|Hnotin].
    + rewrite decide_True; [done|]. by apply list_elem_of_further.
    + destruct (decide (k = key)) as [->|Hne].
      * rewrite decide_True by apply list_elem_of_here.
        by rewrite lookup_insert_eq, Hik, Hvk.
      * rewrite decide_False.
        -- by rewrite lookup_insert_ne.
        -- simpl. intros [?|?]%elem_of_cons; [congruence|done].
Qed.

(** X16.  The deltas.  [desvar_delta] holds, for each design variable of the
    model and for nothing else, its nominal value minus its current
    one. *)
Theorem delta_is_nominal_minus_current
    tenth (self : BDF num) desvar_values values delta key :
  desvar_values_and_delta tenth self desvar_values = Ok (values, delta) →
  delta !! key =
  match get_desvar self key with
  | Ok desvar => (λ v, value desvar - v) <$> values !! key
  | Err _ => None
  end.
Proof.
  intros [_ Hdelta]%desvar_values_and_delta_Ok.
  rewrite (delta_loop_Ok _ _ _ _ _ key Hdelta), nominal_values_lookup.
  unfold get_desvar.
  destruct (list_to_map (desvars self) !! key) as [desvar|] eqn:Hkey.
  - rewrite decide_True.
    + by destruct (values !! key).
    + apply elem_of_list_to_map_2, list_elem_of_fmap_2 with (f := fst) in Hkey.
      exact Hkey.
  - case_decide as Hin; [|done]. by destruct (values !! key).
Qed.
Lemma get_desvar_is_Some (self : BDF num) key :
  key ∈ (desvars self).*1 → ∃ desvar, get_desvar self key = Ok desvar.
Proof.
  unfold get_desvar. intros Hkey.
  destruct (list_to_map (desvars self) !! key) as [desvar|] eqn:Hlookup;
    [by exists desvar|].
  by apply not_elem_of_list_to_map in Hlookup.
Qed.

Lemma get_desvar_Ok_elem (self : BDF num) key desvar :
  get_desvar self key = Ok desvar → key ∈ (desvars self).*1.
Proof.
  unfold get_desvar.
  destruct (list_to_map (desvars self) !! key) as [d|] eqn:Hkey; [|done].
  intros _.
  by apply elem_of_list_to_map_2, list_elem_of_fmap_2 with (f := fst) in Hkey.
Qed.

Lemma link_sum_Ok (vals : gmap Z num) cs ids v :
  (∀ i, i ∈ ids → is_Some (vals !! i)) →
  ∃ v',
    for_loop (λ value '(coeff, desvar_idi),
      let! valuei := get_value vals desvar_idi in
      Ok (value + coeff * valuei)%num) (zip cs ids) v = Ok v'.
Proof.
  revert ids v. induction cs as [|c cs IH]; intros [|i ids] v Hids; simpl;
    try by eexists.
  destruct (Hids i) as [vi Hvi]; [apply list_elem_of_here|].
  unfold get_value at 1. rewrite Hvi. simpl.
  apply IH. intros j Hj. by apply Hids, list_elem_of_further.
Qed.

Lemma dlink_loop_returns (self : BDF num) l vals :
  (∀ key, key ∈ (desvars self).*1 → is_Some (vals !! key)) →
  (∀ desvar_id dlink, (desvar_id, dlink) ∈ l →
     desvar_id ∈ (desvars self).*1 ∧
     ∀ i, i ∈ IDv dlink → i ∈ (desvars self).*1) →
  ∃ vals1,
    for_loop (dlink_body self) l vals = Ok vals1 ∧
    ∀ key, key ∈ (desvars self).*1 → is_Some (vals1 !! key).
Proof.
  revert vals. induction l as [|[desvar_id dlink] l IH]; intros vals Hvals Hl.
  - by exists vals.
  - destruct (Hl desvar_id dlink) as [Hid Hids]; [apply list_elem_of_here|].
    destruct (get_desvar_is_Some _ _ Hid) as [desvar Hdesvar].
    destruct (link_sum_Ok vals (coeffs dlink) (IDv dlink) (c0 dlink))
      as [v Hv]; [by intros i ?%Hids%Hvals|].
    assert (dlink_body self vals (desvar_id, dlink)
            = Ok (<[desvar_id := py_min (py_max v (xlb desvar)) (xub desvar)]>
                    vals)) as Hbody.
    { unfold dlink_body. rewrite Hdesvar. simpl. by rewrite Hv. }
    cbn [for_loop]. rewrite Hbody. cbn [bind].
    apply IH.
    + intros key Hkey. destruct (decide (desvar_id = key)) as [->|Hne].
      * by rewrite lookup_insert_eq.
      * rewrite lookup_insert_ne by done. by apply Hvals.
    + intros id' dlink' Hin. by apply Hl, list_elem_of_further.
Qed.

Lemma delta_loop_returns (init values : gmap Z num)
    (l : list (Z * Desvar num)) d0 :
  (∀ key, key ∈ l.*1 → is_Some (init !! key) ∧ is_Some (values !! key)) →
  ∃ delta, for_loop (delta_body init values) l d0 = Ok delta.
Proof.
  revert d0. induction l as [|[k d] l IH]; intros d0 Hl; [by eexists|].
  destruct (Hl k) as [[i Hi] [v Hv]]; [apply list_elem_of_here|].
  assert (delta_body init values d0 (k, d) = Ok (<[k := (i - v)%num]> d0))
    as Hbody.
  { unfold delta_body, get_value. by rewrite Hi, Hv. }
  cbn [for_loop]. rewrite Hbody. cbn [bind].
  apply IH. intros key Hkey. by apply Hl, list_elem_of_further.
Qed.

(** X17.  The call returns.  When every link belongs to a design variable of
    the model and reads only design variables of the model, the values
    and the deltas are computed without a [KeyError], with
    [desvar_values] left out. *)
Theorem closed_links_give_values tenth (self : BDF num) :
  (∀ desvar_id dlink, (desvar_id, dlink) ∈ dlinks self →
     desvar_id ∈ (desvars self).*1 ∧
     ∀ i, i ∈ IDv dlink → i ∈ (desvars self).*1) →
  ∃ values delta,
    desvar_values_and_delta tenth self None = Ok (values, delta).
Proof.
  intros Hlinks.
  destruct (dlink_loop_returns self (dlinks self) (default_values tenth self))
    as (values & Hvalues & Hdom); [|done|].
  { intros key [desvar Hdesvar]%get_desvar_is_Some.
    by rewrite default_values_lookup, Hdesvar. }
  destruct (delta_loop_returns (nominal_values self) values (desvars self) ∅)
    as [delta Hdelta].
  { intros key Hkey. split; [|by apply Hdom].
    destruct (get_desvar_is_Some _ _ Hkey) as [desvar Hdesvar].
    by rewrite nominal_values_lookup, Hdesvar. }
  exists values, delta. unfold desvar_values_and_delta.
  change (bind (for_loop (dlink_body self) (dlinks self)
                  (default_values tenth self))
            (λ values0,
               bind (for_loop (delta_body (nominal_values self) values0)
                       (desvars self) ∅)
                 (λ delta0, Ok (values0, delta0)))
          = Ok (values, delta)).
  by rewrite Hvalues; simpl; rewrite Hdelta.
Qed.

Lemma dlink_loop_known (self : BDF num) l vals vals1 desvar_id :
  for_loop (dlink_body self) l vals = Ok vals1 →
  desvar_id ∈ l.*1 → desvar_id ∈ (desvars self).*1.
Proof.
  revert vals. induction l as [|[id dlink] l IH]; intros vals; simpl.
  - by intros _ ?%elem_of_nil.
  - intros (vals0 & Hbody & Hrest)%bind_Ok [->|Hin]%elem_of_cons.
    + apply dlink_body_Ok in Hbody as (desvar & _ & Hdesvar & _).
      by eapply get_desvar_Ok_elem.
    + by eapply IH.
Qed.

(** X18.  A link of an unknown design variable.  When [self.dlinks] has a link
    under an id that [self.desvars] lacks, the call raises. *)
Theorem link_of_unknown_desvar_raises
    tenth (self : BDF num) desvar_values desvar_id :
  desvar_id ∈ (dlinks self).*1 →
  desvar_id ∉ (desvars self).*1 →
  ∃ key, desvar_values_and_delta tenth self desvar_values
         = Err (KeyError key).
Proof.
  intros Hlink Hunknown.
  destruct (desvar_values_and_delta tenth self desvar_values)
    as [[values delta]|[key]] eqn:Hcall; [|by exists key].
  apply desvar_values_and_delta_Ok in Hcall as [Hloop _].
  destruct Hunknown. by eapply dlink_loop_known.
Qed.
End Facts.

End DesvarsFacts.

(** ** The definitions, run *)

Module ExampleRuns.
Import Examples.
Local Open Scope Z_scope.

Example demo_areas :
  get_area_breakdown demo (Some [1; 2; 3; 5; 6; 7]) true
  = Ok {[ 1 := 11; 2 := 2; 3 := 6; 7 := 5 ]}.
Proof. vm_compute. reflexivity. Qed.

Example demo_areas_last :
  get_area_breakdown demo (Some [1; 2; 3; 5; 6; 7]) false
  = Ok {[ 1 := 11; 2 := 2; 3 := 3; 7 := 5 ]}.
Proof. vm_compute. reflexivity. Qed.

Example demo_volumes :
  get_volume_breakdown demo (Some [1; 2; 3; 5; 6; 7])
  = (Ok {[ 1 := 22; 2 := 4; 3 := 27; 5 := 15; 7 := 20 ]},
     [("skipping volume", ("CPYRAM", "PSOLID"))]).
Proof. vm_compute. reflexivity. Qed.

Example demo_masses :
  get_mass_breakdown demo (Some [1; 2; 3; 5; 6; 7]) true
  = (Ok ({[ 1 := 77; 2 := 8; 3 := 60; 5 := 30; 7 := 20 ]}, ∅),
     [("skipping mass", ("CPYRAM", "PSOLID"))]).
Proof. vm_compute. reflexivity. Qed.

Example demo_unclassified :
  get_area_breakdown demo None true = Err (NotImplementedError pbeam3).
Proof. vm_compute. reflexivity. Qed.

Example demo_point_masses :
  get_mass_breakdown demo_with_masses (Some [6]) true
  = (Ok (∅, {[ "CONM2" := 4 ]}), []).
Proof. vm_compute. reflexivity. Qed.
End ExampleRuns.

(** ** The theorems at the concrete models *)

Module Witnesses.
Import Examples.
Local Open Scope Z_scope.

(** A decidable fact about concrete data. *)
Ltac by_compute :=
  lazymatch goal with
  | |- ?P => apply (bool_decide_unpack P); vm_compute; exact I
  end.

Ltac has_method :=
  repeat constructor; eexists; split; vm_compute; reflexivity.

Ltac concrete :=
  first [by_compute | vm_compute; reflexivity | has_method].

(** Discharge the premises of [H] one after the other. *)
Ltac premises H :=
  repeat lazymatch type of H with
  | ?P → _ =>
      let Hp := fresh in
      assert (Hp : P) by concrete; specialize (H Hp); clear Hp
  end.

(** The laws of arithmetic that some theorems assume, on [Z]. *)
Lemma Z_mul_add_distr (x y z : Z) : (x * (y + z))%num = (x * y + x * z)%num.
Proof. simpl. lia. Qed.

Lemma Z_mul_zero (x : Z) : (x * nzero)%num = nzero.
Proof. simpl. lia. Qed.

(** C1, the claim as stated: the element of the composite has area 2 and
    mass 8, the formula gives [2 * (1 * 2 + 0) = 4], the breakdown
    reports 8. *)
Lemma shell_like_mass_formula_fails_for_pcomp :
  ¬ shell_like_mass_formula Z.
Proof.
  intros Hclaim.
  specialize (Hclaim demo (Some [2]) true [(2, [20])] 2 [20] pcomp
                2 0 1 [2] {[ 2 := 8 ]} ∅ []).
  premises Hclaim. vm_compute in Hclaim. discriminate Hclaim.
Qed.

Lemma get_mass_breakdown_shell_like_witness :
  (p_type pshell ∈ ["PSHELL"; "PSHEAR"]%string →
   ∃ thickness nsm rho areas,
     p_t pshell = Some thickness ∧ p_nsm pshell = Some nsm ∧
     p_Rho pshell = Some rho ∧
     Forall2 (element_has demo e_Area) [10; 11] areas ∧
     ({[ 1 := 77; 2 := 8 ]} : gmap Z Z) !! 1 =
       reported (map (λ area, (area * (rho * thickness + nsm))%num)
                   areas)) ∧
  (p_type pshell ∈ comp_props →
   ∃ masses,
     Forall2 (element_has demo e_Mass) [10; 11] masses ∧
     ({[ 1 := 77; 2 := 8 ]} : gmap Z Z) !! 1 = reported masses).
Proof.
  apply (get_mass_breakdown_shell_like demo (Some [1; 2]) true
           [(1, [10; 11]); (2, [20])] 1 [10; 11] pshell
           {[ 1 := 77; 2 := 8 ]} ∅ []);
    try by_compute; vm_compute; reflexivity.
Defined.

(** C2, the claim as stated: a bar of area [0.1] whose elements have
    the lengths [0.1] and [0.3].  The breakdown reports
    [0.1 * 0.1 + 0.1 * 0.3], the claim says [0.1 * (0.1 + 0.3)], and the
    two floats differ in the last bit. *)
Lemma line_volume_is_not_area_times_total_length :
  ¬ line_volume_is_area_times_total_length PrimFloat.float.
Proof.
  intros Hclaim.
  specialize (Hclaim Floats.two_bars None [(1, [10; 11])] 1 [10; 11]
                Floats.pbar_tenth Floats.tenth
                [Floats.tenth; Floats.three_tenths]
                {[ 1 := Floats.sum_of_volumes ]} []).
  premises Hclaim.
  apply (f_equal (λ v : option PrimFloat.float,
                    match v with
                    | Some x => PrimFloat.eqb x Floats.area_times_length
                    | None => false
                    end)) in Hclaim.
  vm_compute in Hclaim. discriminate Hclaim.
Qed.

Lemma line_volume_and_mass_witness :
  (∃ area lengths,
     p_Area pbar = Some area ∧
     Forall2 (element_has demo e_Length) [30; 31] lengths ∧
     ({[ 3 := 27 ]} : gmap Z Z) !! 3 =
       reported (map (λ length, (area * length)%num) lengths) ∧
     ({[ 3 := 27 ]} : gmap Z Z) !! 3 = Some (area * sum lengths)%num) ∧
  (∃ nsm rho lengths,
     p_nsm pbar = Some nsm ∧ p_Rho pbar = Some rho ∧
     Forall2 (element_has demo e_Length) [30; 31] lengths ∧
     ∃ area, p_Area pbar = Some area ∧
       ({[ 3 := 60 ]} : gmap Z Z) !! 3 =
         Some (sum (map (λ length, (area * (rho * length + nsm))%num)
                      lengths))).
Proof.
  destruct (line_volume_and_mass demo (Some [3]) 3 [30; 31] pbar)
    as [Hvolume Hmass]; [concrete | concrete | ].
  split.
  - destruct (Hvolume [(3, [30; 31])] {[ 3 := 27 ]} [])
      as (area & lengths & Harea & Hlengths & Hsum & Hexact);
      [concrete | concrete | concrete | concrete | ].
    exists area, lengths. split_and!; [done..|].
    exact (Hexact Z_mul_add_distr Z_mul_zero).
  - apply (Hmass true [(3, [30; 31])] {[ 3 := 60 ]} ∅ []); concrete.
Defined.

Lemma unclassified_property_raises_witness :
  ((∃ e, get_area_breakdown demo None true = Err e ∧
         (e = NotImplementedError pbeam3 ∨
          area_loop demo true [(1, [10; 11]); (2, [20]); (3, [30; 31])]
            = Err e)) ∧
   (∃ e lg, get_volume_breakdown demo None = (Err e, lg) ∧
            (e = NotImplementedError pbeam3 ∨
             (volume_loop demo [(1, [10; 11]); (2, [20]); (3, [30; 31])]
                no_skips).1 = Err e))) ∧
  (∃ e lg, get_mass_breakdown demo None true = (Err e, lg) ∧
           (e = NotImplementedError pbeam3 ∨ mass_type_loop demo = Err e ∨
            (mass_loop demo [(1, [10; 11]); (2, [20]); (3, [30; 31])]
               no_skips).1 = Err e)).
Proof.
  destruct (unclassified_property_raises demo None true true
              [(1, [10; 11]); (2, [20]); (3, [30; 31])] 4 [40]
              [(5, [50; 51; 52; 53]); (6, [60]); (7, [70; 71])] pbeam3)
    as [Harea_volume Hmass]; [concrete | concrete | ].
  split; [apply Harea_volume | apply Hmass]; concrete.
Defined.

Lemma no_mass_found_witness :
  (get_mass_breakdown demo (Some [6]) true).1 = Err NoMassFound ∧
  (get_mass_breakdown demo (Some [6]) false).1 = Ok (∅, ∅).
Proof.
  apply (no_mass_found demo (Some [6]) [(6, [60])]);
    [concrete | concrete | ].
  constructor; [|constructor].
  exists pelas. split; [concrete|].
  intros s. vm_compute. reflexivity.
Defined.

(** C10, the claim as stated: a tapered beam with two elements of areas
    0 and 5 reports 5, and 5 is the sum of the two areas. *)
Lemma last_bar_area_can_be_the_sum :
  ¬ last_bar_area_is_not_the_sum Z.
Proof.
  intros Hclaim.
  specialize (Hclaim demo (Some [7]) [(7, [70; 71])] 7 [70; 71] pbeam
                [0; 5] {[ 7 := 5 ]}).
  premises Hclaim. destruct Hclaim as [_ Hneq].
  apply Hneq; [simpl; lia | by_compute | vm_compute; reflexivity].
Qed.

Lemma area_of_last_bar_witness :
  ∃ areas,
    Forall2 (element_has demo e_Area) [30; 31] areas ∧
    ({[ 3 := 3 ]} : gmap Z Z) !! 3 = (λ a, (nzero + a)%num) <$> last areas ∧
    ∀ earlier a, areas = earlier ++ [a] →
      (({[ 3 := 3 ]} : gmap Z Z) !! 3 = Some (sum areas)
       ↔ (sum earlier + a)%num = (nzero + a)%num).
Proof.
  apply (area_of_last_bar demo (Some [3]) [(3, [30; 31])] 3 [30; 31] pbar
           {[ 3 := 3 ]});
    concrete.
Defined.

(** With floats the reported area can be the sum although all the areas
    are positive and distinct: [1e-17 + 1.0] is [1.0]. *)
Example positive_areas_can_report_the_sum :
  get_area_breakdown Floats.thin_and_thick None false
    = Ok {[ 1 := nunit ]} ∧
  get_area_breakdown Floats.thin_and_thick None true
    = Ok {[ 1 := nunit ]}.
Proof. split; vm_compute; reflexivity. Qed.

Lemma solid_elements_skipped_witness :
  (get_volume_breakdown demo (Some [5])).1 =
    (get_volume_breakdown (selection_without_skipped demo) (Some [5])).1 ∧
  (get_mass_breakdown demo (Some [5]) true).1 =
    (get_mass_breakdown (selection_without_skipped demo) (Some [5]) true).1 ∧
  NoDup (get_volume_breakdown demo (Some [5])).2.*2 ∧
  NoDup (get_mass_breakdown demo (Some [5]) true).2.*2.
Proof. exact (solid_elements_skipped demo (Some [5]) true). Defined.

(** The selection without the skipped elements, and what is logged. *)
Example demo_without_skipped :
  get_element_ids_dict_with_pids (selection_without_skipped demo)
    (Some [5]) None = Some [(5, [50; 53])] ∧
  get_volume_breakdown demo (Some [5])
    = (Ok {[ 5 := 15 ]}, [("skipping volume"%string,
                            ("CPYRAM"%string, "PSOLID"%string))]).
Proof. split; vm_compute; reflexivity. Qed.

Lemma breakdown_keys_witness :
  ({[ 1 := 11 ]} : gmap Z Z) !! 6 = None ∧
  ({[ 1 := 22 ]} : gmap Z Z) !! 6 = None ∧
  ({[ 1 := 77 ]} : gmap Z Z) !! 6 = None ∧
  ∃ pid_eids eids prop areas,
    get_element_ids_dict_with_pids demo (Some [1; 6]) None = Some pid_eids ∧
    (1, eids) ∈ pid_eids ∧ properties demo !! 1 = Some prop ∧
    property_areas demo true prop eids = Ok areas ∧
    areas ≠ [] ∧ 11 = sum areas.
Proof.
  destruct (breakdown_keys demo (Some [1; 6]) true true)
    as (Harea & Hvolume & Hmass).
  assert (get_area_breakdown demo (Some [1; 6]) true = Ok {[ 1 := 11 ]})
    as Harea_call by concrete.
  assert (get_volume_breakdown demo (Some [1; 6]) = (Ok {[ 1 := 22 ]}, []))
    as Hvolume_call by concrete.
  assert (get_mass_breakdown demo (Some [1; 6]) true
          = (Ok ({[ 1 := 77 ]}, ∅), []))
    as Hmass_call by concrete.
  destruct (Harea _ Harea_call) as [Hkeys Hskip].
  split_and!.
  - apply (Hskip 6 pelas); concrete.
  - apply (proj2 (Hvolume _ _ Hvolume_call) 6 pelas); concrete.
  - apply (proj2 (Hmass _ _ _ Hmass_call) 6 pelas); concrete.
  - apply Hkeys. concrete.
Defined.

Lemma point_masses_prevent_no_mass_error_witness :
  (get_mass_breakdown demo_with_masses (Some [6]) true).1 ≠ Err NoMassFound ∧
  ∀ pm mt,
    (get_mass_breakdown demo_with_masses (Some [6]) true).1 = Ok (pm, mt) →
    mt ≠ ∅ ∧ mass_type_loop demo_with_masses = Ok mt.
Proof.
  apply (proj2 (point_masses_prevent_no_mass_error demo_with_masses
                  (Some [6]) true)).
  discriminate.
Defined.
End Witnesses.

(** ** The mass properties at the concrete models *)

Module MassPropsWitnesses.
Import MassProps MassPropsExamples.
Local Open Scope Z_scope.

Example resolved_model_mass_properties :
  mass_properties _mass_properties_elements_init _mass_properties
    _apply_mass_symmetry resolved_model None None None None None
  = Ok (4, (6, 2, 3),
        {| Ixx := 52; Iyy := 280; Izz := 260;
           Ixy := -48; Ixz := -72; Iyz := -24 |}).
Proof. vm_compute. reflexivity. Qed.

Lemma reference_point_node_or_default_witness :
  mass_properties _mass_properties_elements_init _mass_properties
    _apply_mass_symmetry resolved_model None None
    (Some (RefInt 1)) None None =
  mass_properties _mass_properties_elements_init _mass_properties
    _apply_mass_symmetry resolved_model None None
    (Some (RefArray (11, 2, 3))) None None ∧
  mass_properties _mass_properties_elements_init _mass_properties
    _apply_mass_symmetry resolved_model None None None None None =
  mass_properties _mass_properties_elements_init _mass_properties
    _apply_mass_symmetry resolved_model None None
    (Some (RefArray (nzero, nzero, nzero))) None None.
Proof.
  apply (MassPropsFacts.reference_point_node_or_default
           _mass_properties_elements_init _mass_properties
           _apply_mass_symmetry resolved_model None None None None
           1 {| n_xyz := (1, 2, 3); n_cp := 5;
                n_resolved := Some (11, 2, 3) |} (11, 2, 3));
    vm_compute; reflexivity.
Defined.
End MassPropsWitnesses.
(** ** The further theorems at the concrete models *)

Module MoreWitnesses.
Import Examples MoreExamples Witnesses.
Local Open Scope Z_scope.

Lemma Z_add_mul_distr (x y z : Z) : ((x + y) * z)%num = (x * z + y * z)%num.
Proof. simpl. lia. Qed.

Lemma Z_zero_mul (z : Z) : (nzero * z)%num = nzero.
Proof. reflexivity. Qed.

Lemma area_breakdown_sums_witness :
  ∃ areas,
    Forall2 (element_has demo e_Area) [30; 31] areas ∧
    ({[ 1 := 11; 3 := 6 ]} : gmap Z Z) !! 3 = reported areas.
Proof.
  apply (area_breakdown_sums demo (Some [1; 3]) true
           [(1, [10; 11]); (3, [30; 31])] 3 [30; 31] pbar
           {[ 1 := 11; 3 := 6 ]});
    [vm_compute; reflexivity | by_compute | by_compute
    | vm_compute; reflexivity | | vm_compute; reflexivity].
  right. split; [by_compute | reflexivity].
Defined.

Lemma shell_volumes_witness :
  (p_type pcomp ∈ ["PSHELL"; "PSHEAR"]%string →
   ∃ thickness areas,
     p_t pcomp = Some thickness ∧
     Forall2 (element_has demo e_Area) [20] areas ∧
     ({[ 1 := 22; 2 := 4 ]} : gmap Z Z) !! 2 =
       reported (map (λ area, (area * thickness)%num) areas)) ∧
  (p_type pcomp ∈ comp_props →
   ∃ thickness areas,
     p_Thickness pcomp = Some thickness ∧
     Forall2 (element_has demo e_Area) [20] areas ∧
     ({[ 1 := 22; 2 := 4 ]} : gmap Z Z) !! 2 =
       reported (map (λ area, (area * thickness)%num) areas)).
Proof.
  apply (shell_volumes demo (Some [1; 2]) [(1, [10; 11]); (2, [20])]
           2 [20] pcomp {[ 1 := 22; 2 := 4 ]} []);
    [vm_compute; reflexivity | by_compute | by_compute
    | vm_compute; reflexivity | vm_compute; reflexivity].
Defined.

Lemma solid_volume_and_mass_witness :
  (∃ volumes,
     Forall2 (element_has demo e_Volume)
       (List.filter (supported_or_missing demo) [50; 51; 52; 53]) volumes ∧
     Forall (λ eid, is_Some (elements demo !! eid)) [50; 51; 52; 53] ∧
     ({[ 5 := 15 ]} : gmap Z Z) !! 5 = reported volumes) ∧
  (∃ rho volumes,
     p_Rho psolid = Some rho ∧
     Forall2 (element_has demo e_Volume)
       (List.filter (supported_or_missing demo) [50; 51; 52; 53]) volumes ∧
     Forall (λ eid, is_Some (elements demo !! eid)) [50; 51; 52; 53] ∧
     ({[ 5 := 30 ]} : gmap Z Z) !! 5 =
       reported (map (λ volume, (rho * volume)%num) volumes)).
Proof.
  destruct (solid_volume_and_mass demo (Some [5]) 5 [50; 51; 52; 53] psolid)
    as [Hvolume Hmass]; [vm_compute; reflexivity | by_compute | ].
  split.
  - apply (Hvolume [(5, [50; 51; 52; 53])] {[ 5 := 15 ]}
             [("skipping volume", ("CPYRAM", "PSOLID"))]%string);
      [vm_compute; reflexivity | by_compute | by_compute
      | vm_compute; reflexivity].
  - apply (Hmass true [(5, [50; 51; 52; 53])] {[ 5 := 30 ]} ∅
             [("skipping mass", ("CPYRAM", "PSOLID"))]%string);
      [vm_compute; reflexivity | by_compute | by_compute
      | vm_compute; reflexivity].
Defined.

Lemma mass_type_sums_witness :
  ({[ "CONM2"%string := 4 ]} : gmap string Z) !! "CONM2"%string
  = added (masses_of_type demo_with_masses "CONM2").
Proof.
  apply (mass_type_sums demo_with_masses (Some [1]) true {[ 1 := 77 ]}
           {[ "CONM2"%string := 4 ]} [] "CONM2").
  vm_compute. reflexivity.
Defined.

Lemma sum_bar_area_only_for_lines_witness :
  get_area_breakdown one_bar None true = get_area_breakdown one_bar None false.
Proof.
  apply (sum_bar_area_only_for_lines one_bar None
           [(1, [10; 11]); (3, [30])]); [reflexivity|].
  intros pid eids prop Hin Hprop Hty.
  apply elem_of_cons in Hin as [[= -> ->]|Hin].
  - vm_compute in Hprop. injection Hprop as <-.
    exfalso. revert Hty. by_compute.
  - apply list_elem_of_singleton in Hin as [= -> ->]. simpl. lia.
Defined.

Lemma unknown_property_raises_witness :
  ((∃ e, get_area_breakdown stale None true = Err e ∧
         (e = KeyError 9 ∨ area_loop stale true [(1, [10; 11])] = Err e)) ∧
   (∃ e lg, get_volume_breakdown stale None = (Err e, lg) ∧
            (e = KeyError 9 ∨
             (volume_loop stale [(1, [10; 11])] no_skips).1 = Err e))) ∧
  (∃ e lg, get_mass_breakdown stale None true = (Err e, lg) ∧
           (e = KeyError 9 ∨ mass_type_loop stale = Err e ∨
            (mass_loop stale [(1, [10; 11])] no_skips).1 = Err e)).
Proof.
  destruct (unknown_property_raises stale None true true
              [(1, [10; 11])] 9 [90] []) as [Harea_volume Hmass];
    [vm_compute; reflexivity | ].
  split; [apply Harea_volume | apply Hmass]; reflexivity.
Defined.

Lemma shell_volume_is_area_times_thickness_witness :
  ∃ thickness,
    p_t pshell = Some thickness ∧
    ({[ 1 := 22 ]} : gmap Z Z) !! 1 =
      (λ area, (area * thickness)%num) <$> ({[ 1 := 11 ]} : gmap Z Z) !! 1.
Proof.
  apply (shell_volume_is_area_times_thickness demo (Some [1]) true
           [(1, [10; 11])] 1 [10; 11] pshell {[ 1 := 11 ]} {[ 1 := 22 ]} []
           Z_add_mul_distr Z_zero_mul);
    [vm_compute; reflexivity | by_compute | by_compute
    | vm_compute; reflexivity | by_compute
    | vm_compute; reflexivity | vm_compute; reflexivity].
Defined.
End MoreWitnesses.

(** ** The faces, the entry points and the design variables at the
    concrete models *)

Module FacesWitnesses.
Import Faces.
Local Open Scope Z_scope.

Example skin_model_faces :
  get_element_faces skin_model None true
  = Ok [(1, [Some 1; Some 2; Some 3]); (1, [Some 1; Some 2; Some 4]);
        (2, [Some 5; None; Some 7])].
Proof. vm_compute. reflexivity. Qed.

Lemma faces_without_blank_nids_witness :
  ∃ fid f elem eid,
    get_element_faces skin_model None false = Err (RuntimeError fid f elem) ∧
    None ∈ f ∧
    (eid, f) ∈ [(1, [Some 1; Some 2; Some 3]); (1, [Some 1; Some 2; Some 4]);
                (2, [Some 5; None; Some 7])] ∧
    elements skin_model !! eid = Some elem.
Proof.
  apply (FacesFacts.faces_without_blank_nids skin_model None
           [(1, [Some 1; Some 2; Some 3]); (1, [Some 1; Some 2; Some 4]);
            (2, [Some 5; None; Some 7])]).
  - vm_compute. reflexivity.
  - intros Hall. apply Forall_cons in Hall as [_ Hall].
    apply Forall_cons in Hall as [_ Hall].
    apply Forall_cons in Hall as [Hblank _].
    apply Hblank. simpl. apply list_elem_of_further, list_elem_of_here.
Defined.
End FacesWitnesses.

Module MassPropsMoreWitnesses.
Import MassProps MassPropsExamples.
Local Open Scope Z_scope.

Lemma entry_points_differ_in_the_engine_only_witness :
  mass_properties _mass_properties_elements_init _mass_properties
    _apply_mass_symmetry resolved_model None None (Some (RefInt 1)) None None
  = mass_properties_no_xref _mass_properties_elements_init
      _mass_properties _apply_mass_symmetry resolved_model
      None None (Some (RefInt 1)) None None.
Proof.
  apply (MassPropsEntry.entry_points_differ_in_the_engine_only
           _mass_properties_elements_init _mass_properties
           _mass_properties _apply_mass_symmetry resolved_model
           None None (Some (RefInt 1)) None None).
  intros elements masses point. reflexivity.
Defined.
End MassPropsMoreWitnesses.

Module DesvarsWitnesses.
Import Desvars.
Local Open Scope Z_scope.

Lemma Q_lt_irrefl (a : Q) : nlt a a = false.
Proof.
  unfold nlt, Q_Less. apply negb_false_iff, Qle_bool_iff, Qle_refl.
Qed.

(** Without [desvar_values]: [x1 = min(max(2 + 0.1, 0), 5)] and
    [x2 = min(max(1 + 3 * x1, 0), 10)]. *)
Example linked_values :
  desvar_values_and_delta (1 # 10)%Q linked_model None
  = Ok ({[ 1 := (21 # 10)%Q; 2 := (73 # 10)%Q ]},
        {[ 1 := (-1 # 10)%Q; 2 := (-33 # 10)%Q ]}).
Proof. vm_compute. reflexivity. Qed.

(** An undefined value, [0.0 / 0.0], passes through [min] and [max]: it
    is not outside the bounds [0] and [1], and it is not within them. *)
Example undefined_value_passes_through :
  py_min (py_max Floats.undefined (xlb Floats.unit_bounds))
    (xub Floats.unit_bounds) = Floats.undefined ∧
  not_outside Floats.unit_bounds Floats.undefined ∧
  ¬ within_bounds Floats.unit_bounds Floats.undefined.
Proof.
  split_and!.
  - vm_compute. reflexivity.
  - split; vm_compute; reflexivity.
  - intros [Hlow _]. vm_compute in Hlow. discriminate Hlow.
Qed.

Lemma linked_values_are_clamped_witness :
  (∀ key, key ∉ (dlinks linked_model).*1 →
     ({[ 1 := 4%Q; 2 := 10%Q ]} : gmap Z Q) !! key
     = ({[ 1 := 4%Q; 2 := 0%Q ]} : gmap Z Q) !! key) ∧
  (∃ v, ({[ 1 := 4%Q; 2 := 10%Q ]} : gmap Z Q) !! 2 = Some v ∧
        within_bounds {| value := 4%Q; xlb := 0%Q; xub := 10%Q |} v).
Proof.
  destruct (DesvarsFacts.linked_values_are_clamped (1 # 10)%Q linked_model
              {[ 1 := 4%Q; 2 := 0%Q ]} {[ 1 := 4%Q; 2 := 10%Q ]}
              {[ 1 := (-2)%Q; 2 := (-6)%Q ]} Q_lt_irrefl)
    as [Hother Hlinked]; [vm_compute; reflexivity|].
  split; [exact Hother|].
  destruct (Hlinked 2 {| value := 4%Q; xlb := 0%Q; xub := 10%Q |})
    as (v & Hv & _ & Hwithin);
    [simpl; apply list_elem_of_here | vm_compute; reflexivity..|].
  exists v. split; [exact Hv|].
  vm_compute in Hv. injection Hv as <-.
  apply Hwithin; right; vm_compute; reflexivity.
Defined.

Lemma default_values_within_bounds_witness :
  ∃ v, ({[ 1 := (21 # 10)%Q; 2 := (73 # 10)%Q ]} : gmap Z Q) !! 2 = Some v ∧
       within_bounds {| value := 4%Q; xlb := 0%Q; xub := 10%Q |} v.
Proof.
  destruct (DesvarsFacts.default_values_within_bounds (1 # 10)%Q linked_model
              {[ 1 := (21 # 10)%Q; 2 := (73 # 10)%Q ]}
              {[ 1 := (-1 # 10)%Q; 2 := (-33 # 10)%Q ]} 2
              {| value := 4%Q; xlb := 0%Q; xub := 10%Q |} Q_lt_irrefl)
    as (v & Hv & _ & Hwithin); [vm_compute; reflexivity..|].
  exists v. split; [exact Hv|].
  vm_compute in Hv. injection Hv as <-.
  apply Hwithin; right; vm_compute; reflexivity.
Defined.

Lemma delta_is_nominal_minus_current_witness :
  ({[ 1 := (-1 # 10)%Q; 2 := (-33 # 10)%Q ]} : gmap Z Q) !! 2 =
  match get_desvar linked_model 2 with
  | Ok desvar =>
      (λ v, (value desvar - v)%num)
        <$> ({[ 1 := (21 # 10)%Q; 2 := (73 # 10)%Q ]} : gmap Z Q) !! 2
  | Err _ => None
  end.
Proof.
  apply (DesvarsFacts.delta_is_nominal_minus_current (1 # 10)%Q linked_model
           None {[ 1 := (21 # 10)%Q; 2 := (73 # 10)%Q ]}
           {[ 1 := (-1 # 10)%Q; 2 := (-33 # 10)%Q ]} 2).
  vm_compute. reflexivity.
Defined.

Lemma closed_links_give_values_witness :
  ∃ values delta,
    desvar_values_and_delta (1 # 10)%Q linked_model None
    = Ok (values, delta).
Proof.
  apply (DesvarsFacts.closed_links_give_values (1 # 10)%Q linked_model).
  intros desvar_id dlink Hin.
  apply list_elem_of_singleton in Hin as [= -> ->]. split.
  - simpl. apply list_elem_of_further, list_elem_of_here.
  - intros i Hi. apply list_elem_of_singleton in Hi as ->.
    simpl. apply list_elem_of_here.
Defined.

Lemma link_of_unknown_desvar_raises_witness :
  ∃ key, desvar_values_and_delta (1 # 10)%Q dangling_model None
         = Err (KeyError key).
Proof.
  apply (DesvarsFacts.link_of_unknown_desvar_raises (1 # 10)%Q
           dangling_model None 7).
  - simpl. apply list_elem_of_here.
  - simpl. intros Hin. apply list_elem_of_singleton in Hin. discriminate Hin.
Defined.
End DesvarsWitnesses.

